(** * Helmert contrast coding: [category_encoders/helmert.py]

    A shallow embedding of [HelmertEncoder] ([fit], [transform] and the
    static method [helmert_coding]) together with the pandas and patsy
    operations the three methods call, and the properties of the encoding
    pipeline that follow from the code.

    Conventions.
    - A pandas [DataFrame] is an ordered list of labelled columns; all
      columns of a table have the same number of cells.
    - [float64] cells are idealised as rationals; [int64] cells are
      unbounded integers, rounded to the nearest double where pandas
      converts them to [float64].
    - Python objects that are mutated in place ([DataFrame]s, the encoder
      instance) live in an explicit store; a method is a state-and-error
      computation over that store. *)

From Stdlib Require Import QArith Ascii.
From stdpp Require Import base list list_numbers sorting strings pretty.

(** ** Cells, columns and tables *)

Inductive cell :=
| Str (s : string)   (* a Python object, here always a string *)
| Int (z : Z)        (* int64 *)
| Float (q : Q)      (* float64 *)
| NaN.               (* missing value *)

#[global] Instance Q_eq_dec : EqDecision Q.
Proof. solve_decision. Defined.
#[global] Instance cell_eq_dec : EqDecision cell.
Proof. solve_decision. Defined.

Abbreviation series := (list cell).
Abbreviation frame := (list (string * series)).

(** The [dtype] of a column: [object] when it holds a string, [float64]
    when it holds no string but a float or a missing value, [int64]
    otherwise. *)
Definition is_str (c : cell) : bool :=
  match c with Str _ => true | _ => false end.
Definition is_float (c : cell) : bool :=
  match c with Float _ | NaN => true | _ => false end.

Definition is_object (v : series) : bool := existsb is_str v.
Definition is_float64 (v : series) : bool :=
  negb (is_object v) && existsb is_float v.

(** [int64] to [float64]: the nearest double, ties to even. An integer of
    magnitude up to [2^53] is kept as it is. *)
Definition float64_of_int (z : Z) : Q :=
  let a := Z.abs z in
  if decide (a ≤ 2 ^ 53)%Z then inject_Z z
  else
    let e := (Z.log2 a - 52)%Z in
    let m := Z.shiftr a e in
    let r := (a - Z.shiftl m e)%Z in
    let half := Z.shiftl 1 (e - 1) in
    let m' := if decide (r < half)%Z then m
              else if decide (half < r)%Z then (m + 1)%Z
              else if Z.even m then m else (m + 1)%Z in
    inject_Z (Z.sgn z * Z.shiftl m' e).

(** [X.columns.values] *)
Definition columns (X : frame) : list string := X.*1.

(** [X.shape[1]] and [X.shape[0]] *)
Definition ncols (X : frame) : nat := length X.
Definition nrows (X : frame) : nat :=
  match X with [] => 0 | c :: _ => length c.2 end.

(** All columns hold [n] cells. *)
Definition aligned (n : nat) (X : frame) : Prop :=
  Forall (λ c, length c.2 = n) X.

(** ** Python exceptions *)

Inductive error :=
| ValueError (msg : string)
| KeyError (label : string)
| TypeError (msg : string)
| AttributeError (msg : string)
| IndexError (msg : string)
| PatsyError (msg : string).

#[global] Instance error_eq_dec : EqDecision error.
Proof. solve_decision. Defined.

(** ** pandas operations on table values *)

(** The columns carrying [label]. *)
Definition select (X : frame) (label : string) : list series :=
  (filter (λ c, c.1 = label) X).*2.

(** [X[label]] read as one column. A label carried by several columns
    selects a sub-table, on which the scalar uses made of [X[label]] in
    this file fail. *)
Definition getitem (X : frame) (label : string) : error + series :=
  match select X label with
  | [] => inl (KeyError label)
  | [v] => inr v
  | _ => inl (ValueError "The truth value of a Series is ambiguous.")
  end.

(** [X[label] = v]: replaces the column when the label exists, appends a
    new last column otherwise. *)
Definition setitem (X : frame) (label : string) (v : series) : frame :=
  if decide (label ∈ columns X)
  then (λ c, if decide (c.1 = label) then (label, v) else c) <$> X
  else X ++ [(label, v)].

(** [X.reindex(columns=labels)]: the listed columns in the listed order; a
    label the table lacks gives a column of missing values. pandas
    refuses a table whose labels are not distinct, unless the listed labels
    are its own labels in their order, or none is listed. *)
Definition reindex_columns (X : frame) (labels : list string) : frame :=
  (λ l, (l, match select X l with
            | v :: _ => v
            | [] => replicate (nrows X) NaN
            end)) <$> labels.

Definition reindex (X : frame) (labels : list string) : error + frame :=
  if decide (labels = columns X) then inr X
  else if decide (NoDup (columns X) ∨ labels = [])
       then inr (reindex_columns X labels)
       else inl (ValueError "cannot reindex from a duplicate axis").

(** [X.drop(label, 1)]: removes the columns carrying [label]; pandas
    raises when there is none. *)
Definition drop (X : frame) (label : string) : error + frame :=
  if decide (label ∈ columns X)
  then inr (filter (λ c, c.1 ≠ label) X)
  else inl (ValueError ("labels ['" +:+ label +:+ "'] not contained in axis")).

(** [X.values]: the table as a list of rows, in one common [dtype]:
    [object] when a column is, else [float64] when a column is, else
    [int64]. In a [float64] array the integers are converted. A table
    without columns is given no rows here. *)
Definition as_float64 (c : cell) : cell :=
  match c with Int z => Float (float64_of_int z) | _ => c end.

Definition values (X : frame) : list (list cell) :=
  let convert :=
    if existsb (λ c, is_object c.2) X then id
    else if existsb (λ c, is_float64 c.2) X then as_float64
    else id in
  (λ i, (λ c, convert (default NaN (c.2 !! i))) <$> X) <$> seq 0 (nrows X).

(** The numeric reading of a cell, as the [float64] pandas computes with;
    [None] for a missing value, an error for an object. *)
Definition number (c : cell) : error + option Q :=
  match c with
  | Int z => inr (Some (float64_of_int z))
  | Float q => inr (Some q)
  | NaN => inr None
  | Str _ => inl (TypeError "could not convert string to float")
  end.

Fixpoint numbers (v : series) : error + list Q :=
  match v with
  | [] => inr []
  | c :: v =>
      match number c, numbers v with
      | inl e, _ => inl e
      | _, inl e => inl e
      | inr None, inr qs => inr qs
      | inr (Some q), inr qs => inr (q :: qs)
      end
  end.

Definition Qsum (qs : list Q) : Q := foldr Qplus 0%Q qs.

(** [Series.var()]: the sample variance (one delta degree of freedom) of
    the cells that are not missing; undefined ([None], pandas' NaN) when
    fewer than two cells remain. pandas computes it in [float64]; here the
    sums and quotients are exact, so the value is the computed one up to
    the rounding of these operations, and equal to it where they are exact
    (a constant column of ones, say). Statements that compare a variance
    with the threshold keep a margin around the threshold. *)
Definition sample_var (qs : list Q) : option Q :=
  match qs with
  | [] | [_] => None
  | _ =>
      let n := inject_Z (Z.of_nat (length qs)) in
      let mean := (Qsum qs / n)%Q in
      Some (Qsum ((λ q, (q - mean) * (q - mean))%Q <$> qs) / (n - 1))%Q
  end.

Definition var (v : series) : error + option Q :=
  match numbers v with
  | inl e => inl e
  | inr qs => inr (sample_var qs)
  end.

(** ** patsy: [dmatrix("C(col, Helmert)", X)]

    patsy is an external library; the definitions below follow its
    documented behaviour. The levels of a categorical factor are the
    distinct values the column takes in the data handed to [dmatrix], in
    sorted order. [Helmert] builds, for [n] levels, the [n] by [n - 1]
    contrast whose column [j] (from 0) is [-1] on rows [0..j], [j + 1] on
    row [j + 1] and [0] below; a formula with an intercept gets a leading
    column of ones. For four levels the design rows are
    [[1,-1,-1,-1]], [[1,1,-1,-1]], [[1,0,2,-1]], [[1,0,0,3]]. *)

Definition levels (codes : list Z) : list Z :=
  merge_sort Z.le (remove_dups codes).

Fixpoint level_index (z : Z) (lv : list Z) : nat :=
  match lv with
  | [] => 0
  | l :: lv => if decide (z = l) then 0 else S (level_index z lv)
  end.

Definition helmert_contrast (i j : nat) : Z :=
  if decide (i ≤ j) then (-1)%Z
  else if decide (i = S j) then Z.of_nat (S j)
  else 0%Z.

Definition helmert_row (n i : nat) : list cell :=
  Float 1 :: ((λ j, Float (inject_Z (helmert_contrast i j))) <$> seq 0 (n - 1)).

Fixpoint int_codes (v : series) : option (list Z) :=
  match v with
  | [] => Some []
  | Int z :: v => cons z <$> int_codes v
  | _ :: _ => None
  end.

(** The design matrix of a coded column, one row per cell. *)
Definition design (codes : list Z) : list (list cell) :=
  let lv := levels codes in
  (λ z, helmert_row (length lv) (level_index z lv)) <$> codes.

(** The formula is text: [helmert_coding] pastes the label into
    ["C(%s, Helmert)"] and patsy evaluates the factor as Python code on the
    columns of the table. The column is reached only when the label reads
    as one name, made of letters, digits and underscores and not starting
    with a digit; any other label fails to evaluate. (The labels
    [helmert_coding] pastes start with [col_], so none is a keyword.) *)
Definition is_digit (a : ascii) : bool :=
  match a with
  | "0" | "1" | "2" | "3" | "4" | "5" | "6" | "7" | "8" | "9" => true
  | _ => false
  end%char.

Definition is_letter (a : ascii) : bool :=
  let n := nat_of_ascii a in
  (Nat.leb 65 n && Nat.leb n 90) || (Nat.leb 97 n && Nat.leb n 122).

Definition name_char (a : ascii) : bool :=
  is_letter a || is_digit a || bool_decide (a = "_"%char).

Fixpoint name_chars (s : string) : bool :=
  match s with
  | EmptyString => true
  | String a s => name_char a && name_chars s
  end.

Definition python_name (s : string) : bool :=
  match s with
  | EmptyString => false
  | String a _ => negb (is_digit a) && name_chars s
  end.

(** Only integer-coded columns are covered, which is what [transform]
    feeds in; patsy codes the values of any other column as levels too.
    On a column without cells there is no level, and numpy refuses the
    0 by -1 contrast matrix patsy asks for. *)
Definition dmatrix (col : string) (X : frame) : error + list (list cell) :=
  if python_name col then
    match select X col with
    | [v] =>
        match int_codes v with
        | Some [] => inl (ValueError "negative dimensions are not allowed")
        | Some codes => inr (design codes)
        | None => inl (PatsyError "factor is not integer coded")
        end
    | _ => inl (PatsyError ("cannot evaluate factor " +:+ col))
    end
  else inl (PatsyError ("cannot evaluate factor " +:+ col)).

(** ** The ordinal encoder *)

(** [category_encoders.ordinal.OrdinalEncoder] is not among the sources;
    this section follows the specification: learning scans a column once
    and gives each new distinct value the next positive integer, in order
    of first appearance; encoding replaces a value by its code, and a
    value absent from the mapping by a reserved code. No error is raised
    for unseen values. *)

Abbreviation mapping := (list (cell * Z)).

(** Modelled from the spec: the lookup in a mapping of [OrdinalEncoder],
    which is missing. The code of a value, if it has one. *)
Definition code_of (m : mapping) (v : cell) : option Z :=
  snd <$> head (filter (λ p, p.1 = v) m).

(** Modelled from the spec: [learn] of the missing [OrdinalEncoder]. Codes
    start at 1 and follow first occurrence. *)
Fixpoint learn_from (m : mapping) (vs : series) : mapping :=
  match vs with
  | [] => m
  | v :: vs =>
      if decide (v ∈ m.*1) then learn_from m vs
      else learn_from (m ++ [(v, Z.of_nat (S (length m)))]) vs
  end.

Definition learn (vs : series) : mapping := learn_from [] vs.

(** Modelled from the spec: the reserved code of the missing
    [OrdinalEncoder] for a value it has not seen, "conceptually 0". *)
Definition unseen_code : Z := 0.

(** Modelled from the spec: [encode] of the missing [OrdinalEncoder]. The
    mapped code when there is one, the reserved code otherwise. *)
Definition codes_of (m : mapping) (vs : series) : list Z :=
  (λ v, default unseen_code (code_of m v)) <$> vs.

Definition encode (m : mapping) (vs : series) : series :=
  Int <$> codes_of m vs.

(** Modelled from the spec: the learned state of the missing
    [OrdinalEncoder], one mapping per selected column. *)
Record OrdinalEncoder := {
  oe_cols : list string;
  oe_mapping : list (string * mapping)
}.

(** Modelled from the spec: [fit] of the missing [OrdinalEncoder] on a
    table, [learn] per selected column, in the order of [cols]. *)
Fixpoint ordinal_learn (cols : list string) (X : frame)
  : error + list (string * mapping) :=
  match cols with
  | [] => inr []
  | c :: cols =>
      match getitem X c, ordinal_learn cols X with
      | inl e, _ => inl e
      | _, inl e => inl e
      | inr v, inr ms => inr ((c, learn v) :: ms)
      end
  end.

(** Modelled from the spec: [transform] of the missing [OrdinalEncoder] on
    a table, [encode] on each selected column; the other columns are
    kept. *)
Fixpoint ordinal_apply (ms : list (string * mapping)) (X : frame)
  : error + frame :=
  match ms with
  | [] => inr X
  | (c, m) :: ms =>
      match getitem X c with
      | inl e => inl e
      | inr v => ordinal_apply ms (setitem X c (encode m v))
      end
  end.

(** Modelled from the spec: [category_encoders.utils.get_obj_cols], which
    is missing. It returns the labels of the columns judged categorical,
    that is the columns that are not numeric. *)
Definition get_obj_cols (X : frame) : list string :=
  (filter (λ c, is_object c.2 = true) X).*1.

(** ** The encoder instance and the object store *)

Abbreviation ref := nat (only parsing).

(** The attributes of an instance. [ordinal_encoder] is [Some] for an
    ordinal encoder whose [fit] has returned and [None] otherwise: when
    the attribute is [None], and when it holds the encoder [fit] has
    constructed but not fitted. *)
Record HelmertEncoder := {
  return_df : bool;
  drop_invariant : bool;
  drop_cols : list string;
  verbose : Z;
  cols : option (list string);
  ordinal_encoder : option OrdinalEncoder;
  _dim : option nat
}.

(** Attribute assignments [self.x = v] *)
Definition set_dim (v : option nat) (s : HelmertEncoder) : HelmertEncoder :=
  {| return_df := return_df s; drop_invariant := drop_invariant s;
     drop_cols := drop_cols s; verbose := verbose s; cols := cols s;
     ordinal_encoder := ordinal_encoder s; _dim := v |}.
Definition set_cols (v : option (list string)) (s : HelmertEncoder)
  : HelmertEncoder :=
  {| return_df := return_df s; drop_invariant := drop_invariant s;
     drop_cols := drop_cols s; verbose := verbose s; cols := v;
     ordinal_encoder := ordinal_encoder s; _dim := _dim s |}.
Definition set_ordinal_encoder (v : option OrdinalEncoder) (s : HelmertEncoder)
  : HelmertEncoder :=
  {| return_df := return_df s; drop_invariant := drop_invariant s;
     drop_cols := drop_cols s; verbose := verbose s; cols := cols s;
     ordinal_encoder := v; _dim := _dim s |}.
Definition set_drop_cols (v : list string) (s : HelmertEncoder)
  : HelmertEncoder :=
  {| return_df := return_df s; drop_invariant := drop_invariant s;
     drop_cols := v; verbose := verbose s; cols := cols s;
     ordinal_encoder := ordinal_encoder s; _dim := _dim s |}.

(** [__init__] *)
Definition init (verbose : Z) (cols : option (list string))
    (drop_invariant return_df : bool) : HelmertEncoder :=
  {| return_df := return_df; drop_invariant := drop_invariant;
     drop_cols := []; verbose := verbose; cols := cols;
     ordinal_encoder := None; _dim := None |}.

(** The encoder instance [self] and the tables allocated so far; a [ref]
    is a position in [heap]. *)
Record world := {
  self : HelmertEncoder;
  heap : list frame
}.

Definition M (A : Type) : Type := world → (error + A) * world.

Definition ret {A} (a : A) : M A := λ w, (inr a, w).
Definition raise {A} (e : error) : M A := λ w, (inl e, w).
Definition bind {A B} (m : M A) (k : A → M B) : M B :=
  λ w, match m w with
       | (inl e, w') => (inl e, w')
       | (inr a, w') => k a w'
       end.

Notation "'let*' x ':=' m 'in' k" := (bind m (λ x, k))
  (at level 10, x name, m at level 100, k at level 200,
   format "'[' 'let*'  x  :=  m  'in' ']' '/' k").

Definition lift {A} (r : error + A) : M A :=
  match r with inl e => raise e | inr a => ret a end.

Definition get_self : M HelmertEncoder := λ w, (inr (self w), w).
Definition put_self (e : HelmertEncoder) : M unit :=
  λ w, (inr (), {| self := e; heap := heap w |}).

Definition df_read (r : ref) : M frame :=
  λ w, match heap w !! r with
       | Some X => (inr X, w)
       | None => (inl (TypeError "not a DataFrame"), w)
       end.
Definition df_write (r : ref) (X : frame) : M unit :=
  λ w, (inr (), {| self := self w; heap := <[r := X]> (heap w) |}).
Definition df_alloc (X : frame) : M ref :=
  λ w, (inr (length (heap w)), {| self := self w; heap := heap w ++ [X] |}).

(** [for a in l: s = body(s, a)] *)
Fixpoint foldM {A S} (body : S → A → M S) (l : list A) (s : S) : M S :=
  match l with
  | [] => ret s
  | a :: l => let* s' := body s a in foldM body l s'
  end.

(** [[a for a in l if keep(a)]] *)
Fixpoint filterM {A} (keep : A → M bool) (l : list A) : M (list A) :=
  match l with
  | [] => ret []
  | a :: l =>
      let* b := keep a in
      let* l' := filterM keep l in
      ret (if b then a :: l' else l')
  end.

(** *** [DataFrame] methods on stored tables *)

Definition df_copy (r : ref) : M ref := let* X := df_read r in df_alloc X.
Definition df_columns (r : ref) : M (list string) :=
  let* X := df_read r in ret (columns X).
Definition df_set_columns (r : ref) (labels : list string) : M unit :=
  let* X := df_read r in df_write r (zip labels X.*2).
Definition df_setitem (r : ref) (label : string) (v : series) : M unit :=
  let* X := df_read r in df_write r (setitem X label v).
Definition df_getitem (r : ref) (label : string) : M series :=
  let* X := df_read r in lift (getitem X label).
Definition df_reindex (r : ref) (labels : list string) : M ref :=
  let* X := df_read r in
  let* Y := lift (reindex X labels) in
  df_alloc Y.
Definition df_drop_inplace (r : ref) (label : string) : M unit :=
  let* X := df_read r in let* X' := lift (drop X label) in df_write r X'.
Definition df_dmatrix (col : string) (r : ref) : M (list (list cell)) :=
  let* X := df_read r in lift (dmatrix col X).

(** Modelled from the spec: [category_encoders.utils.convert_input], which
    is missing. The caller's table is already in the canonical
    representation and is handed back as it is. *)
Definition convert_input (X : ref) : M ref := ret X.

(** Modelled from the spec: [OrdinalEncoder(verbose, cols).fit(X)], which
    is missing. It reads the table and keeps the learned mappings. *)
Definition ordinal_fit (cols : list string) (X : ref) : M OrdinalEncoder :=
  let* F := df_read X in
  let* ms := lift (ordinal_learn cols F) in
  ret {| oe_cols := cols; oe_mapping := ms |}.

(** Modelled from the spec: [OrdinalEncoder.transform(X)], which is
    missing. The input table is left alone and a new table is returned. *)
Definition ordinal_transform (oe : OrdinalEncoder) (X : ref) : M ref :=
  let* F := df_read X in
  let* F' := lift (ordinal_apply (oe_mapping oe) F) in
  df_alloc F'.

(** ** [HelmertEncoder.helmert_coding] *)

Definition prefixed (x : string) : string := "col_" +:+ x.
Definition expanded (col : string) (dig : nat) : string :=
  col +:+ "_" +:+ pretty dig.

Definition helmert_coding (X_in : ref) (cols : option (list string)) : M ref :=
  let* X := df_copy X_in in
  let* labels := df_columns X in
  let* _ := df_set_columns X (prefixed <$> labels) in
  match cols with
  | None => raise (TypeError "'NoneType' object is not iterable")
  | Some cols =>
      let cols := prefixed <$> cols in
      let* labels := df_columns X in
      let pass_thru := filter (λ col, col ∉ cols) labels in
      let* bin_cols :=
        foldM (λ bin_cols col,
            let* mod_ := df_dmatrix col X in
            let* row0 := match mod_ with
                    | [] => raise (IndexError "index 0 is out of bounds")
                    | row :: _ => ret row
                    end in
            foldM (λ bin_cols dig,
                let* _ := df_setitem X (expanded col dig)
                  ((λ row, default NaN (row !! dig)) <$> mod_) in
                ret (bin_cols ++ [expanded col dig]))
              (seq 0 (length row0)) bin_cols)
          cols [] in
      df_reindex X (bin_cols ++ pass_thru)
  end.

(** ** [HelmertEncoder.transform]

    Without a fitted ordinal encoder the call
    [self.ordinal_encoder.transform(X)] fails; the error given here is the
    one Python raises when the attribute is [None]. *)

Inductive result :=
| DataFrame (r : ref)
| NDArray (rows : list (list cell)).

Definition not_fitted : error :=
  ValueError "Must train encoder before it can be used to transform data.".
Definition bad_dimension (got expected : nat) : error :=
  ValueError ("Unexpected input dimension " +:+ pretty got
              +:+ ", expected " +:+ pretty expected).

Definition transform (X : ref) : M result :=
  let* s := get_self in
  match _dim s with
  | None => raise not_fitted
  | Some dim =>
      let* X := convert_input X in
      let* F := df_read X in
      if decide (ncols F ≠ dim) then raise (bad_dimension (ncols F) dim)
      else
        match cols s with
        | None | Some [] => ret (DataFrame X)
        | Some _ =>
            let* X := match ordinal_encoder s with
                 | None => raise (AttributeError
                     "'NoneType' object has no attribute 'transform'")
                 | Some oe => ordinal_transform oe X
                 end in
            let* X := helmert_coding X (cols s) in
            let* _ :=
              if drop_invariant s
              then foldM (λ _ col, df_drop_inplace X col) (drop_cols s) ()
              else ret () in
            if return_df s then ret (DataFrame X)
            else let* F := df_read X in ret (NDArray (values F))
        end
  end.

(** ** [HelmertEncoder.fit]

    [fit] assigns the new ordinal encoder to [self.ordinal_encoder] before
    it fits it: until that [fit] has returned the attribute holds no
    fitted encoder, whatever an earlier [fit] had left there. *)

(** [10e-5]: the double nearest to 1/10000, which is
    7378697629483821 / 2^66, a little above 1/10000. *)
Definition threshold : Q := 7378697629483821 # 73786976294838206464.

Definition invariant_column (X_temp : ref) (x : string) : M bool :=
  let* v := df_getitem X_temp x in
  let* s2 := lift (var v) in
  ret match s2 with
      | Some q => Qle_bool q threshold
      | None => false
      end.

Definition fit (X : ref) : M unit :=
  let* X := convert_input X in
  let* F := df_read X in
  let* s := get_self in
  let* _ := put_self (set_dim (Some (ncols F)) s) in
  let* s := get_self in
  let* _ :=
    match cols s with
    | None => put_self (set_cols (Some (get_obj_cols F)) s)
    | Some _ => ret ()
    end in
  let* s := get_self in
  let* _ := put_self (set_ordinal_encoder None s) in
  let* oe := ordinal_fit (default [] (cols s)) X in
  let* s := get_self in
  let* _ := put_self (set_ordinal_encoder (Some oe) s) in
  let* s := get_self in
  if drop_invariant s then
    let* _ := put_self (set_drop_cols [] s) in
    let* X_temp := transform X in
    match X_temp with
    | NDArray _ => raise (AttributeError
        "'numpy.ndarray' object has no attribute 'columns'")
    | DataFrame X_temp =>
        let* labels := df_columns X_temp in
        let* dc := filterM (invariant_column X_temp) labels in
        let* s := get_self in
        put_self (set_drop_cols dc s)
    end
  else ret ().

(** ** Functional reading of the methods

    The loops of [helmert_coding] and [transform] act on one stored table;
    the functions below compute the table they leave there. *)

(** [mod[:, dig]] *)
Definition matrix_column (dig : nat) (mod_ : list (list cell)) : series :=
  (λ row, default NaN (row !! dig)) <$> mod_.

Fixpoint write_block (col : string) (mod_ : list (list cell))
    (digs : list nat) (X : frame) (bin_cols : list string)
  : frame * list string :=
  match digs with
  | [] => (X, bin_cols)
  | dig :: digs =>
      write_block col mod_ digs
        (setitem X (expanded col dig) (matrix_column dig mod_))
        (bin_cols ++ [expanded col dig])
  end.

Fixpoint expand_loop (cols : list string) (X : frame) (bin_cols : list string)
  : (error + list string) * frame :=
  match cols with
  | [] => (inr bin_cols, X)
  | col :: cols =>
      match dmatrix col X with
      | inl e => (inl e, X)
      | inr [] => (inl (IndexError "index 0 is out of bounds"), X)
      | inr ((row0 :: _) as mod_) =>
          let '(X', bin_cols') :=
            write_block col mod_ (seq 0 (length row0)) X bin_cols in
          expand_loop cols X' bin_cols'
      end
  end.

(** [X.columns = labels] *)
Definition relabel (X : frame) : frame := zip (prefixed <$> columns X) X.*2.

(** The table [helmert_coding] returns. *)
Definition helmert_frame (X : frame) (cols : list string) : error + frame :=
  let X1 := relabel X in
  let cols := prefixed <$> cols in
  let pass_thru := filter (λ col, col ∉ cols) (columns X1) in
  match expand_loop cols X1 [] with
  | (inl e, _) => inl e
  | (inr bin_cols, X2) => reindex X2 (bin_cols ++ pass_thru)
  end.

(** [for col in labels: X.drop(col, 1, inplace=True)] *)
Fixpoint drop_all (labels : list string) (X : frame) : error + frame :=
  match labels with
  | [] => inr X
  | l :: labels =>
      match drop X l with
      | inl e => inl e
      | inr X' => drop_all labels X'
      end
  end.

(** The labels [transform] removes. *)
Definition pruned (s : HelmertEncoder) : list string :=
  if drop_invariant s then drop_cols s else [].

(** The table [transform] returns, or whose rows it returns, on the input
    table [X] when the instance is [s]. *)
Definition transform_frame (s : HelmertEncoder) (X : frame) : error + frame :=
  match _dim s with
  | None => inl not_fitted
  | Some dim =>
      if decide (ncols X ≠ dim) then inl (bad_dimension (ncols X) dim)
      else
        match cols s with
        | None | Some [] => inr X
        | Some cs =>
            match ordinal_encoder s with
            | None => inl (AttributeError
                "'NoneType' object has no attribute 'transform'")
            | Some oe =>
                match ordinal_apply (oe_mapping oe) X with
                | inl e => inl e
                | inr X1 =>
                    match helmert_frame X1 cs with
                    | inl e => inl e
                    | inr X2 => drop_all (pruned s) X2
                    end
                end
            end
        end
  end.

(** What a result denotes: the table behind a returned reference, or the
    table whose rows a returned array holds. *)
Definition yields (w : world) (res : result) (out : frame) : Prop :=
  match res with
  | DataFrame r => heap w !! r = Some out
  | NDArray rows => rows = values out
  end.

(** [[x for x in labels if X_temp[x].var() <= 10e-5]] *)
Fixpoint invariant_labels (X_temp : frame) (labels : list string)
  : error + list string :=
  match labels with
  | [] => inr []
  | x :: labels =>
      match getitem X_temp x with
      | inl e => inl e
      | inr v =>
          match var v with
          | inl e => inl e
          | inr s2 =>
              match invariant_labels X_temp labels with
              | inl e => inl e
              | inr l' =>
                  inr (if match s2 with
                          | Some q => Qle_bool q threshold
                          | None => false
                          end
                       then x :: l' else l')
              end
          end
      end
  end.

(** The instance after the first statements of [fit]: dimension recorded,
    columns resolved. *)
Definition resolved_cols (s : HelmertEncoder) (F : frame) : list string :=
  match cols s with
  | None => get_obj_cols F
  | Some cs => cs
  end.

Definition resolved (s : HelmertEncoder) (F : frame) : HelmertEncoder :=
  set_cols (Some (resolved_cols s F)) (set_dim (Some (ncols F)) s).

(** ** Vocabulary of the statements *)

(** The first character of the message of a [ValueError]. The two
    validation errors of [transform] start with M and U; the errors of its
    later steps do not. *)
Definition error_tag (e : error) : option ascii :=
  match e with
  | ValueError (String a _) => Some a
  | _ => None
  end.

Definition late_error (e : error) : Prop :=
  error_tag e ≠ Some "M"%char ∧ error_tag e ≠ Some "U"%char.

(** A column on which the rounding of the variance stays far below the
    margins of the statements: at most 1000 cells, each missing or a
    number of magnitude at most 100. *)
Definition small_cell (c : cell) : bool :=
  match c with
  | Int z => bool_decide (-100 ≤ z ≤ 100)%Z
  | Float q => Qle_bool (-100) q && Qle_bool q 100
  | NaN => true
  | Str _ => false
  end.

Definition small_column (v : series) : bool :=
  bool_decide (length v ≤ 1000) && forallb small_cell v.

(** Labels made of decimal digits, and labels with a given prefix. *)
Fixpoint all_digits (s : string) : bool :=
  match s with
  | EmptyString => true
  | String a s => is_digit a && all_digits s
  end.

Fixpoint strip_prefix (p s : string) : option string :=
  match p, s with
  | EmptyString, _ => Some s
  | String a p, String b s => if decide (a = b) then strip_prefix p s else None
  | String _ _, EmptyString => None
  end.

(** [l] reads as [col], an underscore and digits. *)
Definition expansion_label (col l : string) : bool :=
  match strip_prefix (col +:+ "_") l with
  | Some rest => all_digits rest
  | None => false
  end.

(** No column of the table is labelled like an expansion of a selected
    column. *)
Definition no_clash (cs : list string) (X : frame) : bool :=
  forallb (λ l, forallb (λ c, negb (expansion_label c l)) cs) (columns X).

(** The columns one selected column expands to. *)
Definition block_of (col : string) (mod_ : list (list cell)) (width : nat)
  : frame :=
  (λ dig, (expanded col dig, matrix_column dig mod_)) <$> seq 0 width.

(** The blocks of the selected columns, each computed on the table as it
    enters the loop. *)
Fixpoint blocks (cols : list string) (X : frame) : error + list frame :=
  match cols with
  | [] => inr []
  | col :: cols =>
      match dmatrix col X with
      | inl e => inl e
      | inr [] => inl (IndexError "index 0 is out of bounds")
      | inr ((row0 :: _) as mod_) =>
          match blocks cols X with
          | inl e => inl e
          | inr Bs => inr (block_of col mod_ (length row0) :: Bs)
          end
      end
  end.

(** The mapping the ordinal encoder holds for a column, and its effect on
    one labelled column. *)
Fixpoint mapping_for (ms : list (string * mapping)) (c : string)
  : option mapping :=
  match ms with
  | [] => None
  | (c', m) :: ms => if decide (c = c') then Some m else mapping_for ms c
  end.

Definition encode_column (ms : list (string * mapping)) (col : string * series)
  : string * series :=
  match mapping_for ms col.1 with
  | Some m => (col.1, encode m col.2)
  | None => col
  end.

(** The value in position [d] of the design row of the level of rank [r]
    (ranks from 1): 1 in the intercept position, then [-1] while
    [r <= d], [d] when [r = d + 1], and 0 after. *)
Definition contrast_value (r : Z) (d : nat) : Q :=
  inject_Z (if decide (d = 0) then 1
            else if decide (r ≤ Z.of_nat d)%Z then -1
            else if decide (r = Z.of_nat d + 1)%Z then Z.of_nat d
            else 0).

(** Codes are dense: the [i]-th learned value has code [i + 1]. *)
Definition dense (m : mapping) : Prop :=
  NoDup m.*1 ∧ m.*2 = (λ i, Z.of_nat (S i)) <$> seq 0 (length m).

(** The rank (from 1) of a code among the distinct codes of a column. *)
Definition rank_in (codes : list Z) (z : Z) : Z :=
  Z.of_nat (S (level_index z (levels codes))).

(** The column [l] is present in [X] and every column labelled [l] is [v0]. *)
Definition holds (X : frame) (l : string) (v0 : series) : Prop :=
  l ∈ columns X ∧ ∀ v, v ∈ select X l → v = v0.

(** [s] is the instance left by a [fit] on the table [F] that returned. *)
Definition fitted_by (F : frame) (s : HelmertEncoder) : Prop :=
  ∃ w0 r0 w1, heap w0 !! r0 = Some F ∧ fit r0 w0 = (inr (), w1) ∧ self w1 = s.

(** The passthrough columns of an output: the columns of the input that
    are not selected, under their new labels. *)
Definition passthrough (cs : list string) (X : frame) : frame :=
  (λ c, (prefixed c.1, c.2)) <$> filter (λ c, c.1 ∉ cs) X.

(** [enc.fit(F)] then [enc.transform(X)] on a store holding just the two
    tables; the labels (when a table is returned) and the rows of the
    output. *)
Definition fit_transform (enc : HelmertEncoder) (F X : frame)
  : error + (option (list string) * list (list cell)) :=
  match fit 0 {| self := enc; heap := [F; X] |} with
  | (inl e, _) => inl e
  | (inr _, w1) =>
      match transform 1 w1 with
      | (inl e, _) => inl e
      | (inr (NDArray rows), _) => inr (None, rows)
      | (inr (DataFrame r), w2) =>
          match heap w2 !! r with
          | Some out => inr (Some (columns out), values out)
          | None => inl (TypeError "not a DataFrame")
          end
      end
  end.

(** The contrast value as the specification words it: 1 in the intercept
    position; in contrast column [c], [-1/(c+1)] on the rows [r <= c],
    [c/(c+1)] on the row [r = c + 1] and 0 below. *)
Definition spec_contrast (r : Z) (c : nat) : Q :=
  if decide (c = 0) then 1
  else if decide (r ≤ Z.of_nat c)%Z then (-1 # Pos.of_nat (S c))
  else if decide (r = Z.of_nat c + 1)%Z then (Z.of_nat c # Pos.of_nat (S c))
  else 0.

(** A row of cells read as numbers. *)
Definition cell_is (c : cell) (q : Q) : bool :=
  match c with
  | Float x => Qeq_bool x q
  | Int z => Qeq_bool (inject_Z z) q
  | _ => false
  end.

Definition row_is (row : list cell) (qs : list Q) : bool :=
  bool_decide (length row = length qs)
  && forallb (λ p, cell_is p.1 p.2) (zip row qs).

(** ** Example tables *)

Definition colours (names : list string) : frame := [("color", Str <$> names)].

Definition rgb : frame := colours ["red"; "green"; "blue"].
Definition rgrb : frame := colours ["red"; "green"; "red"; "blue"].
Definition abc : frame := colours ["a"; "b"; "c"].

(** The encoder with detected columns, no pruning, tables returned. *)
Definition plain : HelmertEncoder := init 0 None false true.
(** The encoder on the column ["color"], with pruning. *)
Definition pruning : HelmertEncoder := init 0 (Some ["color"]) true true.

(** The store holding the training table [F] at 0 and the table [X] at 1,
    before and after [fit] on [F]. *)
Definition before_fit (enc : HelmertEncoder) (F X : frame) : world :=
  {| self := enc; heap := [F; X] |}.
Definition after_fit (enc : HelmertEncoder) (F X : frame) : world :=
  (fit 0 (before_fit enc F X)).2.
Definition after_transform (enc : HelmertEncoder) (F X : frame) : world :=
  (transform 1 (after_fit enc F X)).2.

(** * Lemmas *)

(** Closed goals: a decidable proposition, an equation between closed
    terms. *)
Ltac decided := apply (bool_decide_unpack _); vm_compute; exact I.
Ltac computed := vm_compute; reflexivity.

(** ** The library models on small inputs *)

(** The design rows patsy documents for four levels. *)
Example design_four_levels :
  design [1; 2; 3; 4]%Z
  = [[Float 1; Float (-1); Float (-1); Float (-1)];
     [Float 1; Float 1; Float (-1); Float (-1)];
     [Float 1; Float 0; Float 2; Float (-1)];
     [Float 1; Float 0; Float 0; Float 3]].
Proof. computed. Qed.

(** Levels are the sorted distinct values of the data, whatever their
    order and number of occurrences. *)
Example levels_sorted_distinct : levels [3; 1; 3; 0; 1]%Z = [0; 1; 3]%Z.
Proof. computed. Qed.

(** Codes follow first occurrence; a value outside the mapping is coded 0. *)
Example learn_first_occurrence :
  learn (Str <$> ["red"; "green"; "red"; "blue"])
  = [(Str "red", 1); (Str "green", 2); (Str "blue", 3)]%Z.
Proof. computed. Qed.

Example encode_unseen :
  encode (learn (Str <$> ["red"; "green"; "red"; "blue"]))
    (Str <$> ["blue"; "pink"])
  = [Int 3; Int 0].
Proof. computed. Qed.

(** The sample variance: undefined on one value, 1/2 on 0 and 1. *)
Example var_single : var [Int 5] = inr None.
Proof. computed. Qed.

Example var_pair :
  ∃ q, var [Int 0; Int 1] = inr (Some q) ∧ (q == 1 # 2)%Q.
Proof. eexists. split; computed. Qed.

(** An integer beyond 2^53 is rounded to the nearest double, ties to
    even; two integers that round to the same double have no variance
    between them. *)
Example float64_of_int_rounds :
  float64_of_int 12345 = inject_Z 12345
  ∧ float64_of_int (2 ^ 53 + 1) = inject_Z (2 ^ 53)
  ∧ float64_of_int (2 ^ 53 + 3) = inject_Z (2 ^ 53 + 4)
  ∧ float64_of_int (2 ^ 62 + 2) = inject_Z (2 ^ 62)
  ∧ float64_of_int (- (2 ^ 60 + 129)) = inject_Z (-1152921504606847232).
Proof.
  split; [computed|]. split; [computed|]. split; [computed|].
  split; computed.
Qed.

Example var_rounded_integers :
  ∃ q, var [Int (2 ^ 62); Int (2 ^ 62 + 2)] = inr (Some q) ∧ (q == 0)%Q.
Proof. eexists. split; computed. Qed.

(** [10e-5] lies a little above 1/10000. *)
Example threshold_above :
  (1 # 10000 < threshold)%Q ∧ (threshold < 100001 # 1000000000)%Q.
Proof. split; by vm_compute. Qed.

(** [.values] has one [dtype]: integers next to floats become floats,
    next to strings every cell is kept. *)
Example values_common_dtype :
  values [("a", [Float 1; Float 2]); ("n", [Int 5; Int 6])]
  = [[Float 1; Float 5]; [Float 2; Float 6]]
  ∧ values [("s", [Str "x"; Str "y"]); ("n", [Int 5; Int 6])]
    = [[Str "x"; Int 5]; [Str "y"; Int 6]]
  ∧ values [("m", [Int 1; Int 2]); ("n", [Int 5; Int 6])]
    = [[Int 1; Int 5]; [Int 2; Int 6]].
Proof. split; [computed|]. split; computed. Qed.

(** A label reads as a name in a formula when it is made of letters,
    digits and underscores; on any other label, and on a column without
    cells, [dmatrix] raises. *)
Example dmatrix_labels_and_rows :
  python_name "col_a_b1" = true
  ∧ python_name "col_a-b" = false
  ∧ dmatrix "col_a_b1" [("col_a_b1", [Int 2; Int 1])]
    = inr [[Float 1; Float 1]; [Float 1; Float (-1)]]
  ∧ dmatrix "col_a-b" [("col_a-b", [Int 2; Int 1])]
    = inl (PatsyError "cannot evaluate factor col_a-b")
  ∧ dmatrix "col_a" [("col_a", [])]
    = inl (ValueError "negative dimensions are not allowed").
Proof.
  split; [computed|]. split; [computed|]. split; [computed|].
  split; computed.
Qed.

(** The values of the code are the values the specification words,
    multiplied by [d + 1] in contrast position [d]. *)
Lemma contrast_value_scaled r d :
  d ≠ 0 →
  (contrast_value r d == spec_contrast r d * inject_Z (Z.of_nat (S d)))%Q.
Proof.
  intros Hd. unfold contrast_value, spec_contrast.
  rewrite !decide_False by done.
  assert (Hp : Z.pos (Pos.of_nat (S d)) = Z.of_nat (S d)).
  { rewrite <- positive_nat_Z, Nat2Pos.id by done. done. }
  repeat case_decide; unfold Qeq, Qmult, inject_Z; cbn [Qnum Qden];
    rewrite ?Hp; lia.
Qed.

(** ** Running the store operations *)

Lemma bind_run {A B} (m : M A) (k : A → M B) w :
  bind m k w = match m w with
               | (inl e, w') => (inl e, w')
               | (inr a, w') => k a w'
               end.
Proof. reflexivity. Qed.

Lemma bind_ret_run {A B} (a : A) (k : A → M B) w : bind (ret a) k w = k a w.
Proof. reflexivity. Qed.

Lemma bind_raise_run {A B} (e : error) (k : A → M B) w :
  bind (raise e) k w = (inl e, w).
Proof. reflexivity. Qed.

Lemma df_read_run r w X :
  heap w !! r = Some X → df_read r w = (inr X, w).
Proof. intros H. unfold df_read. by rewrite H. Qed.

Lemma world_eta w : {| self := self w; heap := heap w |} = w.
Proof. by destruct w. Qed.

Lemma df_setitem_run r w X label v :
  heap w !! r = Some X →
  df_setitem r label v w
  = (inr (), {| self := self w; heap := <[r := setitem X label v]> (heap w) |}).
Proof.
  intros H. unfold df_setitem. rewrite bind_run, (df_read_run _ _ _ H).
  reflexivity.
Qed.

Lemma write_block_run col mod_ r digs : ∀ w X bin_cols,
  heap w !! r = Some X →
  foldM (λ bin_cols dig,
      let* _ := df_setitem r (expanded col dig)
                  ((λ row, default NaN (row !! dig)) <$> mod_) in
      ret (bin_cols ++ [expanded col dig])) digs bin_cols w
  = (inr (write_block col mod_ digs X bin_cols).2,
     {| self := self w;
        heap := <[r := (write_block col mod_ digs X bin_cols).1]> (heap w) |}).
Proof.
  induction digs as [|dig digs IH]; intros w X bin_cols H; simpl.
  - unfold ret. rewrite list_insert_id by done. by rewrite world_eta.
  - rewrite bind_run, bind_run, (df_setitem_run _ _ _ _ _ H). simpl.
    unfold ret at 1.
    rewrite (IH _ (setitem X (expanded col dig) (matrix_column dig mod_))).
    + simpl. by rewrite list_insert_insert_eq.
    + simpl. apply list_lookup_insert_eq. by eapply lookup_lt_Some.
Qed.

Lemma df_dmatrix_run col r w X :
  heap w !! r = Some X →
  df_dmatrix col r w
  = (match dmatrix col X with inl e => inl e | inr m => inr m end, w).
Proof.
  intros H. unfold df_dmatrix. rewrite bind_run, (df_read_run _ _ _ H).
  by destruct (dmatrix col X).
Qed.

Lemma expand_loop_run r cols : ∀ w X bin_cols,
  heap w !! r = Some X →
  foldM (λ bin_cols col,
      let* mod_ := df_dmatrix col r in
      let* row0 := match mod_ with
                   | [] => raise (IndexError "index 0 is out of bounds")
                   | row :: _ => ret row
                   end in
      foldM (λ bin_cols dig,
          let* _ := df_setitem r (expanded col dig)
                      ((λ row, default NaN (row !! dig)) <$> mod_) in
          ret (bin_cols ++ [expanded col dig]))
        (seq 0 (length row0)) bin_cols) cols bin_cols w
  = ((expand_loop cols X bin_cols).1,
     {| self := self w;
        heap := <[r := (expand_loop cols X bin_cols).2]> (heap w) |}).
Proof.
  induction cols as [|col cols IH]; intros w X bin_cols H.
  - simpl. unfold ret. rewrite list_insert_id by done. by rewrite world_eta.
  - cbn [foldM expand_loop].
    rewrite bind_run, bind_run, (df_dmatrix_run _ _ _ _ H).
    destruct (dmatrix col X) as [e|[|row0 mod_]].
    + cbn [fst snd]. rewrite list_insert_id by done. by rewrite world_eta.
    + rewrite bind_raise_run. cbn [fst snd].
      rewrite list_insert_id by done. by rewrite world_eta.
    + rewrite bind_ret_run.
      rewrite (write_block_run _ _ _ _ _ X) by done.
      destruct (write_block col (row0 :: mod_) (seq 0 (length row0)) X bin_cols)
        as [X' bin_cols'] eqn:E. cbn [fst snd].
      rewrite (IH _ X'); cbn [self heap].
      * by rewrite list_insert_insert_eq.
      * apply list_lookup_insert_eq. by eapply lookup_lt_Some.
Qed.

(** [helmert_coding] works on a copy: it appends the relabelled and widened
    copy and, when no step fails, the assembled table to the store. *)
Lemma helmert_coding_run r cs w X :
  heap w !! r = Some X →
  helmert_coding r (Some cs) w
  = match expand_loop (prefixed <$> cs) (relabel X) [] with
    | (inl e, X2) =>
        (inl e, {| self := self w; heap := heap w ++ [X2] |})
    | (inr bin_cols, X2) =>
        match reindex X2 (bin_cols ++
                filter (λ col, col ∉ prefixed <$> cs) (columns (relabel X)))
        with
        | inl e => (inl e, {| self := self w; heap := heap w ++ [X2] |})
        | inr Y =>
            (inr (S (length (heap w))),
             {| self := self w; heap := heap w ++ [X2; Y] |})
        end
    end.
Proof.
  intros H. unfold helmert_coding.
  assert (Hn : ∀ Y, (heap w ++ [Y]) !! length (heap w) = Some Y).
  { intros Y. by rewrite lookup_app_r, Nat.sub_diag by lia. }
  assert (Hi : ∀ Y Z, <[length (heap w) := Z]> (heap w ++ [Y]) = heap w ++ [Z]).
  { intros Y Z. rewrite insert_app_r_alt, Nat.sub_diag by lia. done. }
  rewrite bind_run. unfold df_copy at 1. rewrite bind_run, (df_read_run _ _ _ H).
  unfold df_alloc at 1. cbn [self heap].
  rewrite bind_run. unfold df_columns at 1.
  rewrite bind_run, (df_read_run (length (heap w)) _ X) by apply Hn.
  unfold ret at 1.
  rewrite bind_run. unfold df_set_columns at 1.
  rewrite bind_run, (df_read_run (length (heap w)) _ X) by apply Hn.
  unfold df_write at 1. cbn [self heap]. rewrite Hi. fold (relabel X).
  rewrite bind_run. unfold df_columns at 1.
  rewrite bind_run, (df_read_run (length (heap w)) _ (relabel X)) by apply Hn.
  unfold ret at 1.
  rewrite bind_run.
  rewrite (expand_loop_run _ _ _ (relabel X)) by apply Hn.
  cbn [self heap]. rewrite Hi.
  destruct (expand_loop (prefixed <$> cs) (relabel X) []) as [[e|bin_cols] X2];
    cbn [fst snd]; [done|].
  unfold df_reindex. rewrite bind_run.
  rewrite (df_read_run (length (heap w)) _ X2) by apply Hn.
  rewrite bind_run. destruct (reindex X2 _) as [e|Y]; [done|].
  cbn [lift]. unfold ret at 1.
  unfold df_alloc. cbn [self heap]. rewrite length_app. cbn [length].
  rewrite Nat.add_1_r. by rewrite <- app_assoc.
Qed.

Lemma df_drop_inplace_run r l w X :
  heap w !! r = Some X →
  df_drop_inplace r l w
  = match drop X l with
    | inl e => (inl e, w)
    | inr X' => (inr (), {| self := self w; heap := <[r := X']> (heap w) |})
    end.
Proof.
  intros H. unfold df_drop_inplace.
  rewrite bind_run, (df_read_run _ _ _ H), bind_run.
  by destruct (drop X l).
Qed.

Lemma drop_loop_run r ds : ∀ w X,
  heap w !! r = Some X →
  ∃ X', foldM (λ _ col, df_drop_inplace r col) ds () w
        = (match drop_all ds X with inl e => inl e | inr _ => inr () end,
           {| self := self w; heap := <[r := X']> (heap w) |})
        ∧ ∀ Y, drop_all ds X = inr Y → X' = Y.
Proof.
  induction ds as [|d ds IH]; intros w X H.
  - exists X. cbn [foldM drop_all]. unfold ret.
    rewrite list_insert_id by done. rewrite world_eta.
    split; [done|]. by intros Y [= ->].
  - cbn [foldM drop_all]. rewrite bind_run, (df_drop_inplace_run _ _ _ _ H).
    destruct (drop X d) as [e|X1].
    + exists X. rewrite list_insert_id by done. rewrite world_eta.
      split; [done|]. intros Y [=].
    + destruct (IH {| self := self w; heap := <[r := X1]> (heap w) |} X1)
        as (X' & -> & HX').
      { cbn [heap]. apply list_lookup_insert_eq. by eapply lookup_lt_Some. }
      exists X'. cbn [self heap]. rewrite list_insert_insert_eq. done.
Qed.

(** [transform] never assigns to the instance, only appends tables to the
    store, and computes [transform_frame] of its input. *)
Lemma transform_run r w X res w' :
  heap w !! r = Some X →
  transform r w = (res, w') →
  ∃ g, w' = {| self := self w; heap := heap w ++ g |} ∧
    match res with
    | inl e => transform_frame (self w) X = inl e
    | inr res =>
        ∃ out, transform_frame (self w) X = inr out ∧
               yields w' res out ∧
               match res with
               | DataFrame r' => r' = r ∨ length (heap w) ≤ r'
               | NDArray _ => return_df (self w) = false
               end
    end.
Proof.
  intros H E. unfold transform, transform_frame in *.
  rewrite bind_run in E. unfold get_self at 1 in E. cbv beta iota in E.
  assert (Hw : w = {| self := self w; heap := heap w ++ [] |}).
  { by rewrite app_nil_r, world_eta. }
  destruct (_dim (self w)) as [dim|].
  2:{ injection E as <- <-. by exists []. }
  unfold convert_input in E.
  rewrite bind_ret_run, bind_run, (df_read_run _ _ _ H) in E.
  destruct (decide (ncols X ≠ dim)) as [Hd|Hd].
  { injection E as <- <-. by exists []. }
  destruct (cols (self w)) as [[|c cs]|].
  1,3: injection E as <- <-; exists []; split; [done|];
       exists X; cbn [yields]; auto.
  rewrite bind_run in E.
  destruct (ordinal_encoder (self w)) as [oe|].
  2:{ injection E as <- <-. by exists []. }
  unfold ordinal_transform in E.
  rewrite bind_run, (df_read_run _ _ _ H), bind_run in E.
  destruct (ordinal_apply (oe_mapping oe) X) as [e|X1].
  { injection E as <- <-. by exists []. }
  cbn [lift] in E. unfold ret at 1 in E. unfold df_alloc at 1 in E.
  rewrite bind_run in E.
  rewrite (helmert_coding_run _ _ _ X1) in E.
  2:{ cbn [heap]. by rewrite lookup_app_r, Nat.sub_diag by lia. }
  unfold helmert_frame. cbn [self heap] in E.
  destruct (expand_loop (prefixed <$> c :: cs) (relabel X1) [])
    as [[e|bin_cols] X2].
  { injection E as <- <-. exists [X1; X2]. by rewrite <- app_assoc. }
  destruct (reindex X2 _) as [e|Y].
  { injection E as <- <-. exists [X1; X2]. by rewrite <- app_assoc. }
  set (h := (heap w ++ [X1]) ++ [X2; Y]) in *.
  assert (HY : h !! S (length (heap w ++ [X1])) = Some Y).
  { subst h. rewrite lookup_app_r by lia.
    by replace (S (length (heap w ++ [X1])) - length (heap w ++ [X1])) with 1
      by lia. }
  assert (Hh : ∀ Z, <[S (length (heap w ++ [X1])) := Z]> h
                    = heap w ++ [X1; X2; Z]).
  { intros Z. subst h. rewrite insert_app_r_alt by lia.
    replace (S (length (heap w ++ [X1])) - length (heap w ++ [X1])) with 1
      by lia. by rewrite <- app_assoc. }
  assert (Hl : ∀ Z, (heap w ++ [X1; X2; Z]) !! S (length (heap w ++ [X1]))
                    = Some Z).
  { intros Z. rewrite lookup_app_r by (rewrite length_app; lia).
    rewrite length_app. cbn [length].
    by replace (S (length (heap w) + 1) - length (heap w)) with 2 by lia. }
  rewrite bind_run in E. unfold pruned.
  destruct (drop_invariant (self w)).
  - destruct (drop_loop_run (S (length (heap w ++ [X1]))) (drop_cols (self w))
                {| self := self w; heap := h |} Y HY) as (Y' & EY & HY').
    rewrite EY in E. cbn [self heap] in E. rewrite Hh in E.
    destruct (drop_all (drop_cols (self w)) Y) as [e|Y2].
    { injection E as <- <-. by exists [X1; X2; Y']. }
    rewrite (HY' Y2 eq_refl) in E.
    destruct (return_df (self w)).
    + injection E as <- <-. exists [X1; X2; Y2]. split; [done|].
      exists Y2. split; [done|]. split.
      * cbn [yields heap]. apply Hl.
      * right. rewrite length_app. lia.
    + rewrite bind_run, (df_read_run _ _ Y2) in E by apply Hl.
      injection E as <- <-.
      exists [X1; X2; Y2]. split; [done|]. exists Y2. done.
  - unfold ret at 1 in E. cbv beta iota in E. cbn [drop_all].
    assert (Hh' : h = heap w ++ [X1; X2; Y]) by (subst h; by rewrite <- app_assoc).
    destruct (return_df (self w)).
    + injection E as <- <-. exists [X1; X2; Y]. rewrite <- Hh'. split; [done|].
      exists Y. split; [done|]. split; [exact HY|].
      right. rewrite length_app. lia.
    + rewrite bind_run, (df_read_run _ _ Y) in E by exact HY.
      injection E as <- <-.
      exists [X1; X2; Y]. rewrite <- Hh'. split; [done|]. exists Y. done.
Qed.

(** ** Running [fit] *)

Lemma invariant_column_run r w X x :
  heap w !! r = Some X →
  invariant_column r x w
  = (match getitem X x with
     | inl e => inl e
     | inr v =>
         match var v with
         | inl e => inl e
         | inr s2 => inr match s2 with
                         | Some q => Qle_bool q threshold
                         | None => false
                         end
         end
     end, w).
Proof.
  intros H. unfold invariant_column, df_getitem.
  rewrite !bind_run, (df_read_run _ _ _ H).
  destruct (getitem X x) as [e|v]; [done|]. cbn [lift]. unfold ret at 1.
  rewrite bind_run. by destruct (var v).
Qed.

Lemma invariant_labels_run r w X labels :
  heap w !! r = Some X →
  filterM (invariant_column r) labels w = (invariant_labels X labels, w).
Proof.
  intros H. induction labels as [|x labels IH]; [done|].
  cbn [filterM invariant_labels].
  rewrite bind_run, (invariant_column_run _ _ _ _ H).
  destruct (getitem X x) as [e|v]; [done|].
  destruct (var v) as [e|s2]; [done|].
  rewrite bind_run, IH. by destruct (invariant_labels X labels).
Qed.

Lemma fit_run r w F res w' :
  heap w !! r = Some F →
  fit r w = (res, w') →
  ∃ g, heap w' = heap w ++ g ∧
    match res with
    | inl e =>
        cols (self w') = Some (resolved_cols (self w) F)
        ∧ _dim (self w') = Some (ncols F)
    | inr _ =>
        ∃ ms, ordinal_learn (resolved_cols (self w) F) F = inr ms ∧
          let s2 := set_ordinal_encoder
                      (Some {| oe_cols := resolved_cols (self w) F;
                               oe_mapping := ms |})
                      (resolved (self w) F) in
          if drop_invariant (self w)
          then ∃ X_temp,
                 transform_frame (set_drop_cols [] s2) F = inr X_temp
                 ∧ ∃ dc, invariant_labels X_temp (columns X_temp) = inr dc
                         ∧ self w' = set_drop_cols dc s2
          else self w' = s2
    end.
Proof.
  intros H E. unfold fit in E. unfold convert_input in E.
  rewrite bind_ret_run, bind_run, (df_read_run _ _ _ H) in E.
  rewrite bind_run in E. unfold get_self at 1 in E. cbv beta iota in E.
  rewrite bind_run in E. unfold put_self at 1 in E.
  rewrite bind_run in E. unfold get_self at 1 in E. cbv beta iota in E.
  cbn [self heap] in E. rewrite bind_run in E.
  set (s1 := resolved (self w) F).
  assert (E1 : (match cols (set_dim (Some (ncols F)) (self w)) with
                | Some _ => ret ()
                | None => put_self (set_cols (Some (get_obj_cols F))
                            (set_dim (Some (ncols F)) (self w)))
                end) {| self := set_dim (Some (ncols F)) (self w); heap := heap w |}
               = (inr (), {| self := s1; heap := heap w |})).
  { subst s1. unfold resolved, resolved_cols. cbn [cols set_dim].
    destruct (self w) as [? ? ? ? [cs|] ? ?]; reflexivity. }
  rewrite E1 in E. clear E1.
  rewrite bind_run in E. unfold get_self at 1 in E. cbv beta iota in E.
  cbn [self] in E.
  assert (Hc : cols s1 = Some (resolved_cols (self w) F)) by done.
  assert (Hd : _dim s1 = Some (ncols F)) by done.
  rewrite Hc in E. cbv [default from_option id] in E.
  rewrite bind_run in E. unfold put_self at 1 in E. cbn [self heap] in E.
  rewrite bind_run in E. unfold ordinal_fit in E.
  rewrite bind_run, (df_read_run _ _ F), bind_run in E by done.
  destruct (ordinal_learn (resolved_cols (self w) F) F) as [e|ms].
  { cbn [lift] in E. unfold raise at 1 in E. cbv beta iota in E.
    injection E as <- <-.
    exists []. by rewrite app_nil_r. }
  cbn [lift] in E. unfold ret at 1 in E. unfold ret at 1 in E.
  cbv beta iota in E.
  rewrite bind_run in E. unfold get_self at 1 in E. cbv beta iota in E.
  rewrite bind_run in E. unfold put_self at 1 in E.
  rewrite bind_run in E. unfold get_self at 1 in E. cbv beta iota in E.
  cbn [self heap] in E.
  change (set_ordinal_encoder ?a (set_ordinal_encoder None s1))
    with (set_ordinal_encoder a s1) in E.
  set (s2 := set_ordinal_encoder _ s1) in *.
  change (drop_invariant s2) with (drop_invariant (self w)) in E.
  destruct (drop_invariant (self w)) eqn:Hdi.
  2:{ injection E as <- <-. exists []. rewrite app_nil_r. split; [done|].
      by exists ms. }
  rewrite bind_run in E. unfold put_self at 1 in E. cbn [self heap] in E.
  rewrite bind_run in E.
  destruct (transform r {| self := set_drop_cols [] s2; heap := heap w |})
    as [rt wt] eqn:Et.
  destruct (transform_run r {| self := set_drop_cols [] s2; heap := heap w |}
              F rt wt H Et) as (g & -> & Hrt).
  cbn [self heap] in *.
  destruct rt as [e|[r'|rows]].
  { injection E as <- <-. by exists g. }
  2:{ injection E as <- <-. by exists g. }
  destruct Hrt as (X_temp & HX & Hy & _). cbn [yields heap] in Hy.
  unfold df_columns in E.
  rewrite !bind_run, (df_read_run _ _ X_temp) in E by exact Hy.
  unfold ret at 1 in E. cbv beta iota in E.
  rewrite bind_run, (invariant_labels_run _ _ X_temp) in E by exact Hy.
  destruct (invariant_labels X_temp (columns X_temp)) as [e|dc] eqn:Edc.
  { injection E as <- <-. by exists g. }
  rewrite bind_run in E. unfold get_self at 1 in E. cbv beta iota in E.
  unfold put_self in E. cbn [self heap] in E.
  injection E as <- <-. exists g. split; [done|].
  exists ms. split; [done|].
  exists X_temp. split; [done|]. by exists dc.
Qed.

Lemma fit_cols r w F res w' :
  heap w !! r = Some F →
  fit r w = (res, w') →
  cols (self w') = Some (resolved_cols (self w) F)
  ∧ _dim (self w') = Some (ncols F).
Proof.
  intros H E. destruct (fit_run _ _ _ _ _ H E) as (g & _ & Hres).
  destruct res as [e|[]]; [done|].
  destruct Hres as (ms & _ & Hs).
  destruct (drop_invariant (self w)).
  - destruct Hs as (X_temp & _ & dc & _ & ->). done.
  - by rewrite Hs.
Qed.

Lemma transform_guard_run w r X d :
  _dim (self w) = Some d →
  heap w !! r = Some X →
  ncols X ≠ d →
  transform r w = (inl (bad_dimension (ncols X) d), w).
Proof.
  intros Hd H Hn. unfold transform.
  rewrite bind_run. unfold get_self at 1. cbv beta iota. rewrite Hd.
  unfold convert_input. rewrite bind_ret_run, bind_run, (df_read_run _ _ _ H).
  by destruct (decide (ncols X ≠ d)).
Qed.

Lemma transform_unfitted_run w r :
  _dim (self w) = None → transform r w = (inl not_fitted, w).
Proof.
  intros Hd. unfold transform. rewrite bind_run.
  unfold get_self at 1. cbv beta iota. by rewrite Hd.
Qed.

(** ** Which errors the later steps of [transform] can raise *)

Lemma getitem_late X l e : getitem X l = inl e → late_error e.
Proof.
  unfold getitem. destruct (select X l) as [|? [|]]; intros [= <-]; by split.
Qed.

Lemma ordinal_apply_late ms : ∀ X e, ordinal_apply ms X = inl e → late_error e.
Proof.
  induction ms as [|[c m] ms IH]; intros X e; [done|]. cbn [ordinal_apply].
  destruct (getitem X c) as [e'|v] eqn:E.
  - intros [= <-]. by eapply getitem_late.
  - apply IH.
Qed.

Lemma dmatrix_late col X e : dmatrix col X = inl e → late_error e.
Proof.
  unfold dmatrix. destruct (python_name col); [|intros [= <-]; by split].
  destruct (select X col) as [|v [|]]; try (intros [= <-]; by split).
  destruct (int_codes v) as [[|]|]; intros [= <-]; by split.
Qed.

Lemma reindex_late X labels e : reindex X labels = inl e → late_error e.
Proof.
  unfold reindex. repeat case_decide; intros [= <-]; by split.
Qed.

(** A reindexed table carries the listed labels, and it is the table of the
    listed columns when the labels of the source are distinct. *)
Lemma columns_reindex_inr X labels Y :
  reindex X labels = inr Y → columns Y = labels.
Proof.
  unfold reindex. repeat case_decide; intros [= <-]; [done|].
  unfold reindex_columns, columns. rewrite <- list_fmap_compose.
  by rewrite list_fmap_id.
Qed.



Lemma expand_loop_late cs : ∀ X bin e,
  (expand_loop cs X bin).1 = inl e → late_error e.
Proof.
  induction cs as [|c cs IH]; intros X bin e; [done|]. cbn [expand_loop].
  destruct (dmatrix c X) as [e'|[|row0 mod_]] eqn:E.
  - intros [= <-]. by eapply dmatrix_late.
  - intros [= <-]. by split.
  - destruct (write_block _ _ _ _ _) as [X' bin']. apply IH.
Qed.

Lemma drop_all_late ds : ∀ X e, drop_all ds X = inl e → late_error e.
Proof.
  induction ds as [|d ds IH]; intros X e; [done|]. cbn [drop_all].
  unfold drop. destruct (decide (d ∈ columns X)).
  - apply IH.
  - intros [= <-]. by split.
Qed.

Lemma transform_frame_error s X e :
  transform_frame s X = inl e →
  (e = not_fitted ∧ _dim s = None)
  ∨ (∃ d, e = bad_dimension (ncols X) d ∧ _dim s = Some d ∧ ncols X ≠ d)
  ∨ (late_error e ∧ _dim s = Some (ncols X)).
Proof.
  unfold transform_frame. destruct (_dim s) as [d|].
  2:{ intros [= <-]. by left. }
  destruct (decide (ncols X ≠ d)) as [Hd|Hd].
  { intros [= <-]. right; left. by exists d. }
  assert (d = ncols X) as -> by (destruct (decide (ncols X = d)); done).
  intros H. right; right. split; [|done].
  destruct (cols s) as [[|c cs]|]; [done| |done].
  destruct (ordinal_encoder s) as [oe|].
  2:{ injection H as <-. by split. }
  destruct (ordinal_apply (oe_mapping oe) X) as [e'|X1] eqn:E1.
  { injection H as <-. by eapply ordinal_apply_late. }
  unfold helmert_frame in H.
  destruct (expand_loop _ _ _) as [[e'|bin] X2] eqn:E2.
  { injection H as <-. eapply expand_loop_late. by rewrite E2. }
  destruct (reindex X2 _) as [e'|Y] eqn:E3.
  { injection H as <-. by eapply reindex_late. }
  by eapply drop_all_late.
Qed.

(** ** Labels *)

Lemma string_app_cons a s t : String a s +:+ t = String a (s +:+ t).
Proof. reflexivity. Qed.

Lemma string_app_nil s : EmptyString +:+ s = s.
Proof. reflexivity. Qed.

Lemma string_app_assoc s t u : (s +:+ t) +:+ u = s +:+ (t +:+ u).
Proof. induction s as [|a s IH]; [done|]. rewrite !string_app_cons. by f_equal. Qed.

Lemma strip_prefix_app p s : strip_prefix p (p +:+ s) = Some s.
Proof.
  induction p as [|a p IH]; [done|]. rewrite string_app_cons. cbn [strip_prefix].
  by rewrite decide_True.
Qed.

Lemma pretty_N_go_digits x : ∀ s,
  all_digits s = true → all_digits (pretty_N_go x s) = true.
Proof.
  induction (N.lt_wf_0 x) as [x _ IH]; intros s Hs.
  destruct (decide (x = 0%N)) as [->|Hx]; [by rewrite pretty_N_go_0|].
  rewrite pretty_N_go_step by lia. apply IH.
  - apply N.div_lt; lia.
  - cbn [all_digits]. rewrite Hs, andb_true_r.
    unfold pretty_N_char. by repeat case_match.
Qed.

Lemma pretty_nat_digits (d : nat) : all_digits (pretty d) = true.
Proof.
  unfold pretty, pretty_nat, pretty, pretty_N.
  case_decide; [done|]. by apply pretty_N_go_digits.
Qed.

Lemma all_digits_underscore s t : all_digits (s +:+ String "_" t) = false.
Proof.
  induction s as [|a s IH]; [done|]. rewrite string_app_cons.
  cbn [all_digits]. by rewrite IH, andb_false_r.
Qed.

Lemma underscore_split c : ∀ c' p p',
  all_digits p = true → all_digits p' = true →
  c +:+ "_" +:+ p = c' +:+ "_" +:+ p' → c = c' ∧ p = p'.
Proof.
  induction c as [|a c IH]; intros [|a' c'] p p' Hp Hp' E;
    repeat (rewrite string_app_nil in E || rewrite string_app_cons in E).
  - by injection E as ->.
  - injection E as _ E. rewrite E, all_digits_underscore in Hp. done.
  - injection E as _ E. rewrite <- E, all_digits_underscore in Hp'. done.
  - injection E as -> E.
    destruct (IH _ _ _ Hp Hp' E) as [-> ->]. done.
Qed.

Lemma expanded_inj c d c' d' :
  expanded c d = expanded c' d' → c = c' ∧ d = d'.
Proof.
  unfold expanded. intros E.
  destruct (underscore_split _ _ _ _ (pretty_nat_digits d)
              (pretty_nat_digits d') E) as [-> Hp].
  split; [done|]. by apply (inj pretty).
Qed.

Lemma prefixed_inj x y : prefixed x = prefixed y → x = y.
Proof. unfold prefixed. apply (inj (String.app "col_")). Qed.

#[global] Instance prefixed_Inj : Inj (=) (=) prefixed.
Proof. intros x y. apply prefixed_inj. Qed.

Lemma prefixed_expanded c d : prefixed (expanded c d) = expanded (prefixed c) d.
Proof. unfold prefixed, expanded. by rewrite string_app_assoc. Qed.

Lemma prefixed_neq x : prefixed x ≠ x.
Proof.
  intros E. apply (f_equal String.length) in E.
  change (S (S (S (S (String.length x)))) = String.length x) in E. lia.
Qed.

Lemma expansion_label_expanded c d : expansion_label c (expanded c d) = true.
Proof.
  unfold expansion_label, expanded. rewrite <- string_app_assoc.
  rewrite strip_prefix_app. apply pretty_nat_digits.
Qed.

Lemma no_clash_spec cs X c l d :
  no_clash cs X = true → c ∈ cs → l ∈ columns X → l ≠ expanded c d.
Proof.
  unfold no_clash. rewrite forallb_forall. intros H Hc Hl ->.
  apply list_elem_of_In in Hl. specialize (H _ Hl).
  rewrite forallb_forall in H. apply list_elem_of_In in Hc.
  specialize (H _ Hc). by rewrite expansion_label_expanded in H.
Qed.

(** ** Tables: selecting, assigning, reindexing *)

Lemma select_nil X l : l ∉ columns X → select X l = [].
Proof.
  unfold select, columns. induction X as [|[l' v] X IH]; [done|].
  rewrite fmap_cons, not_elem_of_cons. cbn [fst]. intros [Hl HX].
  rewrite filter_cons_False; [by apply IH|]. cbn. congruence.
Qed.

Lemma select_app X Y l : select (X ++ Y) l = select X l ++ select Y l.
Proof. unfold select. by rewrite filter_app, fmap_app. Qed.

Lemma select_elem X l v : v ∈ select X l ↔ (l, v) ∈ X.
Proof.
  unfold select. rewrite list_elem_of_fmap. split.
  - intros ([l' v'] & -> & H). apply list_elem_of_filter in H as [E H].
    cbn in E. by subst.
  - intros H. exists (l, v). split; [done|]. by apply list_elem_of_filter.
Qed.

Lemma select_unique X l v : NoDup (columns X) → (l, v) ∈ X → select X l = [v].
Proof.
  unfold columns. induction X as [|[l' v'] X IH]; intros Hnd Hin.
  { by apply elem_of_nil in Hin. }
  rewrite fmap_cons in Hnd. apply NoDup_cons in Hnd as [Hl Hnd]. cbn [fst] in Hl.
  apply elem_of_cons in Hin as [[= <- <-]|Hin].
  - change (select ((l, v) :: X) l) with (select ([(l, v)] ++ X) l).
    rewrite select_app, (select_nil X l) by done.
    unfold select. by rewrite filter_cons_True by done.
  - change (select ((l', v') :: X) l) with (select ([(l', v')] ++ X) l).
    rewrite select_app, IH by done.
    assert (l ≠ l').
    { intros ->. apply Hl. apply list_elem_of_fmap. by exists (l', v). }
    unfold select. rewrite filter_cons_False; [done|]. cbn. congruence.
Qed.

Lemma select_fmap_label (f : string → string) `{!Inj (=) (=) f} X l :
  select ((λ c, (f c.1, c.2)) <$> X) (f l) = select X l.
Proof.
  unfold select. induction X as [|[l' v] X IH]; [done|].
  rewrite fmap_cons. cbn [fst snd].
  destruct (decide (l' = l)) as [->|Hne].
  - rewrite !filter_cons_True by done. rewrite !fmap_cons. by f_equal.
  - rewrite !filter_cons_False; [done|cbn; congruence|].
    cbn. intros E. by apply (inj f) in E.
Qed.

Lemma relabel_fmap X : relabel X = (λ c, (prefixed c.1, c.2)) <$> X.
Proof.
  unfold relabel, columns. induction X as [|[l v] X IH]; [done|].
  rewrite !fmap_cons. cbn [fst snd zip zip_with]. f_equal. apply IH.
Qed.

Lemma columns_relabel X : columns (relabel X) = prefixed <$> columns X.
Proof.
  rewrite relabel_fmap. unfold columns. rewrite <- !list_fmap_compose.
  by apply list_fmap_ext.
Qed.

Lemma columns_app X Y : columns (X ++ Y) = columns X ++ columns Y.
Proof. unfold columns. by rewrite fmap_app. Qed.

Lemma setitem_new X l v : l ∉ columns X → setitem X l v = X ++ [(l, v)].
Proof. intros H. unfold setitem. by rewrite decide_False. Qed.

Lemma setitem_old X l v :
  l ∈ columns X →
  setitem X l v = (λ c, if decide (c.1 = l) then (l, v) else c) <$> X.
Proof. intros H. unfold setitem. by rewrite decide_True. Qed.

Lemma columns_setitem_old X l v : l ∈ columns X → columns (setitem X l v) = columns X.
Proof.
  intros H. rewrite setitem_old by done. unfold columns.
  rewrite <- list_fmap_compose. apply list_fmap_ext.
  intros i [l' v'] _. cbn. by case_decide.
Qed.

Lemma NoDup_columns_setitem X l v :
  NoDup (columns X) → NoDup (columns (setitem X l v)).
Proof.
  intros H. destruct (decide (l ∈ columns X)) as [Hl|Hl].
  - by rewrite columns_setitem_old.
  - rewrite setitem_new, columns_app by done. apply NoDup_app.
    split; [done|]. split; [|apply NoDup_singleton].
    intros x Hx Hx'. apply list_elem_of_singleton in Hx'. cbn in Hx'. by subst.
Qed.

Lemma columns_reindex X labels : columns (reindex_columns X labels) = labels.
Proof.
  unfold reindex_columns, columns. rewrite <- list_fmap_compose.
  rewrite <- (list_fmap_id labels) at 2. by apply list_fmap_ext.
Qed.

Lemma reindex_app X l1 l2 : reindex_columns X (l1 ++ l2) = reindex_columns X l1 ++ reindex_columns X l2.
Proof. unfold reindex_columns. by rewrite fmap_app. Qed.

Lemma reindex_sub Z B :
  NoDup (columns Z) → (∀ c, c ∈ B → c ∈ Z) → reindex_columns Z (columns B) = B.
Proof.
  intros Hnd. induction B as [|[l v] B IH]; intros Hsub; [done|].
  unfold columns. rewrite fmap_cons. unfold reindex_columns. rewrite fmap_cons.
  cbn [fst]. rewrite (select_unique Z l v) by (try done; apply Hsub; left).
  f_equal. apply IH. intros c Hc. apply Hsub. by right.
Qed.

(** On a table with distinct labels [reindex] returns the listed columns. *)
Lemma reindex_NoDup X labels :
  NoDup (columns X) → reindex X labels = inr (reindex_columns X labels).
Proof.
  intros Hn. unfold reindex. case_decide as E.
  - subst labels. f_equal. symmetry. by apply reindex_sub.
  - rewrite decide_True by (by left). done.
Qed.

Lemma columns_filter (P : string → Prop) `{!∀ l, Decision (P l)} (X : frame) :
  columns (filter (λ c, P c.1) X) = filter P (columns X).
Proof.
  unfold columns. induction X as [|[l v] X IH]; [done|].
  rewrite fmap_cons. cbn [fst]. destruct (decide (P l)).
  - rewrite !filter_cons_True by done. rewrite fmap_cons. by f_equal.
  - by rewrite !filter_cons_False by done.
Qed.

Lemma filter_all {A} (P : A → Prop) `{!∀ x, Decision (P x)} (l : list A) :
  (∀ x, x ∈ l → P x) → filter P l = l.
Proof.
  induction l as [|x l IH]; intros Hall; [done|].
  rewrite filter_cons_True by (apply Hall; left). f_equal.
  apply IH. intros y Hy. apply Hall. by right.
Qed.

Lemma drop_all_filter ds : ∀ X Y,
  drop_all ds X = inr Y → Y = filter (λ c, c.1 ∉ ds) X.
Proof.
  induction ds as [|d ds IH]; intros X Y.
  - intros [= <-]. symmetry. apply filter_all. intros c _. apply not_elem_of_nil.
  - cbn [drop_all]. unfold drop. destruct (decide (d ∈ columns X)); [|done].
    intros HY. apply IH in HY as ->. rewrite list_filter_filter.
    apply list_filter_iff. intros c. rewrite not_elem_of_cons. tauto.
Qed.

(** ** The expansion in closed form *)

Lemma write_block_append col mod_ digs : ∀ X bin,
  NoDup digs →
  (∀ d, d ∈ digs → expanded col d ∉ columns X) →
  write_block col mod_ digs X bin
  = (X ++ ((λ dig, (expanded col dig, matrix_column dig mod_)) <$> digs),
     bin ++ (expanded col <$> digs)).
Proof.
  induction digs as [|d digs IH]; intros X bin Hnd Hnew.
  { cbn. by rewrite !app_nil_r. }
  apply NoDup_cons in Hnd as [Hd Hnd]. cbn [write_block].
  rewrite setitem_new by (apply Hnew; left).
  rewrite IH; [|done|].
  - rewrite !fmap_cons, <- !app_assoc. done.
  - intros d' Hd'. rewrite columns_app, not_elem_of_app. split.
    + apply Hnew. by right.
    + cbn. rewrite list_elem_of_singleton. intros E.
      apply expanded_inj in E as [_ ->]. done.
Qed.

Lemma columns_block_of col mod_ n :
  columns (block_of col mod_ n) = expanded col <$> seq 0 n.
Proof.
  unfold columns, block_of. rewrite <- list_fmap_compose. by apply list_fmap_ext.
Qed.

Lemma dmatrix_app col X B : col ∉ columns B → dmatrix col (X ++ B) = dmatrix col X.
Proof.
  intros H. unfold dmatrix. by rewrite select_app, (select_nil B), app_nil_r.
Qed.

Lemma expand_loop_blocks cs : ∀ X B bin,
  NoDup cs →
  (∀ c, c ∈ cs → c ∉ columns B) →
  (∀ c d, c ∈ cs → expanded c d ∉ columns (X ++ B)) →
  (∀ c c' d, c ∈ cs → c' ∈ cs → c ≠ expanded c' d) →
  match blocks cs X with
  | inl e => (expand_loop cs (X ++ B) bin).1 = inl e
  | inr Bs =>
      expand_loop cs (X ++ B) bin
      = (inr (bin ++ columns (concat Bs)), X ++ B ++ concat Bs)
  end.
Proof.
  induction cs as [|c cs IH]; intros X B bin Hnd Hcs Hnew Hexp.
  { cbn. by rewrite !app_nil_r. }
  apply NoDup_cons in Hnd as [Hc Hnd]. cbn [blocks expand_loop].
  rewrite dmatrix_app by (apply Hcs; left).
  destruct (dmatrix c X) as [e|[|row0 mod_]]; [done|done|].
  rewrite write_block_append; [|apply NoDup_seq|intros d _; apply Hnew; left].
  fold (block_of c (row0 :: mod_) (length row0)).
  rewrite <- columns_block_of with (mod_ := row0 :: mod_).
  set (Bc := block_of c (row0 :: mod_) (length row0)).
  specialize (IH X (B ++ Bc) (bin ++ columns Bc) Hnd).
  rewrite <- app_assoc.
  destruct (blocks cs X) as [e|Bs].
  - apply IH.
    + intros c' Hc'. rewrite columns_app, not_elem_of_app. split.
      * apply Hcs. by right.
      * subst Bc. rewrite columns_block_of. intros Hin.
        apply list_elem_of_fmap in Hin as (d & E & _).
        eapply (Hexp c' c d); [by right|by left|done].
    + intros c' d Hc'. rewrite app_assoc, columns_app, not_elem_of_app. split.
      * apply Hnew. by right.
      * subst Bc. rewrite columns_block_of. intros Hin.
        apply list_elem_of_fmap in Hin as (d' & E & _).
        apply expanded_inj in E as [-> _]. done.
    + intros c1 c2 d H1 H2. apply Hexp; by right.
  - rewrite IH.
    + cbn [concat]. by rewrite columns_app, <- !app_assoc.
    + intros c' Hc'. rewrite columns_app, not_elem_of_app. split.
      * apply Hcs. by right.
      * subst Bc. rewrite columns_block_of. intros Hin.
        apply list_elem_of_fmap in Hin as (d & E & _).
        eapply (Hexp c' c d); [by right|by left|done].
    + intros c' d Hc'. rewrite app_assoc, columns_app, not_elem_of_app. split.
      * apply Hnew. by right.
      * subst Bc. rewrite columns_block_of. intros Hin.
        apply list_elem_of_fmap in Hin as (d' & E & _).
        apply expanded_inj in E as [-> _]. done.
    + intros c1 c2 d H1 H2. apply Hexp; by right.
Qed.

Lemma write_block_NoDup col mod_ digs : ∀ X bin,
  NoDup (columns X) → NoDup (columns (write_block col mod_ digs X bin).1).
Proof.
  induction digs as [|d digs IH]; intros X bin H; [done|].
  cbn [write_block]. apply IH. by apply NoDup_columns_setitem.
Qed.

Lemma expand_loop_NoDup cs : ∀ X bin,
  NoDup (columns X) → NoDup (columns (expand_loop cs X bin).2).
Proof.
  induction cs as [|c cs IH]; intros X bin H; [done|].
  cbn [expand_loop]. destruct (dmatrix c X) as [e|[|row0 mod_]]; [done|done|].
  destruct (write_block _ _ _ _ _) as [X' bin'] eqn:E. apply IH.
  pose proof (write_block_NoDup c (row0 :: mod_) (seq 0 (length row0)) X bin H)
    as Hw. by rewrite E in Hw.
Qed.

Lemma helmert_frame_blocks X cs :
  NoDup (columns X) →
  NoDup cs →
  (∀ c, c ∈ cs → c ∈ columns X) →
  no_clash cs X = true →
  match blocks (prefixed <$> cs) (relabel X) with
  | inl e => helmert_frame X cs = inl e
  | inr Bs =>
      helmert_frame X cs
      = inr (concat Bs ++ filter (λ c, c.1 ∉ prefixed <$> cs) (relabel X))
  end.
Proof.
  intros HX Hcs Hsub Hclash. unfold helmert_frame.
  pose proof (expand_loop_blocks (prefixed <$> cs) (relabel X) [] []) as H.
  rewrite app_nil_r in H.
  assert (Hnd : NoDup (columns (relabel X))).
  { rewrite columns_relabel. by apply (NoDup_fmap_2 _). }
  pose proof (expand_loop_NoDup (prefixed <$> cs) (relabel X) [] Hnd) as HZ.
  specialize (H (NoDup_fmap_2 _ _ Hcs)).
  assert (H1 : ∀ c, c ∈ prefixed <$> cs → c ∉ columns ([] : frame)).
  { intros c _. apply not_elem_of_nil. }
  assert (H2 : ∀ c d, c ∈ prefixed <$> cs →
                      expanded c d ∉ columns (relabel X)).
  { intros c d Hc. apply list_elem_of_fmap in Hc as (c0 & -> & Hc0).
    rewrite columns_relabel, <- prefixed_expanded.
    intros Hin. apply list_elem_of_fmap in Hin as (l & E & Hl).
    apply (inj prefixed) in E. subst l.
    by eapply (no_clash_spec cs X c0 _ d). }
  assert (H3 : ∀ c c' d, c ∈ prefixed <$> cs → c' ∈ prefixed <$> cs →
                         c ≠ expanded c' d).
  { intros c c' d Hc Hc'.
    apply list_elem_of_fmap in Hc as (c0 & -> & Hc0).
    apply list_elem_of_fmap in Hc' as (c1 & -> & Hc1).
    rewrite <- prefixed_expanded. intros E. apply (inj prefixed) in E.
    eapply (no_clash_spec cs X c1 c0 d); eauto. }
  specialize (H H1 H2 H3). clear H1 H2 H3.
  destruct (blocks (prefixed <$> cs) (relabel X)) as [e|Bs].
  - destruct (expand_loop _ _ _) as [r X2]. cbn [fst] in H. by rewrite H.
  - rewrite H in *. cbn [fst snd app] in *.
    rewrite reindex_NoDup by done. f_equal. rewrite reindex_app. f_equal.
    + apply reindex_sub; [done|]. intros c Hc. apply elem_of_app. by right.
    + rewrite <- (columns_filter (λ l, l ∉ prefixed <$> cs)).
      apply reindex_sub; [done|]. intros c Hc.
      apply list_elem_of_filter in Hc as [_ Hc]. apply elem_of_app. by left.
Qed.

(** ** The ordinal encoder *)

Lemma getitem_select X l v : getitem X l = inr v ↔ select X l = [v].
Proof.
  unfold getitem. destruct (select X l) as [|v' [|]]; split; intros [=]; by subst.
Qed.

Lemma getitem_elem X l v : getitem X l = inr v → (l, v) ∈ X.
Proof.
  rewrite getitem_select. intros H. apply select_elem. rewrite H. by left.
Qed.

Lemma getitem_unique X l v :
  NoDup (columns X) → (l, v) ∈ X → getitem X l = inr v.
Proof. intros. apply getitem_select. by apply select_unique. Qed.

Lemma elem_columns X l : l ∈ columns X ↔ ∃ v, (l, v) ∈ X.
Proof.
  unfold columns. rewrite list_elem_of_fmap. split.
  - intros ([l' v] & -> & H). by exists v.
  - intros (v & H). by exists (l, v).
Qed.

Lemma ordinal_learn_labels cs F ms : ordinal_learn cs F = inr ms → ms.*1 = cs.
Proof.
  revert ms. induction cs as [|c cs IH]; intros ms; cbn [ordinal_learn].
  { by intros [= <-]. }
  destruct (getitem F c) as [e|v]; [by destruct (ordinal_learn cs F)|].
  destruct (ordinal_learn cs F) as [e|ms']; [done|].
  intros [= <-]. cbn. f_equal. by apply IH.
Qed.

Lemma ordinal_learn_mapping cs F ms c :
  ordinal_learn cs F = inr ms → c ∈ cs →
  ∃ vs, getitem F c = inr vs ∧ mapping_for ms c = Some (learn vs).
Proof.
  revert ms. induction cs as [|c' cs IH]; intros ms; cbn [ordinal_learn].
  { intros _ Hc. by apply elem_of_nil in Hc. }
  destruct (getitem F c') as [e|v] eqn:Ev; [by destruct (ordinal_learn cs F)|].
  destruct (ordinal_learn cs F) as [e|ms']; [done|].
  intros [= <-] Hc. cbn [mapping_for].
  destruct (decide (c = c')) as [->|Hne]; [by exists v|].
  apply elem_of_cons in Hc as [?|Hc]; [done|]. by apply IH.
Qed.

Lemma mapping_for_None ms c : c ∉ ms.*1 → mapping_for ms c = None.
Proof.
  induction ms as [|[c' m] ms IH]; [done|]. cbn.
  rewrite not_elem_of_cons. intros [Hne Hc]. rewrite decide_False by done.
  by apply IH.
Qed.

Lemma ordinal_apply_fmap ms : ∀ X X1,
  NoDup ms.*1 →
  ordinal_apply ms X = inr X1 →
  X1 = encode_column ms <$> X.
Proof.
  induction ms as [|[c m] ms IH]; intros X X1 Hnd.
  { intros [= <-]. symmetry. rewrite <- (list_fmap_id X) at 2.
    apply list_fmap_ext. by intros i [l v] _. }
  cbn [ordinal_apply]. cbn in Hnd. apply NoDup_cons in Hnd as [Hc Hnd].
  destruct (getitem X c) as [e|v] eqn:Ev; [done|].
  intros H. apply IH in H; [|done]. subst X1.
  assert (Hin : c ∈ columns X).
  { apply elem_columns. exists v. by apply getitem_elem. }
  rewrite setitem_old by done. rewrite <- list_fmap_compose.
  apply list_fmap_ext. intros i [l x] Hi. cbn.
  unfold encode_column. cbn [fst snd mapping_for].
  destruct (decide (l = c)) as [->|Hne].
  - cbn [fst snd]. rewrite mapping_for_None by done.
    apply getitem_select in Ev.
    assert (x ∈ select X c) as Hx.
    { apply select_elem. by eapply list_elem_of_lookup_2. }
    rewrite Ev in Hx. apply list_elem_of_singleton in Hx. by subst.
  - done.
Qed.

Lemma columns_encode_column ms X : columns (encode_column ms <$> X) = columns X.
Proof.
  unfold columns. rewrite <- list_fmap_compose. apply list_fmap_ext.
  intros i [l v] _. cbn. unfold encode_column. cbn. by destruct (mapping_for ms l).
Qed.

Lemma ordinal_apply_ok ms : ∀ X,
  NoDup (columns X) →
  (∀ c, c ∈ ms.*1 → c ∈ columns X) →
  ∃ X1, ordinal_apply ms X = inr X1.
Proof.
  induction ms as [|[c m] ms IH]; intros X Hnd Hsub; [by eexists|].
  cbn [ordinal_apply].
  assert (Hc : c ∈ columns X) by (apply Hsub; cbn; left).
  apply elem_columns in Hc as Hv. destruct Hv as (v & Hv).
  rewrite (getitem_unique _ _ _ Hnd Hv). apply IH.
  - by apply NoDup_columns_setitem.
  - intros c' Hc'. rewrite columns_setitem_old by done. apply Hsub. cbn. by right.
Qed.

Lemma select_encode_column ms X c m :
  mapping_for ms c = Some m →
  select (encode_column ms <$> X) c = encode m <$> select X c.
Proof.
  intros Hm. unfold select. induction X as [|[l v] X IH]; [done|].
  rewrite fmap_cons. unfold encode_column at 1. cbn [fst snd].
  destruct (decide (l = c)) as [->|Hne].
  - rewrite Hm. rewrite !filter_cons_True by done. rewrite !fmap_cons.
    cbn [snd]. f_equal. apply IH.
  - rewrite (filter_cons_False _ (l, v)) by (cbn; congruence).
    rewrite filter_cons_False; [apply IH|].
    destruct (mapping_for ms l); cbn; congruence.
Qed.

Lemma filter_encode_column ms (X : frame) (cs : list string) :
  ms.*1 = cs →
  filter (λ c, c.1 ∉ cs) (encode_column ms <$> X) = filter (λ c, c.1 ∉ cs) X.
Proof.
  intros Hms. induction X as [|[l v] X IH]; [done|].
  rewrite fmap_cons. unfold encode_column at 1. cbn [fst snd].
  destruct (decide (l ∈ cs)) as [Hl|Hl].
  - rewrite (filter_cons_False _ (l, v)) by (cbn; tauto).
    rewrite filter_cons_False; [apply IH|].
    destruct (mapping_for ms l); cbn; tauto.
  - rewrite mapping_for_None by (by rewrite Hms).
    rewrite !filter_cons_True by done. by f_equal.
Qed.

(** *** Learned mappings *)

Lemma code_of_cons v' c' m v :
  code_of ((v', c') :: m) v = if decide (v' = v) then Some c' else code_of m v.
Proof.
  unfold code_of. destruct (decide (v' = v)) as [->|Hne].
  - by rewrite filter_cons_True by done.
  - by rewrite filter_cons_False by (cbn; congruence).
Qed.

Lemma code_of_None (m : mapping) v : v ∉ m.*1 → code_of m v = None.
Proof.
  induction m as [|[v' c'] m IH]; [done|]. cbn. rewrite not_elem_of_cons.
  intros [Hne H]. rewrite code_of_cons, decide_False by done. by apply IH.
Qed.

Lemma code_of_Some (m : mapping) v c : code_of m v = Some c → (v, c) ∈ m.
Proof.
  induction m as [|[v' c'] m IH]; [done|]. rewrite code_of_cons.
  destruct (decide (v' = v)) as [->|Hne].
  - intros [= ->]. by left.
  - intros H. right. by apply IH.
Qed.

Lemma code_of_elem (m : mapping) v c :
  NoDup m.*1 → (v, c) ∈ m → code_of m v = Some c.
Proof.
  induction m as [|[v' c'] m IH]; intros Hnd Hin.
  { by apply elem_of_nil in Hin. }
  cbn in Hnd. apply NoDup_cons in Hnd as [Hv Hnd]. rewrite code_of_cons.
  apply elem_of_cons in Hin as [[= -> ->]|Hin].
  - by rewrite decide_True.
  - rewrite decide_False; [by apply IH|].
    intros ->. apply Hv. apply list_elem_of_fmap. by exists (v, c).
Qed.

Lemma learn_from_dense vs : ∀ m,
  dense m →
  dense (learn_from m vs)
  ∧ ∀ v, v ∈ (learn_from m vs).*1 ↔ v ∈ m.*1 ∨ v ∈ vs.
Proof.
  induction vs as [|x vs IH]; intros m Hm; cbn [learn_from].
  { split; [done|]. intros v. rewrite elem_of_nil. tauto. }
  destruct (decide (x ∈ m.*1)) as [Hx|Hx].
  - destruct (IH m Hm) as [Hd Hel]. split; [done|].
    intros v. rewrite Hel, elem_of_cons. split; [tauto|].
    intros [?|[->|?]]; tauto.
  - destruct (IH (m ++ [(x, Z.of_nat (S (length m)))])) as [Hd Hel].
    { destruct Hm as [Hnd Hc]. split.
      - rewrite fmap_app. apply NoDup_app. split; [done|].
        split; [|apply NoDup_singleton].
        intros y Hy Hy'. apply list_elem_of_singleton in Hy'. cbn in Hy'.
        by subst.
      - rewrite fmap_app, Hc, length_app. cbn [length].
        rewrite Nat.add_1_r, seq_S, fmap_app. done. }
    split; [done|]. intros v. rewrite Hel, fmap_app, elem_of_app, elem_of_cons.
    cbn. rewrite list_elem_of_singleton. tauto.
Qed.

Lemma learn_dense vs :
  dense (learn vs) ∧ ∀ v, v ∈ (learn vs).*1 ↔ v ∈ vs.
Proof.
  destruct (learn_from_dense vs []) as [Hd Hel].
  { split; [apply NoDup_nil_2|done]. }
  split; [done|]. intros v. rewrite Hel. cbn. rewrite elem_of_nil. tauto.
Qed.

Lemma dense_code_range (m : mapping) v c :
  dense m → (v, c) ∈ m → (1 ≤ c ≤ Z.of_nat (length m))%Z.
Proof.
  intros [_ Hc] Hin.
  assert (c ∈ m.*2) as Hc' by (apply list_elem_of_fmap; by exists (v, c)).
  rewrite Hc in Hc'. apply list_elem_of_fmap in Hc' as (i & -> & Hi).
  apply elem_of_seq in Hi. lia.
Qed.

Lemma dense_code_taken (m : mapping) c :
  dense m → (1 ≤ c ≤ Z.of_nat (length m))%Z → ∃ v, (v, c) ∈ m.
Proof.
  intros [_ Hc] Hr.
  assert (c ∈ m.*2) as Hc'.
  { rewrite Hc. apply list_elem_of_fmap. exists (Z.to_nat c - 1).
    split; [lia|]. apply elem_of_seq. lia. }
  apply list_elem_of_fmap in Hc' as ([v c'] & -> & Hin). by exists v.
Qed.

(** A trained value has a code between 1 and the cardinality; any other
    value has none. *)
Lemma learn_seen vs v :
  v ∈ vs →
  ∃ c, code_of (learn vs) v = Some c ∧ (1 ≤ c ≤ Z.of_nat (length (learn vs)))%Z.
Proof.
  intros Hv. destruct (learn_dense vs) as [Hd Hel].
  apply Hel in Hv. apply list_elem_of_fmap in Hv as ([v' c] & -> & Hin).
  exists c. split.
  - apply code_of_elem; [apply Hd|done].
  - by eapply dense_code_range.
Qed.

Lemma learn_unseen vs v : v ∉ vs → code_of (learn vs) v = None.
Proof.
  intros Hv. apply code_of_None. by rewrite (proj2 (learn_dense vs)).
Qed.

Lemma learn_code_taken vs c :
  (1 ≤ c ≤ Z.of_nat (length (learn vs)))%Z →
  ∃ v, v ∈ vs ∧ code_of (learn vs) v = Some c.
Proof.
  intros Hr. destruct (learn_dense vs) as [Hd Hel].
  destruct (dense_code_taken _ _ Hd Hr) as (v & Hin). exists v. split.
  - apply Hel. apply list_elem_of_fmap. by exists (v, c).
  - apply code_of_elem; [apply Hd|done].
Qed.

(** ** Levels and design rows *)

Lemma elem_levels codes z : z ∈ levels codes ↔ z ∈ codes.
Proof.
  unfold levels. rewrite merge_sort_Permutation. apply elem_of_remove_dups.
Qed.

Lemma NoDup_levels codes : NoDup (levels codes).
Proof.
  unfold levels. rewrite merge_sort_Permutation. apply NoDup_remove_dups.
Qed.

Lemma Sorted_levels codes : Sorted Z.le (levels codes).
Proof. unfold levels. apply (Sorted_merge_sort _). Qed.

Lemma length_levels codes : length (levels codes) = length (remove_dups codes).
Proof. unfold levels. by rewrite merge_sort_Permutation. Qed.

Lemma levels_nonempty codes z : z ∈ codes → 0 < length (levels codes).
Proof.
  intros H. apply elem_levels in H. destruct (levels codes); [|cbn; lia].
  by apply elem_of_nil in H.
Qed.

Lemma Sorted_seqZ m n : Sorted Z.le (seqZ m n).
Proof.
  remember (Z.to_nat n) as k eqn:Hk. revert m n Hk.
  induction k as [|k IH]; intros m n Hk.
  { rewrite seqZ_nil by lia. constructor. }
  rewrite seqZ_cons by lia. constructor.
  - apply IH. lia.
  - destruct (decide (0 < Z.pred n)%Z).
    + rewrite seqZ_cons by lia. constructor. lia.
    + rewrite seqZ_nil by lia. constructor.
Qed.

Lemma levels_range codes k :
  (∀ z, z ∈ codes ↔ (1 ≤ z ≤ Z.of_nat k)%Z) →
  levels codes = seqZ 1 (Z.of_nat k).
Proof.
  intros H. apply (Sorted_unique Z.le).
  - apply Sorted_levels.
  - apply Sorted_seqZ.
  - apply NoDup_Permutation; [apply NoDup_levels|apply NoDup_seqZ|].
    intros z. rewrite elem_levels, elem_of_seqZ, H. lia.
Qed.

Lemma level_index_seqZ z m n :
  (m ≤ z < m + n)%Z → level_index z (seqZ m n) = Z.to_nat (z - m).
Proof.
  remember (Z.to_nat n) as k eqn:Hk. revert m n Hk.
  induction k as [|k IH]; intros m n Hk Hz; [lia|].
  rewrite seqZ_cons by lia. cbn [level_index].
  destruct (decide (z = m)) as [->|Hne].
  - by rewrite Z.sub_diag.
  - rewrite IH by lia. lia.
Qed.

Lemma level_index_min z lv :
  Sorted Z.le lv → NoDup lv → z ∈ lv → (∀ y, y ∈ lv → (z ≤ y)%Z) →
  level_index z lv = 0.
Proof.
  intros Hs Hnd Hin Hmin. destruct lv as [|x lv]; [done|]. cbn.
  destruct (decide (z = x)) as [|Hne]; [done|]. exfalso.
  apply elem_of_cons in Hin as [?|Hin]; [done|].
  apply Sorted_StronglySorted in Hs; [|apply _].
  apply StronglySorted_cons in Hs as [Hx _].
  pose proof (Forall_forall (Z.le x) lv) as [Hf _].
  specialize (Hf Hx z Hin). specialize (Hmin x). 
  assert (x ∈ x :: lv) as Hx' by left. specialize (Hmin Hx'). lia.
Qed.

Lemma level_index_lt z lv : z ∈ lv → level_index z lv < length lv.
Proof.
  induction lv as [|x lv IH]; intros H; [by apply elem_of_nil in H|].
  cbn. destruct (decide (z = x)); [lia|].
  apply elem_of_cons in H as [?|H]; [done|]. specialize (IH H). lia.
Qed.

Lemma length_helmert_row n i : 0 < n → length (helmert_row n i) = n.
Proof.
  intros H. unfold helmert_row. cbn [length].
  rewrite length_fmap, length_seq. lia.
Qed.

Lemma helmert_row_lookup n i d :
  d < n →
  helmert_row n i !! d = Some (Float (contrast_value (Z.of_nat (S i)) d)).
Proof.
  intros Hd. unfold helmert_row, contrast_value. destruct d as [|j]; [done|].
  change ((?x :: ?l) !! S j) with (l !! j).
  rewrite list_lookup_fmap, lookup_seq_lt by lia.
  cbn. unfold helmert_contrast. do 2 f_equal.
  repeat case_decide; try lia; done.
Qed.

Lemma design_lookup codes i z :
  codes !! i = Some z →
  design codes !! i
  = Some (helmert_row (length (levels codes)) (level_index z (levels codes))).
Proof. intros H. unfold design. by rewrite list_lookup_fmap, H. Qed.

Lemma length_design codes : length (design codes) = length codes.
Proof. unfold design. by rewrite length_fmap. Qed.

(** The cell of expanded column [d] in the row of a cell coded [z]. *)
Lemma design_cell codes i z d :
  codes !! i = Some z →
  d < length (levels codes) →
  matrix_column d (design codes) !! i
  = Some (Float (contrast_value (rank_in codes z) d)).
Proof.
  intros Hi Hd. unfold matrix_column.
  rewrite list_lookup_fmap, (design_lookup _ _ _ Hi). cbn.
  by rewrite helmert_row_lookup.
Qed.

Lemma length_matrix_column d mod_ : length (matrix_column d mod_) = length mod_.
Proof. unfold matrix_column. by rewrite length_fmap. Qed.

Lemma int_codes_Int codes : int_codes (Int <$> codes) = Some codes.
Proof. induction codes as [|z codes IH]; [done|]. cbn. by rewrite IH. Qed.

Lemma design_head codes z rest :
  codes = z :: rest →
  ∃ row0 mod_, design codes = row0 :: mod_
               ∧ length row0 = length (levels codes).
Proof.
  intros ->. unfold design. rewrite fmap_cons. eexists _, _. split; [done|].
  apply length_helmert_row. apply (levels_nonempty _ z). by left.
Qed.

(** ** The output of [transform], block by block *)

Lemma blocks_Forall2 cs : ∀ X Bs,
  blocks cs X = inr Bs →
  Forall2 (λ c B, ∃ row0 rest, dmatrix c X = inr (row0 :: rest)
                               ∧ B = block_of c (row0 :: rest) (length row0))
    cs Bs.
Proof.
  induction cs as [|c cs IH]; intros X Bs; cbn [blocks].
  { intros [= <-]. constructor. }
  destruct (dmatrix c X) as [e|[|row0 rest]] eqn:E; [done|done|].
  destruct (blocks cs X) as [e|Bs'] eqn:E'; [done|].
  intros [= <-]. constructor; [by eexists _, _|by apply IH].
Qed.

Lemma blocks_ok cs : ∀ X,
  (∀ c, c ∈ cs → ∃ row0 rest, dmatrix c X = inr (row0 :: rest)) →
  ∃ Bs, blocks cs X = inr Bs.
Proof.
  induction cs as [|c cs IH]; intros X H; [by eexists|]. cbn [blocks].
  destruct (H c) as (row0 & rest & ->); [left|].
  destruct (IH X) as (Bs & ->); [|by eexists].
  intros c' Hc'. apply H. by right.
Qed.

Lemma dmatrix_encoded ms (X : frame) c m xs :
  mapping_for ms c = Some m →
  getitem X c = inr xs →
  dmatrix (prefixed c) (relabel (encode_column ms <$> X))
  = if python_name (prefixed c)
    then match codes_of m xs with
         | [] => inl (ValueError "negative dimensions are not allowed")
         | _ :: _ => inr (design (codes_of m xs))
         end
    else inl (PatsyError ("cannot evaluate factor " +:+ prefixed c)).
Proof.
  intros Hm Hx. unfold dmatrix. destruct (python_name (prefixed c)); [|done].
  rewrite relabel_fmap, (select_fmap_label prefixed).
  rewrite (select_encode_column _ _ _ _ Hm).
  apply getitem_select in Hx. rewrite Hx. cbn [fmap list_fmap].
  unfold encode. rewrite int_codes_Int. by destruct (codes_of m xs).
Qed.

Lemma mapping_for_Some ms c : c ∈ ms.*1 → ∃ m, mapping_for ms c = Some m.
Proof.
  induction ms as [|[c' m] ms IH]; intros H; [by apply elem_of_nil in H|].
  cbn [mapping_for]. destruct (decide (c = c')); [by eexists|].
  cbn in H. apply elem_of_cons in H as [?|H]; [done|]. by apply IH.
Qed.

Lemma ordinal_apply_columns ms : ∀ X X1 c,
  ordinal_apply ms X = inr X1 → c ∈ ms.*1 → c ∈ columns X.
Proof.
  induction ms as [|[c' m] ms IH]; intros X X1 c; cbn [ordinal_apply].
  { intros _ H. by apply elem_of_nil in H. }
  destruct (getitem X c') as [e|v] eqn:Ev; [done|].
  assert (Hin : c' ∈ columns X).
  { apply elem_columns. exists v. by apply getitem_elem. }
  intros H Hc. cbn in Hc. apply elem_of_cons in Hc as [->|Hc]; [done|].
  specialize (IH _ _ _ H Hc). by rewrite columns_setitem_old in IH.
Qed.

Lemma filter_relabel (cs : list string) (X : frame) :
  filter (λ c, c.1 ∉ prefixed <$> cs) (relabel X) = passthrough cs X.
Proof.
  unfold passthrough. rewrite relabel_fmap.
  induction X as [|[l v] X IH]; [done|]. rewrite fmap_cons. cbn [fst snd].
  destruct (decide (l ∈ cs)) as [Hl|Hl].
  - rewrite (filter_cons_False _ (l, v)) by (cbn; tauto).
    rewrite filter_cons_False; [done|]. cbn. intros Hn. apply Hn.
    by apply list_elem_of_fmap_2.
  - rewrite (filter_cons_True _ (l, v)) by done. rewrite fmap_cons.
    rewrite filter_cons_True; [by f_equal|]. cbn. intros Hn.
    apply list_elem_of_fmap in Hn as (l' & E & Hl').
    apply (inj prefixed) in E. by subst.
Qed.

(** The output of [transform] on a table with distinct labels, none of
    which clashes with an expanded label: the blocks of the selected
    columns, then the passthrough columns, minus the pruned labels. *)
Lemma transform_frame_blocks s X out c0 cs0 oe :
  cols s = Some (c0 :: cs0) →
  ordinal_encoder s = Some oe →
  (oe_mapping oe).*1 = c0 :: cs0 →
  NoDup (c0 :: cs0) →
  NoDup (columns X) →
  no_clash (c0 :: cs0) X = true →
  transform_frame s X = inr out →
  ∃ Bs,
    out = filter (λ c, c.1 ∉ pruned s) (concat Bs ++ passthrough (c0 :: cs0) X)
    ∧ Forall2 (λ c B, ∃ m xs,
          mapping_for (oe_mapping oe) c = Some m
          ∧ getitem X c = inr xs
          ∧ xs ≠ []
          ∧ B = block_of (prefixed c) (design (codes_of m xs))
                  (length (levels (codes_of m xs))))
        (c0 :: cs0) Bs.
Proof.
  intros Hcols Hoe Hms Hcs HX Hclash. unfold transform_frame.
  destruct (_dim s) as [d|]; [|done].
  destruct (decide (ncols X ≠ d)); [done|]. rewrite Hcols, Hoe.
  set (cs := c0 :: cs0) in *.
  destruct (ordinal_apply (oe_mapping oe) X) as [e|X1] eqn:E1; [done|].
  assert (Hsub : ∀ c, c ∈ cs → c ∈ columns X).
  { intros c Hc. eapply ordinal_apply_columns; [done|by rewrite Hms]. }
  apply ordinal_apply_fmap in E1; [|by rewrite Hms]. subst X1.
  pose proof (helmert_frame_blocks (encode_column (oe_mapping oe) <$> X) cs)
    as Hb.
  rewrite columns_encode_column in Hb. specialize (Hb HX Hcs Hsub).
  assert (Hclash' : no_clash cs (encode_column (oe_mapping oe) <$> X) = true).
  { unfold no_clash in *. by rewrite columns_encode_column. }
  specialize (Hb Hclash').
  destruct (blocks (prefixed <$> cs) _) as [e|Bs] eqn:EB.
  { by rewrite Hb. }
  rewrite Hb. intros Hout. apply drop_all_filter in Hout.
  rewrite filter_relabel in Hout. unfold passthrough in Hout.
  rewrite (filter_encode_column _ _ _ Hms) in Hout.
  exists Bs. split; [done|].
  apply blocks_Forall2 in EB. apply Forall2_fmap_l in EB.
  eapply Forall2_same_length_lookup_2; [by eapply Forall2_length|].
  intros i c B Hc HB.
  destruct (Forall2_lookup_lr _ _ _ _ _ _ EB Hc HB) as (row0 & rest & Hd & ->).
  assert (Hcin : c ∈ cs) by (by eapply list_elem_of_lookup_2).
  destruct (mapping_for_Some (oe_mapping oe) c) as (m & Hm); [by rewrite Hms|].
  destruct (proj1 (elem_columns X c) (Hsub c Hcin)) as (xs & Hxs).
  apply (getitem_unique _ _ _ HX) in Hxs.
  rewrite (dmatrix_encoded _ _ _ _ _ Hm Hxs) in Hd.
  destruct (python_name (prefixed c)); [|done].
  exists m, xs. split; [done|]. split; [done|].
  destruct (codes_of m xs) as [|z zs] eqn:Ec.
  { done. }
  assert (Hd' : design (z :: zs) = row0 :: rest) by congruence.
  clear Hd. rename Hd' into Hd.
  destruct (design_head (z :: zs) z zs eq_refl) as (r0 & md & Hr & Hlen).
  rewrite Hr in Hd. injection Hd as <- <-. split.
  - intros ->. done.
  - by rewrite Hr, Hlen.
Qed.

Lemma elem_concat {A} (x : A) (ls : list (list A)) :
  x ∈ concat ls ↔ ∃ l, x ∈ l ∧ l ∈ ls.
Proof.
  induction ls as [|l ls IH]; cbn [concat].
  - split; [by intros ?%elem_of_nil|]. intros (l & _ & ?%elem_of_nil). done.
  - rewrite elem_of_app, IH. split.
    + intros [H|(l' & H & Hl')]; [exists l; split; [done|left]|].
      exists l'. split; [done|by right].
    + intros (l' & H & Hl'). apply elem_of_cons in Hl' as [->|Hl']; [by left|].
      right. by exists l'.
Qed.

Lemma transform_cells s X out c0 cs0 oe c m xs d :
  cols s = Some (c0 :: cs0) →
  ordinal_encoder s = Some oe →
  (oe_mapping oe).*1 = c0 :: cs0 →
  NoDup (c0 :: cs0) →
  NoDup (columns X) →
  no_clash (c0 :: cs0) X = true →
  transform_frame s X = inr out →
  c ∈ c0 :: cs0 →
  mapping_for (oe_mapping oe) c = Some m →
  getitem X c = inr xs →
  d < length (levels (codes_of m xs)) →
  expanded (prefixed c) d ∉ pruned s →
  ∃ col, (expanded (prefixed c) d, col) ∈ out
    ∧ length col = length xs
    ∧ ∀ i v, xs !! i = Some v →
        col !! i = Some (Float (contrast_value
          (rank_in (codes_of m xs) (default unseen_code (code_of m v))) d)).
Proof.
  intros Hcols Hoe Hms Hcs HX Hclash Hout Hc Hm Hxs Hd Hpr.
  destruct (transform_frame_blocks _ _ _ _ _ _ Hcols Hoe Hms Hcs HX Hclash Hout)
    as (Bs & -> & HBs).
  apply list_elem_of_lookup in Hc as (i & Hi).
  destruct (Forall2_lookup_l _ _ _ _ _ HBs Hi) as (B & HB & m' & xs' & Hm' & Hxs' & _ & ->).
  rewrite Hm in Hm'. injection Hm' as <-.
  rewrite Hxs in Hxs'. injection Hxs' as <-.
  exists (matrix_column d (design (codes_of m xs))). split; [|split].
  - apply list_elem_of_filter. split; [done|]. apply elem_of_app. left.
    apply elem_concat. eexists. split; [|by eapply list_elem_of_lookup_2].
    unfold block_of. apply list_elem_of_fmap. exists d. split; [done|].
    apply elem_of_seq. lia.
  - rewrite length_matrix_column, length_design. unfold codes_of.
    by rewrite length_fmap.
  - intros j v Hj. apply design_cell; [|done].
    unfold codes_of. by rewrite list_lookup_fmap, Hj.
Qed.

(** ** Fitted instances *)

Lemma fitted_facts F s :
  fitted_by F s →
  ∃ cs ms,
    cols s = Some cs
    ∧ _dim s = Some (ncols F)
    ∧ ordinal_encoder s = Some {| oe_cols := cs; oe_mapping := ms |}
    ∧ ordinal_learn cs F = inr ms
    ∧ (drop_invariant s = true →
       ∃ X_temp, transform_frame (set_drop_cols [] s) F = inr X_temp
                 ∧ invariant_labels X_temp (columns X_temp) = inr (drop_cols s)).
Proof.
  intros (w0 & r0 & w1 & H & E & <-).
  destruct (fit_run _ _ _ _ _ H E) as (g & _ & ms & Hms & Hs).
  exists (resolved_cols (self w0) F), ms.
  destruct (drop_invariant (self w0)) eqn:Hdi.
  - destruct Hs as (X_temp & HX & dc & Hdc & ->). cbn. repeat split; try done.
    intros _. by exists X_temp.
  - rewrite Hs. cbn. repeat split; try done. by rewrite Hdi.
Qed.

Lemma transform_complete r w X out :
  heap w !! r = Some X →
  transform_frame (self w) X = inr out →
  ∃ res w', transform r w = (inr res, w') ∧ yields w' res out.
Proof.
  intros H Hout. destruct (transform r w) as [[e|res] w'] eqn:E.
  - destruct (transform_run _ _ _ _ _ H E) as (g & _ & He). congruence.
  - destruct (transform_run _ _ _ _ _ H E) as (g & _ & out' & Ho & Hy & _).
    exists res, w'. split; [done|]. congruence.
Qed.

Lemma length_learn vs : length (learn vs) = length (remove_dups vs).
Proof.
  destruct (learn_dense vs) as [[Hnd _] Hel].
  rewrite <- (length_fmap fst (learn vs)). apply Permutation_length.
  apply NoDup_Permutation; [done|apply NoDup_remove_dups|].
  intros v. by rewrite Hel, elem_of_remove_dups.
Qed.

(** When a column takes exactly the trained values, its codes are
    exactly [1..k] and every rank is the code itself. *)
Lemma codes_all_trained vs xs :
  (∀ v, v ∈ xs ↔ v ∈ vs) →
  levels (codes_of (learn vs) xs) = seqZ 1 (Z.of_nat (length (learn vs))).
Proof.
  intros H. apply levels_range. intros z. unfold codes_of.
  rewrite list_elem_of_fmap. split.
  - intros (v & -> & Hv). apply H in Hv.
    destruct (learn_seen _ _ Hv) as (c & -> & Hc). done.
  - intros Hz. destruct (learn_code_taken _ _ Hz) as (v & Hv & Hc).
    exists v. rewrite Hc. split; [done|]. by apply H.
Qed.

Lemma codes_nonneg vs xs z : z ∈ codes_of (learn vs) xs → (0 ≤ z)%Z.
Proof.
  unfold codes_of. intros (v & -> & _)%list_elem_of_fmap.
  destruct (code_of (learn vs) v) as [c|] eqn:E; [|done].
  apply code_of_Some in E. cbn.
  pose proof (dense_code_range _ _ _ (proj1 (learn_dense vs)) E). lia.
Qed.

Lemma rank_unseen vs xs i v :
  xs !! i = Some v → v ∉ vs →
  rank_in (codes_of (learn vs) xs) (default unseen_code (code_of (learn vs) v))
  = 1%Z.
Proof.
  intros Hi Hv. rewrite (learn_unseen _ _ Hv). cbn [default from_option].
  unfold rank_in. rewrite level_index_min; [done|apply Sorted_levels|
    apply NoDup_levels|..].
  - apply elem_levels. unfold codes_of. apply list_elem_of_fmap.
    exists v. rewrite (learn_unseen _ _ Hv). split; [done|].
    by eapply list_elem_of_lookup_2.
  - intros y Hy. rewrite elem_levels in Hy. unfold unseen_code.
    by eapply codes_nonneg.
Qed.

Lemma rank_trained vs xs v c :
  (∀ v, v ∈ xs ↔ v ∈ vs) →
  code_of (learn vs) v = Some c →
  (1 ≤ c ≤ Z.of_nat (length (learn vs)))%Z →
  rank_in (codes_of (learn vs) xs) (default unseen_code (code_of (learn vs) v))
  = c.
Proof.
  intros H Hc Hr. rewrite Hc. cbn [default from_option id].
  unfold rank_in. rewrite (codes_all_trained _ _ H).
  rewrite level_index_seqZ by lia. lia.
Qed.

Lemma fitted_cols F s cs :
  fitted_by F s → cols s = Some cs →
  ∃ ms, ordinal_encoder s = Some {| oe_cols := cs; oe_mapping := ms |}
        ∧ ms.*1 = cs
        ∧ _dim s = Some (ncols F)
        ∧ ∀ c, c ∈ cs → ∃ vs, getitem F c = inr vs
                              ∧ mapping_for ms c = Some (learn vs).
Proof.
  intros Hf Hc. destruct (fitted_facts _ _ Hf) as (cs' & ms & Hc' & Hd & Hoe & Hl & _).
  rewrite Hc in Hc'. injection Hc' as <-. exists ms.
  split; [done|]. split; [by eapply ordinal_learn_labels|]. split; [done|].
  intros c Hin. by eapply ordinal_learn_mapping.
Qed.

Lemma ordinal_apply_columns_eq ms : ∀ X X1,
  ordinal_apply ms X = inr X1 → columns X1 = columns X.
Proof.
  induction ms as [|[c m] ms IH]; intros X X1; cbn [ordinal_apply].
  { by intros [= <-]. }
  destruct (getitem X c) as [e|v] eqn:Ev; [done|].
  intros H. rewrite (IH _ _ H). apply columns_setitem_old.
  apply elem_columns. exists v. by apply getitem_elem.
Qed.

Lemma write_block_bin col mod_ digs : ∀ X bin,
  (write_block col mod_ digs X bin).2 = bin ++ (expanded col <$> digs).
Proof.
  induction digs as [|d digs IH]; intros X bin; cbn [write_block].
  { by rewrite app_nil_r. }
  rewrite IH, <- app_assoc. done.
Qed.

Lemma expand_loop_bin cs : ∀ X bin bin' l,
  (expand_loop cs X bin).1 = inr bin' →
  l ∈ bin' → l ∈ bin ∨ ∃ c d, c ∈ cs ∧ l = expanded c d.
Proof.
  induction cs as [|c cs IH]; intros X bin bin' l; cbn [expand_loop].
  { intros [= <-]. by left. }
  destruct (dmatrix c X) as [e|[|row0 mod_]]; [done|done|].
  destruct (write_block _ _ _ _ _) as [X' bin1] eqn:E.
  pose proof (write_block_bin c (row0 :: mod_) (seq 0 (length row0)) X bin) as Hb.
  rewrite E in Hb. cbn in Hb. subst bin1.
  intros H Hl. destruct (IH _ _ _ _ H Hl) as [Hin|(c' & d & Hc' & ->)].
  - apply elem_of_app in Hin as [?|Hin]; [by left|]. right.
    apply list_elem_of_fmap in Hin as (d & -> & _). exists c, d. split; [left|done].
  - right. exists c', d. split; [by right|done].
Qed.

Lemma transform_passthrough_run w r X d :
  _dim (self w) = Some d →
  heap w !! r = Some X →
  cols (self w) = Some [] ∨ cols (self w) = None →
  transform r w
  = if decide (ncols X ≠ d) then (inl (bad_dimension (ncols X) d), w)
    else (inr (DataFrame r), w).
Proof.
  intros Hd H Hc. unfold transform.
  rewrite bind_run. unfold get_self at 1. cbv beta iota. rewrite Hd.
  unfold convert_input. rewrite bind_ret_run, bind_run, (df_read_run _ _ _ H).
  destruct (decide (ncols X ≠ d)); [done|]. by destruct Hc as [-> | ->].
Qed.

Lemma elem_columns_filter (P : string * series → Prop)
    `{!∀ c, Decision (P c)} (X : frame) l :
  l ∈ columns (filter P X) → ∃ v, (l, v) ∈ X ∧ P (l, v).
Proof.
  intros (v & Hv)%elem_columns. apply list_elem_of_filter in Hv as [HP Hv].
  by exists v.
Qed.

Lemma transform_frame_labels s X out c0 cs0 l :
  cols s = Some (c0 :: cs0) →
  transform_frame s X = inr out →
  l ∈ columns out →
  (∃ x, x ∈ columns X ∧ (x ∉ c0 :: cs0) ∧ l = prefixed x)
  ∨ (∃ c d, c ∈ (c0 :: cs0) ∧ l = expanded (prefixed c) d).
Proof.
  intros Hcols. unfold transform_frame. rewrite Hcols.
  destruct (_dim s) as [dim|]; [|done].
  destruct (decide (ncols X ≠ dim)); [done|].
  destruct (ordinal_encoder s) as [oe|]; [|done].
  destruct (ordinal_apply (oe_mapping oe) X) as [e|X1] eqn:E1; [done|].
  apply ordinal_apply_columns_eq in E1. unfold helmert_frame.
  destruct (expand_loop _ _ _) as [[e|bin] X2] eqn:E2; [done|].
  destruct (reindex X2 _) as [e|Y] eqn:E3; [done|].
  intros Hout Hl. apply drop_all_filter in Hout. subst out.
  apply elem_columns_filter in Hl as (v & Hl & _).
  assert (l ∈ columns Y) as Hl'.
  { apply elem_columns. by exists v. }
  clear Hl. rename Hl' into Hl.
  rewrite (columns_reindex_inr _ _ _ E3) in Hl.
  apply elem_of_app in Hl as [Hl|Hl].
  - right. pose proof (expand_loop_bin (prefixed <$> c0 :: cs0) (relabel X1) [] bin l)
      as Hb. rewrite E2 in Hb. destruct (Hb eq_refl Hl) as [Hn|(c & d & Hc & ->)].
    { by apply elem_of_nil in Hn. }
    apply list_elem_of_fmap in Hc as (c' & -> & Hc'). by exists c', d.
  - left. apply list_elem_of_filter in Hl as [Hn Hl].
    rewrite columns_relabel, E1 in Hl.
    apply list_elem_of_fmap in Hl as (x & -> & Hx). exists x.
    split; [done|]. split; [|done]. intros Hin. apply Hn.
    by apply list_elem_of_fmap_2.
Qed.

Lemma aligned_getitem n X c xs : aligned n X → getitem X c = inr xs → length xs = n.
Proof.
  intros Ha Hx. apply getitem_elem in Hx. unfold aligned in Ha.
  rewrite Forall_forall in Ha. by apply (Ha (c, xs)).
Qed.

(** A prefixed label reads as a name when the label is made of letters,
    digits and underscores. *)
Lemma python_name_prefixed c : python_name (prefixed c) = name_chars c.
Proof. reflexivity. Qed.

(** Without pruning, [transform] returns on every table that has the
    selected columns, their labels made of letters, digits and
    underscores, distinct labels that clash with no expanded label, the
    fit-time column count and at least one row. *)
Lemma transform_frame_ok s F X cs n :
  fitted_by F s →
  cols s = Some cs →
  pruned s = [] →
  NoDup cs →
  (∀ c, c ∈ cs → name_chars c = true) →
  NoDup (columns X) →
  no_clash cs X = true →
  (∀ c, c ∈ cs → c ∈ columns X) →
  ncols X = ncols F →
  aligned n X →
  0 < n →
  ∃ out, transform_frame s X = inr out.
Proof.
  intros Hf Hcols Hpr Hcs Hnames HX Hclash Hsub Hdim Ha Hn.
  destruct (fitted_cols _ _ _ Hf Hcols) as (ms & Hoe & Hms & Hd & Hmap).
  unfold transform_frame. rewrite Hd, Hcols, Hoe, Hpr.
  rewrite decide_False by (intros Hne; by apply Hne).
  destruct cs as [|c0 cs0]; [by eexists|]. cbn [oe_mapping].
  destruct (ordinal_apply_ok ms X HX) as (X1 & E1); [by rewrite Hms|].
  rewrite E1. apply ordinal_apply_fmap in E1; [|by rewrite Hms]. subst X1.
  pose proof (helmert_frame_blocks (encode_column ms <$> X) (c0 :: cs0)) as Hb.
  rewrite columns_encode_column in Hb. specialize (Hb HX Hcs Hsub).
  assert (Hclash' : no_clash (c0 :: cs0) (encode_column ms <$> X) = true).
  { unfold no_clash in *. by rewrite columns_encode_column. }
  specialize (Hb Hclash').
  destruct (blocks_ok (prefixed <$> c0 :: cs0) (relabel (encode_column ms <$> X)))
    as (Bs & HBs).
  { intros c' (c & -> & Hc)%list_elem_of_fmap.
    destruct (Hmap c Hc) as (vs & _ & Hm).
    destruct (proj1 (elem_columns X c) (Hsub c Hc)) as (xs & Hxs).
    apply (getitem_unique _ _ _ HX) in Hxs.
    rewrite (dmatrix_encoded _ _ _ _ _ Hm Hxs), python_name_prefixed,
      (Hnames c Hc).
    pose proof (aligned_getitem _ _ _ _ Ha Hxs) as Hlen.
    destruct xs as [|x xs]; [cbn in Hlen; lia|].
    destruct (codes_of (learn vs) (x :: xs)) as [|z zs] eqn:Ec; [done|].
    destruct (design_head (z :: zs) z zs eq_refl) as (row0 & rest & -> & _).
    by eexists _, _. }
  rewrite HBs in Hb. rewrite Hb. cbn [drop_all]. by eexists.
Qed.

Lemma contrast_value_first d :
  contrast_value 1 d = inject_Z (if decide (d = 0) then 1 else -1).
Proof. unfold contrast_value. repeat case_decide; try lia; done. Qed.

(** ** Intercept columns and the variance filter *)

Lemma invariant_labels_spec X labels dc :
  invariant_labels X labels = inr dc →
  (∀ l, l ∈ labels → ∃ v s2, getitem X l = inr v ∧ var v = inr s2)
  ∧ ∀ l, l ∈ dc ↔
      l ∈ labels
      ∧ ∃ v q, getitem X l = inr v ∧ var v = inr (Some q)
               ∧ (q <= threshold)%Q.
Proof.
  revert dc. induction labels as [|x labels IH]; intros dc; cbn [invariant_labels].
  { intros [= <-]. split; [by intros l ?%elem_of_nil|].
    intros l. split; [by intros ?%elem_of_nil|]. by intros [?%elem_of_nil _]. }
  destruct (getitem X x) as [e|v] eqn:Ev; [done|].
  destruct (var v) as [e|s2] eqn:Es; [done|].
  destruct (invariant_labels X labels) as [e|dc'] eqn:Ed; [done|].
  destruct (IH dc' eq_refl) as [IH1 IH2]. intros [= <-]. split.
  { intros l [->|Hl]%elem_of_cons; [by eexists _, _|by apply IH1]. }
  intros l.
  assert (Hkeep : (match s2 with Some q => Qle_bool q threshold | None => false end)
                  = true ↔ ∃ q, s2 = Some q ∧ (q <= threshold)%Q).
  { destruct s2 as [q|].
    - rewrite Qle_bool_iff. split; [by exists q|]. by intros (q' & [= ->] & ?).
    - split; [done|]. by intros (q & ? & _). }
  destruct (match s2 with Some q => Qle_bool q threshold | None => false end)
    eqn:Ek.
  - destruct (proj1 Hkeep eq_refl) as (q & -> & Hq).
    rewrite !elem_of_cons, IH2. split.
    + intros [->|[Hl Hr]]; [|by split; [right|]].
      split; [by left|]. by exists v, q.
    + intros [[->|Hl] Hr]; [by left|]. right. by split.
  - rewrite IH2, elem_of_cons. split; [intros [Hl Hr]; by split; [right|]|].
    intros [[->|Hl] Hr]; [|by split].
    destruct Hr as (v' & q & Hv' & Hq & Hle). rewrite Ev in Hv'.
    injection Hv' as <-. rewrite Es in Hq. injection Hq as ->.
    assert (false = true) by (apply Hkeep; by exists q). done.
Qed.

Lemma matrix_column_intercept codes :
  matrix_column 0 (design codes) = replicate (length codes) (Float 1).
Proof.
  unfold matrix_column, design. rewrite <- list_fmap_compose.
  by apply const_fmap.
Qed.

Lemma numbers_ones n : numbers (replicate n (Float 1)) = inr (replicate n 1%Q).
Proof. induction n as [|n IH]; [done|]. cbn. by rewrite IH. Qed.

Lemma Qsum_zero qs : (∀ q, q ∈ qs → (q == 0)%Q) → (Qsum qs == 0)%Q.
Proof.
  induction qs as [|q qs IH]; intros H; [done|]. cbn.
  rewrite (H q) by left. rewrite IH; [done|]. intros q' Hq'. apply H. by right.
Qed.

Lemma Qsum_ones n : (Qsum (replicate n 1%Q) == inject_Z (Z.of_nat n))%Q.
Proof.
  induction n as [|n IH]; [done|]. cbn [replicate Qsum foldr].
  fold (Qsum (replicate n 1%Q)). rewrite IH, Nat2Z.inj_succ.
  unfold Z.succ. rewrite inject_Z_plus. ring.
Qed.

Lemma sample_var_ones n :
  2 ≤ n → ∃ q, sample_var (replicate n 1%Q) = Some q ∧ (q == 0)%Q.
Proof.
  intros Hn. destruct n as [|[|n]]; [lia|lia|].
  set (qs := replicate (S (S n)) 1%Q).
  set (m := (Qsum qs / inject_Z (Z.of_nat (length qs)))%Q).
  exists (Qsum ((λ q, (q - m) * (q - m))%Q <$> qs)
          / (inject_Z (Z.of_nat (length qs)) - 1))%Q.
  split; [reflexivity|].
  assert (Hm : (m == 1)%Q).
  { subst m qs. rewrite length_replicate, Qsum_ones.
    apply Qmult_inv_r. unfold Qeq. cbn. lia. }
  unfold Qdiv. rewrite Qsum_zero; [ring|].
  intros q (q0 & -> & Hq0)%list_elem_of_fmap.
  apply elem_of_replicate in Hq0 as [-> _]. rewrite Hm. ring.
Qed.

Lemma var_ones n :
  2 ≤ n → ∃ q, var (replicate n (Float 1)) = inr (Some q) ∧ (q <= threshold)%Q.
Proof.
  intros Hn. unfold var. rewrite numbers_ones.
  destruct (sample_var_ones n Hn) as (q & -> & Hq). exists q.
  split; [done|]. rewrite Hq. done.
Qed.

Lemma select_nonempty X l : l ∈ columns X → select X l ≠ [].
Proof.
  intros (v & Hv)%elem_columns Hn. apply select_elem in Hv.
  rewrite Hn in Hv. by apply elem_of_nil in Hv.
Qed.

Lemma elem_columns_setitem X l v l' :
  l' ∈ columns (setitem X l v) ↔ l' = l ∨ l' ∈ columns X.
Proof.
  destruct (decide (l ∈ columns X)) as [Hl|Hl].
  - rewrite columns_setitem_old by done. split; [by right|].
    by intros [->|?].
  - rewrite setitem_new, columns_app, elem_of_app by done. cbn.
    rewrite list_elem_of_singleton. tauto.
Qed.

Lemma select_setitem X l v l' x :
  x ∈ select (setitem X l v) l' →
  (l' = l ∧ x = v) ∨ (l' ≠ l ∧ x ∈ select X l').
Proof.
  rewrite select_elem. destruct (decide (l ∈ columns X)) as [Hl|Hl].
  - rewrite setitem_old by done.
    intros ([l0 v0] & E & Hin)%list_elem_of_fmap. cbn in E.
    destruct (decide (l0 = l)) as [->|Hne].
    + injection E as -> ->. by left.
    + injection E as -> ->. right. split; [done|]. by apply select_elem.
  - rewrite setitem_new by done.
    intros [Hin|[= -> ->]%list_elem_of_singleton]%elem_of_app; [|by left].
    right. split; [|by apply select_elem].
    intros ->. apply Hl. apply elem_columns. by exists x.
Qed.

Lemma holds_setitem_same X l v : holds (setitem X l v) l v.
Proof.
  split; [apply elem_columns_setitem; by left|].
  intros x [[_ ->]|[? _]]%select_setitem; done.
Qed.

Lemma holds_setitem X l v l' v0 :
  (l = l' → v = v0) → holds X l' v0 → holds (setitem X l v) l' v0.
Proof.
  intros Hv [Hin Hsel]. split; [apply elem_columns_setitem; by right|].
  intros x [[-> ->]|[_ Hx]]%select_setitem; [by apply Hv|by apply Hsel].
Qed.

Lemma aligned_setitem n X l v :
  aligned n X → length v = n → aligned n (setitem X l v).
Proof.
  intros Ha Hv. unfold aligned in *. destruct (decide (l ∈ columns X)).
  - rewrite setitem_old by done. apply Forall_fmap.
    eapply Forall_impl; [exact Ha|]. intros [l0 v0] Hlen. cbn in *.
    by case_decide.
  - rewrite setitem_new by done. apply Forall_app. split; [done|].
    by apply Forall_singleton.
Qed.

Lemma write_block_holds col mod_ digs l v0 : ∀ X bin,
  (∀ d, d ∈ digs → expanded col d = l → matrix_column d mod_ = v0) →
  holds X l v0 → holds (write_block col mod_ digs X bin).1 l v0.
Proof.
  induction digs as [|d digs IH]; intros X bin Hw Hh; [done|].
  cbn [write_block]. apply IH.
  - intros d' Hd'. apply Hw. by right.
  - apply holds_setitem; [|done]. apply Hw. left.
Qed.

Lemma write_block_sets col mod_ digs d : ∀ X bin,
  d ∈ digs →
  holds (write_block col mod_ digs X bin).1 (expanded col d)
    (matrix_column d mod_).
Proof.
  induction digs as [|d' digs IH]; intros X bin Hd; [by apply elem_of_nil in Hd|].
  cbn [write_block]. destruct (decide (d = d')) as [->|Hne].
  - apply write_block_holds; [|apply holds_setitem_same].
    intros d ? E. apply expanded_inj in E as [_ ->]. done.
  - apply IH. by apply elem_of_cons in Hd as [?|?].
Qed.

Lemma write_block_aligned n col mod_ digs : ∀ X bin,
  length mod_ = n → aligned n X →
  aligned n (write_block col mod_ digs X bin).1.
Proof.
  induction digs as [|d digs IH]; intros X bin Hm Ha; [done|].
  cbn [write_block]. apply IH; [done|]. apply aligned_setitem; [done|].
  by rewrite length_matrix_column.
Qed.

Lemma int_codes_length v codes : int_codes v = Some codes → length codes = length v.
Proof.
  revert codes. induction v as [|c v IH]; intros codes; cbn.
  { by intros [= <-]. }
  destruct c; try done. destruct (int_codes v) as [codes'|]; [|done].
  intros [= <-]. cbn. f_equal. by apply IH.
Qed.

Lemma dmatrix_design n col X mod_ :
  aligned n X →
  dmatrix col X = inr mod_ →
  ∃ codes, mod_ = design codes ∧ length codes = n.
Proof.
  intros Ha. unfold dmatrix. destruct (python_name col); [|done].
  destruct (select X col) as [|v [|]] eqn:Es; [done| |done].
  destruct (int_codes v) as [codes|] eqn:Ec; [|done].
  destruct codes as [|z zs]; [done|]. set (codes := z :: zs) in *.
  intros [= <-]. exists codes. split; [done|].
  rewrite (int_codes_length _ _ Ec).
  assert ((col, v) ∈ X) as Hin by (apply select_elem; rewrite Es; left).
  unfold aligned in Ha. rewrite Forall_forall in Ha. by apply (Ha (col, v)).
Qed.

(** After the loop of [helmert_coding], the intercept label of every
    processed column names columns of ones, and is among [bin_cols]. *)
Lemma expand_loop_intercepts n cs : ∀ X bin bin' X2,
  aligned n X →
  expand_loop cs X bin = (inr bin', X2) →
  aligned n X2
  ∧ (∀ l, l ∈ bin → l ∈ bin')
  ∧ (∀ c, holds X (expanded c 0) (replicate n (Float 1)) →
          holds X2 (expanded c 0) (replicate n (Float 1)))
  ∧ (∀ c, c ∈ cs →
          holds X2 (expanded c 0) (replicate n (Float 1))
          ∧ expanded c 0 ∈ bin').
Proof.
  induction cs as [|c cs IH]; intros X bin bin' X2 Ha; cbn [expand_loop].
  { intros [= <- <-]. split; [done|]. split; [done|]. split; [done|].
    by intros c' ?%elem_of_nil. }
  destruct (dmatrix c X) as [e|[|row0 rest]] eqn:Ed; [done|done|].
  destruct (dmatrix_design _ _ _ _ Ha Ed) as (codes & Hmod & Hlen).
  pose proof (matrix_column_intercept codes) as H0. rewrite <- Hmod, Hlen in H0.
  assert (Hm : length (row0 :: rest) = n) by (by rewrite Hmod, length_design).
  set (digs := seq 0 (length row0)).
  assert (H0in : 0 ∈ digs).
  { subst digs. apply elem_of_seq. destruct codes as [|z codes]; [done|].
    unfold design in Hmod. rewrite fmap_cons in Hmod. injection Hmod as -> _.
    unfold helmert_row. cbn. lia. }
  destruct (write_block c (row0 :: rest) digs X bin) as [X1 bin1] eqn:Ew.
  pose proof (write_block_aligned n c (row0 :: rest) digs X bin Hm Ha) as Ha1.
  pose proof (write_block_sets c (row0 :: rest) digs 0 X bin H0in) as Hs.
  pose proof (write_block_bin c (row0 :: rest) digs X bin) as Hb.
  rewrite Ew in Ha1, Hs, Hb. cbn [fst snd] in *. rewrite H0 in Hs.
  intros E. destruct (IH _ _ _ _ Ha1 E) as (Ha2 & Hbin & Hkeep & Hcs).
  split; [done|]. split; [|split].
  - intros l Hl. apply Hbin. rewrite Hb. apply elem_of_app. by left.
  - intros c' Hh. apply Hkeep.
    pose proof (write_block_holds c (row0 :: rest) digs (expanded c' 0)
                  (replicate n (Float 1)) X bin) as Hw.
    rewrite Ew in Hw. apply Hw; [|done].
    intros d _ Heq. apply expanded_inj in Heq as [_ ->]. done.
  - intros c' [->|Hc']%elem_of_cons; [|by apply Hcs].
    split; [by apply Hkeep|]. apply Hbin. rewrite Hb. apply elem_of_app. right.
    apply list_elem_of_fmap. by exists 0.
Qed.

Lemma aligned_relabel n X : aligned n X → aligned n (relabel X).
Proof.
  unfold aligned. rewrite relabel_fmap. intros Ha. apply Forall_fmap.
  eapply Forall_impl; [exact Ha|]. by intros [l v].
Qed.

Lemma ordinal_apply_aligned n ms : ∀ X X1,
  aligned n X → ordinal_apply ms X = inr X1 → aligned n X1.
Proof.
  induction ms as [|[c m] ms IH]; intros X X1 Ha; cbn [ordinal_apply].
  { by intros [= <-]. }
  destruct (getitem X c) as [e|v] eqn:Ev; [done|].
  apply IH. apply aligned_setitem; [done|].
  unfold encode, codes_of. rewrite !length_fmap. by eapply aligned_getitem.
Qed.

Lemma reindex_holds X labels l v v0 :
  holds X l v0 → (l, v) ∈ reindex_columns X labels → v = v0.
Proof.
  intros [Hin Hsel] Hr. apply list_elem_of_fmap in Hr as (l' & E & _).
  injection E as <- ->.
  pose proof (select_nonempty _ _ Hin) as Hne.
  destruct (select X l) as [|x xs]; [done|]. apply Hsel. left.
Qed.

Lemma reindex_holds_inr X labels Y l v v0 :
  reindex X labels = inr Y → holds X l v0 → (l, v) ∈ Y → v = v0.
Proof.
  unfold reindex. repeat case_decide; intros [= <-] Hh Hv.
  - destruct Hh as [_ Hsel]. apply Hsel. by apply select_elem.
  - by eapply reindex_holds.
Qed.

(** The unpruned output on an aligned table with at least one selected
    column: the intercept label of each selected column is present and
    names only columns of ones. *)
Lemma transform_frame_intercept s X out n c c0 cs0 :
  cols s = Some (c0 :: cs0) →
  pruned s = [] →
  aligned n X →
  transform_frame s X = inr out →
  c ∈ c0 :: cs0 →
  expanded (prefixed c) 0 ∈ columns out
  ∧ ∀ v, (expanded (prefixed c) 0, v) ∈ out → v = replicate n (Float 1).
Proof.
  intros Hcols Hpr Ha. unfold transform_frame. rewrite Hcols, Hpr.
  destruct (_dim s) as [dim|]; [|done].
  destruct (decide (ncols X ≠ dim)); [done|].
  destruct (ordinal_encoder s) as [oe|]; [|done].
  destruct (ordinal_apply (oe_mapping oe) X) as [e|X1] eqn:E1; [done|].
  apply (ordinal_apply_aligned n) in E1; [|done].
  apply aligned_relabel in E1. unfold helmert_frame.
  destruct (expand_loop _ _ _) as [[e|bin] X2] eqn:E2; [done|].
  destruct (reindex X2 _) as [e|Y] eqn:E3; [done|].
  cbn [drop_all]. intros [= <-] Hc.
  destruct (expand_loop_intercepts _ _ _ _ _ _ E1 E2) as (_ & _ & _ & Hcs).
  destruct (Hcs (prefixed c)) as [Hh Hb]; [by apply list_elem_of_fmap_2|].
  split.
  - rewrite (columns_reindex_inr _ _ _ E3). apply elem_of_app. by left.
  - intros v Hv. by eapply reindex_holds_inr.
Qed.

Lemma transform_frame_pruned s X out c0 cs0 l :
  cols s = Some (c0 :: cs0) →
  transform_frame s X = inr out →
  l ∈ pruned s → l ∉ columns out.
Proof.
  intros Hcols. unfold transform_frame. rewrite Hcols.
  destruct (_dim s) as [dim|]; [|done].
  destruct (decide (ncols X ≠ dim)); [done|].
  destruct (ordinal_encoder s) as [oe|]; [|done].
  destruct (ordinal_apply (oe_mapping oe) X) as [e|X1]; [done|].
  destruct (helmert_frame X1 (c0 :: cs0)) as [e|Y]; [done|].
  intros Hout Hl Hin. apply drop_all_filter in Hout. subst out.
  apply elem_columns_filter in Hin as (v & _ & Hn). by apply Hn.
Qed.

(** ** Closed instances *)

Lemma after_fit_fitted enc F X :
  (fit 0 (before_fit enc F X)).1 = inr () →
  fitted_by F (self (after_fit enc F X)).
Proof.
  intros H. exists (before_fit enc F X), 0, (after_fit enc F X).
  split; [done|]. split; [|done]. unfold after_fit.
  destruct (fit 0 (before_fit enc F X)) as [res w]. cbn in *. by subst.
Qed.

Lemma same_elements {A} (xs vs : list A) :
  Forall (λ v, v ∈ vs) xs → Forall (λ v, v ∈ xs) vs → ∀ v, v ∈ xs ↔ v ∈ vs.
Proof. rewrite !Forall_forall. intros H1 H2 v. split; auto. Qed.
(** ** [fit], step by step *)

(** [fit] as one equation: the instance it leaves and the error it raises
    at each of its steps, in terms of the run of the [transform] it
    calls. *)
Lemma fit_unfold r w F :
  heap w !! r = Some F →
  fit r w
  = match ordinal_learn (resolved_cols (self w) F) F with
    | inl e =>
        (inl e, {| self := set_ordinal_encoder None (resolved (self w) F);
                   heap := heap w |})
    | inr ms =>
        let s2 := set_ordinal_encoder
                    (Some {| oe_cols := resolved_cols (self w) F;
                             oe_mapping := ms |})
                    (resolved (self w) F) in
        if drop_invariant (self w) then
          match transform r {| self := set_drop_cols [] s2; heap := heap w |}
          with
          | (inl e, wt) => (inl e, wt)
          | (inr (NDArray _), wt) =>
              (inl (AttributeError
                 "'numpy.ndarray' object has no attribute 'columns'"), wt)
          | (inr (DataFrame r'), wt) =>
              match heap wt !! r' with
              | None => (inl (TypeError "not a DataFrame"), wt)
              | Some X_temp =>
                  match invariant_labels X_temp (columns X_temp) with
                  | inl e => (inl e, wt)
                  | inr dc =>
                      (inr (), {| self := set_drop_cols dc (self wt);
                                  heap := heap wt |})
                  end
              end
          end
        else (inr (), {| self := s2; heap := heap w |})
    end.
Proof.
  intros H. destruct (fit r w) as [res w'] eqn:E.
  unfold fit in E. unfold convert_input in E.
  rewrite bind_ret_run, bind_run, (df_read_run _ _ _ H) in E.
  rewrite bind_run in E. unfold get_self at 1 in E. cbv beta iota in E.
  rewrite bind_run in E. unfold put_self at 1 in E.
  rewrite bind_run in E. unfold get_self at 1 in E. cbv beta iota in E.
  cbn [self heap] in E. rewrite bind_run in E.
  set (s1 := resolved (self w) F).
  assert (E1 : (match cols (set_dim (Some (ncols F)) (self w)) with
                | Some _ => ret ()
                | None => put_self (set_cols (Some (get_obj_cols F))
                            (set_dim (Some (ncols F)) (self w)))
                end) {| self := set_dim (Some (ncols F)) (self w); heap := heap w |}
               = (inr (), {| self := s1; heap := heap w |})).
  { subst s1. unfold resolved, resolved_cols. cbn [cols set_dim].
    destruct (self w) as [? ? ? ? [cs|] ? ?]; reflexivity. }
  rewrite E1 in E. clear E1.
  rewrite bind_run in E. unfold get_self at 1 in E. cbv beta iota in E.
  cbn [self] in E.
  assert (Hc : cols s1 = Some (resolved_cols (self w) F)) by done.
  rewrite Hc in E. cbv [default from_option id] in E.
  rewrite bind_run in E. unfold put_self at 1 in E. cbn [self heap] in E.
  rewrite bind_run in E. unfold ordinal_fit in E.
  rewrite bind_run, (df_read_run _ _ F), bind_run in E by done.
  destruct (ordinal_learn (resolved_cols (self w) F) F) as [e|ms].
  { cbn [lift] in E. unfold raise at 1 in E. cbv beta iota in E.
    by injection E as <- <-. }
  cbn [lift] in E. unfold ret at 1 in E. unfold ret at 1 in E.
  cbv beta iota in E.
  rewrite bind_run in E. unfold get_self at 1 in E. cbv beta iota in E.
  rewrite bind_run in E. unfold put_self at 1 in E.
  rewrite bind_run in E. unfold get_self at 1 in E. cbv beta iota in E.
  cbn [self heap] in E. cbv zeta.
  change (set_ordinal_encoder ?a (set_ordinal_encoder None s1))
    with (set_ordinal_encoder a s1) in E.
  set (s2 := set_ordinal_encoder _ s1) in *.
  change (drop_invariant s2) with (drop_invariant (self w)) in E.
  destruct (drop_invariant (self w)) eqn:Hdi.
  2:{ by injection E as <- <-. }
  rewrite bind_run in E. unfold put_self at 1 in E. cbn [self heap] in E.
  rewrite bind_run in E.
  destruct (transform r {| self := set_drop_cols [] s2; heap := heap w |})
    as [[e|[r'|rows]] wt] eqn:Et.
  { by injection E as <- <-. }
  2:{ by injection E as <- <-. }
  unfold df_columns in E. rewrite !bind_run in E. unfold df_read at 1 in E.
  destruct (heap wt !! r') as [X_temp|] eqn:Hr'.
  2:{ by injection E as <- <-. }
  unfold ret at 1 in E. cbv beta iota in E.
  rewrite bind_run, (invariant_labels_run _ _ X_temp) in E by exact Hr'.
  destruct (invariant_labels X_temp (columns X_temp)) as [e|dc] eqn:Edc.
  { by injection E as <- <-. }
  rewrite bind_run in E. unfold get_self at 1 in E. cbv beta iota in E.
  unfold put_self in E. by injection E as <- <-.
Qed.

(** ** The kind of result [transform] returns *)

(** With a selected column, [transform] returns a table allocated during
    the call when [return_df] is set and an array otherwise. *)
Lemma transform_kind r w X c0 cs0 res w' :
  heap w !! r = Some X →
  cols (self w) = Some (c0 :: cs0) →
  transform r w = (inr res, w') →
  if return_df (self w)
  then ∃ r', res = DataFrame r' ∧ length (heap w) < r' < length (heap w')
  else ∃ rows, res = NDArray rows.
Proof.
  intros H Hcs E. unfold transform in E.
  rewrite bind_run in E. unfold get_self at 1 in E. cbv beta iota in E.
  destruct (_dim (self w)) as [dim|]; [|done].
  unfold convert_input in E.
  rewrite bind_ret_run, bind_run, (df_read_run _ _ _ H) in E.
  destruct (decide (ncols X ≠ dim)) as [Hd|Hd]; [done|].
  rewrite Hcs in E.
  rewrite bind_run in E.
  destruct (ordinal_encoder (self w)) as [oe|]; [|done].
  unfold ordinal_transform in E.
  rewrite bind_run, (df_read_run _ _ _ H), bind_run in E.
  destruct (ordinal_apply (oe_mapping oe) X) as [e|X1]; [done|].
  cbn [lift] in E. unfold ret at 1 in E. unfold df_alloc at 1 in E.
  rewrite bind_run in E.
  rewrite (helmert_coding_run _ _ _ X1) in E.
  2:{ cbn [heap]. by rewrite lookup_app_r, Nat.sub_diag by lia. }
  cbn [self heap] in E.
  destruct (expand_loop (prefixed <$> c0 :: cs0) (relabel X1) [])
    as [[e|bin_cols] X2]; [done|].
  destruct (reindex X2 _) as [e|Y]; [done|].
  set (h := (heap w ++ [X1]) ++ [X2; Y]) in *.
  assert (HY : h !! S (length (heap w ++ [X1])) = Some Y).
  { subst h. rewrite lookup_app_r by lia.
    by replace (S (length (heap w ++ [X1])) - length (heap w ++ [X1])) with 1
      by lia. }
  assert (Hlen : ∀ Z, length (<[S (length (heap w ++ [X1])) := Z]> h)
                      = length (heap w) + 3).
  { intros Z. subst h. rewrite length_insert, !length_app. cbn [length]. lia. }
  assert (Hlen' : length h = length (heap w) + 3).
  { subst h. rewrite !length_app. cbn [length]. lia. }
  assert (Hr : length (heap w) < S (length (heap w ++ [X1]))
               < length (heap w) + 3).
  { rewrite length_app. cbn [length]. lia. }
  rewrite bind_run in E.
  destruct (drop_invariant (self w)).
  - destruct (drop_loop_run (S (length (heap w ++ [X1]))) (drop_cols (self w))
                {| self := self w; heap := h |} Y HY) as (Y' & EY & HY').
    rewrite EY in E. cbn [self heap] in E.
    destruct (drop_all (drop_cols (self w)) Y) as [e|Y2]; [done|].
    destruct (return_df (self w)).
    + injection E as <- <-. eexists. split; [done|]. cbn [heap].
      by rewrite Hlen.
    + rewrite bind_run, (df_read_run _ _ Y') in E.
      2:{ cbn [heap]. apply list_lookup_insert_eq. lia. }
      injection E as <- <-. by eexists.
  - unfold ret at 1 in E. cbv beta iota in E.
    destruct (return_df (self w)).
    + injection E as <- <-. eexists. split; [done|]. cbn [heap].
      by rewrite Hlen'.
    + rewrite bind_run, (df_read_run _ _ Y) in E by exact HY.
      injection E as <- <-. by eexists.
Qed.

(** [return_df] plays no part in the table computed. *)
Lemma transform_frame_return_df s s' X :
  drop_invariant s' = drop_invariant s →
  drop_cols s' = drop_cols s →
  cols s' = cols s →
  ordinal_encoder s' = ordinal_encoder s →
  _dim s' = _dim s →
  transform_frame s' X = transform_frame s X.
Proof.
  intros H1 H2 H3 H4 H5. unfold transform_frame, pruned.
  by rewrite H1, H2, H3, H4, H5.
Qed.

(** ** Dropping labels *)

Lemma drop_all_elem ds : ∀ X Y l,
  drop_all ds X = inr Y → l ∈ ds → l ∈ columns X.
Proof.
  induction ds as [|d ds IH]; intros X Y l E Hl; [by apply elem_of_nil in Hl|].
  cbn [drop_all] in E. unfold drop in E.
  destruct (decide (d ∈ columns X)) as [Hd|Hd]; [|done].
  apply elem_of_cons in Hl as [->|Hl]; [done|].
  specialize (IH _ _ _ E Hl).
  apply elem_columns_filter in IH as (v & Hv & _).
  apply elem_columns. by exists v.
Qed.

Lemma drop_all_ok ds : ∀ X,
  NoDup ds → (∀ l, l ∈ ds → l ∈ columns X) → ∃ Y, drop_all ds X = inr Y.
Proof.
  induction ds as [|d ds IH]; intros X Hn Hs; [by exists X|].
  apply NoDup_cons in Hn as [Hd Hn]. cbn [drop_all]. unfold drop.
  rewrite decide_True by (apply Hs; left).
  apply IH; [done|]. intros l Hl.
  assert (Hl' : l ∈ columns X) by (apply Hs; by right).
  apply elem_columns in Hl' as [v Hv]. apply elem_columns. exists v.
  apply list_elem_of_filter. split; [|done]. cbn. by intros ->.
Qed.

Lemma select_cons l v X l0 :
  select ((l, v) :: X) l0
  = if decide (l = l0) then v :: select X l0 else select X l0.
Proof.
  unfold select. rewrite filter_cons. cbn [fst].
  by destruct (decide (l = l0)).
Qed.

(** A table every label of which reads as one column has distinct labels. *)
Lemma NoDup_columns_getitem X :
  (∀ l, l ∈ columns X → ∃ v, getitem X l = inr v) → NoDup (columns X).
Proof.
  induction X as [|[l v] X IH]; intros H; [constructor|].
  assert (Hl : l ∉ columns X).
  { intros Hl. destruct (H l) as [v0 Hv0]; [left|].
    apply getitem_select in Hv0. rewrite select_cons, decide_True in Hv0 by done.
    apply select_nonempty in Hl. by injection Hv0 as _ Hv0. }
  unfold columns. cbn [fmap list_fmap fst]. apply NoDup_cons. split; [done|].
  apply IH. intros l0 Hl0. destruct (H l0) as [v0 Hv0]; [by right|].
  exists v0. apply getitem_select. apply getitem_select in Hv0.
  rewrite select_cons in Hv0. destruct (decide (l = l0)) as [->|]; done.
Qed.

Lemma invariant_labels_sublist X labels dc :
  invariant_labels X labels = inr dc → sublist dc labels.
Proof.
  revert dc. induction labels as [|x labels IH]; intros dc E; cbn in E.
  - by injection E as <-.
  - destruct (getitem X x); [done|]. destruct (var _); [done|].
    destruct (invariant_labels X labels) as [|l']; [done|].
    injection E as <-. specialize (IH _ eq_refl).
    destruct (match _ with Some _ => _ | None => _ end);
      by constructor.
Qed.

(** ** Row counts *)

Lemma drop_all_aligned n ds X Y :
  aligned n X → drop_all ds X = inr Y → aligned n Y.
Proof.
  intros Ha E. apply drop_all_filter in E as ->.
  unfold aligned in *. rewrite Forall_forall in *.
  intros c Hc. apply list_elem_of_filter in Hc as [_ Hc]. by apply Ha.
Qed.

Lemma reindex_aligned n X labels :
  aligned n X → X ≠ [] → aligned n (reindex_columns X labels).
Proof.
  intros Ha Hne. unfold aligned, reindex_columns. rewrite Forall_fmap.
  apply Forall_forall. intros l _. cbn.
  destruct (select X l) as [|v vs] eqn:E.
  - rewrite length_replicate. destruct X as [|c X]; [done|].
    unfold nrows. by apply Forall_cons in Ha as [Ha _].
  - assert (Hv : (l, v) ∈ X) by (apply select_elem; rewrite E; left).
    unfold aligned in Ha. rewrite Forall_forall in Ha. by apply (Ha _ Hv).
Qed.

Lemma reindex_aligned_inr n X labels Y :
  aligned n X → X ≠ [] → reindex X labels = inr Y → aligned n Y.
Proof.
  intros Ha Hne. unfold reindex. repeat case_decide; intros [= <-]; [done|].
  by apply reindex_aligned.
Qed.

Lemma helmert_frame_aligned n X c cs out :
  aligned n X → helmert_frame X (c :: cs) = inr out → aligned n out.
Proof.
  intros Ha E. unfold helmert_frame in E.
  destruct (expand_loop (prefixed <$> c :: cs) (relabel X) [])
    as [[e|bin] X2] eqn:El; [done|].
  destruct (expand_loop_intercepts n _ _ _ _ _ (aligned_relabel _ _ Ha) El)
    as (Ha2 & _ & _ & Hc).
  destruct (Hc (prefixed c)) as [[Hin _] _]; [left|].
  eapply reindex_aligned_inr; [exact Ha2| |exact E].
  intros ->. by apply elem_of_nil in Hin.
Qed.

(** The table [transform] computes has the row count of its input. *)
Lemma transform_frame_aligned n s X out :
  aligned n X → transform_frame s X = inr out → aligned n out.
Proof.
  intros Ha E. unfold transform_frame in E.
  destruct (_dim s); [|done]. destruct (decide _); [done|].
  destruct (cols s) as [[|c cs]|]; [by injection E as <-| |by injection E as <-].
  destruct (ordinal_encoder s) as [oe|]; [|done].
  destruct (ordinal_apply (oe_mapping oe) X) as [|X1] eqn:E1; [done|].
  destruct (helmert_frame X1 (c :: cs)) as [|X2] eqn:E2; [done|].
  eapply drop_all_aligned; [|exact E].
  eapply helmert_frame_aligned; [|exact E2].
  by eapply ordinal_apply_aligned.
Qed.

(** On a table without rows [dmatrix] raises. *)
Lemma transform_frame_no_rows s X c0 cs0 :
  cols s = Some (c0 :: cs0) →
  aligned 0 X →
  ∃ e, transform_frame s X = inl e.
Proof.
  intros Hcs Ha. destruct (transform_frame s X) as [e|out] eqn:E;
    [by exists e|exfalso].
  unfold transform_frame in E. rewrite Hcs in E.
  destruct (_dim s); [|done]. destruct (decide _); [done|].
  destruct (ordinal_encoder s) as [oe|]; [|done].
  destruct (ordinal_apply (oe_mapping oe) X) as [|X1] eqn:E1; [done|].
  unfold helmert_frame in E. cbn [fmap list_fmap expand_loop] in E.
  destruct (dmatrix (prefixed c0) (relabel X1)) as [|[|row0 m]] eqn:Ed;
    [done..|].
  assert (Ha1 : aligned 0 (relabel X1)).
  { apply aligned_relabel. by eapply ordinal_apply_aligned. }
  destruct (dmatrix_design _ _ _ _ Ha1 Ed) as (codes & Hm & Hl).
  destruct codes; [|done]. done.
Qed.

(** ** Pruning after the expansion *)

(** The table computed with pruning is the table computed without, less
    the pruned labels. *)
Lemma transform_frame_prune s X X2 c0 cs0 :
  cols s = Some (c0 :: cs0) →
  transform_frame (set_drop_cols [] s) X = inr X2 →
  transform_frame s X = drop_all (pruned s) X2.
Proof.
  intros Hcs E. unfold transform_frame, pruned in *.
  cbn [set_drop_cols _dim cols ordinal_encoder drop_invariant drop_cols] in E.
  rewrite Hcs in *.
  destruct (_dim s); [|done]. destruct (decide _); [done|].
  destruct (ordinal_encoder s) as [oe|]; [|done].
  destruct (ordinal_apply (oe_mapping oe) X) as [|X1]; [done|].
  destruct (helmert_frame X1 (c0 :: cs0)) as [|Y]; [done|].
  destruct (drop_invariant s); cbn [drop_all] in E; by injection E as ->.
Qed.

Lemma transform_frame_unpruned s X out c0 cs0 :
  cols s = Some (c0 :: cs0) →
  transform_frame s X = inr out →
  ∃ X2, transform_frame (set_drop_cols [] s) X = inr X2
        ∧ drop_all (pruned s) X2 = inr out.
Proof.
  intros Hcs E. unfold transform_frame, pruned in *.
  cbn [set_drop_cols _dim cols ordinal_encoder drop_invariant drop_cols].
  rewrite Hcs in *.
  destruct (_dim s); [|done]. destruct (decide _); [done|].
  destruct (ordinal_encoder s) as [oe|]; [|done].
  destruct (ordinal_apply (oe_mapping oe) X) as [|X1]; [done|].
  destruct (helmert_frame X1 (c0 :: cs0)) as [|Y]; [done|].
  exists Y. split; [|done]. by destruct (drop_invariant s).
Qed.

(** ** [helmert_coding] without its [cols] argument *)

(** The labels of [cols] are prefixed before the test [cols is None] is
    reached; iterating over [None] raises once the copy is relabelled. *)
Lemma helmert_coding_none_run r w X :
  heap w !! r = Some X →
  helmert_coding r None w
  = (inl (TypeError "'NoneType' object is not iterable"),
     {| self := self w; heap := heap w ++ [relabel X] |}).
Proof.
  intros H. unfold helmert_coding.
  assert (Hn : ∀ Y, (heap w ++ [Y]) !! length (heap w) = Some Y).
  { intros Y. by rewrite lookup_app_r, Nat.sub_diag by lia. }
  assert (Hi : ∀ Y Z, <[length (heap w) := Z]> (heap w ++ [Y]) = heap w ++ [Z]).
  { intros Y Z. rewrite insert_app_r_alt, Nat.sub_diag by lia. done. }
  rewrite bind_run. unfold df_copy at 1. rewrite bind_run, (df_read_run _ _ _ H).
  unfold df_alloc at 1. cbn [self heap].
  rewrite bind_run. unfold df_columns at 1.
  rewrite bind_run, (df_read_run (length (heap w)) _ X) by apply Hn.
  unfold ret at 1.
  rewrite bind_run. unfold df_set_columns at 1.
  rewrite bind_run, (df_read_run (length (heap w)) _ X) by apply Hn.
  unfold df_write at 1. cbn [self heap]. rewrite Hi. fold (relabel X).
  reflexivity.
Qed.

(** Whatever [cols] is, [helmert_coding] only appends to the store, and the
    reference it returns is new. *)
Lemma helmert_coding_store r cs w X res w' :
  heap w !! r = Some X →
  helmert_coding r cs w = (res, w') →
  self w' = self w
  ∧ ∃ g, heap w' = heap w ++ g
         ∧ ∀ r', res = inr r' → length (heap w) < r' < length (heap w ++ g).
Proof.
  intros H E. destruct cs as [cs|].
  - rewrite (helmert_coding_run _ _ _ _ H) in E.
    destruct (expand_loop _ _ _) as [[e|bin] X2];
      [|destruct (reindex X2 _) as [e|Y]]; injection E as <- <-.
    + split; [done|]. eexists. split; [done|]. by intros r'.
    + split; [done|]. eexists. split; [done|]. by intros r'.
    + split; [done|]. eexists. split; [done|]. intros r' [= <-].
      rewrite length_app. cbn [length]. lia.
  - rewrite (helmert_coding_none_run _ _ _ H) in E. injection E as <- <-.
    split; [done|]. eexists. split; [done|]. by intros r'.
Qed.

Lemma relabel_NoDup X : NoDup (columns X) → NoDup (columns (relabel X)).
Proof.
  intros Hn. rewrite columns_relabel. by apply (NoDup_fmap_2 _).
Qed.

Lemma reindex_id X : NoDup (columns X) → reindex_columns X (columns X) = X.
Proof. intros Hn. by apply reindex_sub. Qed.

(** ** Running [transform] a second time *)

(** A [transform] that returned a table returns an equal table when run
    again on an equal input with the same instance, wherever the input
    sits in the store. *)
Lemma transform_again r1 w1 r2 w2 X r' w1' :
  heap w1 !! r1 = Some X →
  heap w2 !! r2 = Some X →
  self w2 = self w1 →
  transform r1 w1 = (inr (DataFrame r'), w1') →
  ∃ r'' w2' out,
    transform r2 w2 = (inr (DataFrame r''), w2')
    ∧ self w2' = self w1
    ∧ transform_frame (self w1) X = inr out
    ∧ heap w1' !! r' = Some out
    ∧ heap w2' !! r'' = Some out.
Proof.
  intros H1 H2 Hs E1.
  destruct (transform_run _ _ _ _ _ H1 E1) as (g1 & _ & out & Ht & Hy1 & _).
  cbn [yields] in Hy1.
  assert (Ht2 : transform_frame (self w2) X = inr out) by (by rewrite Hs).
  destruct (transform_complete _ _ _ _ H2 Ht2) as (res2 & w2' & E2 & Hy2).
  destruct (transform_run _ _ _ _ _ H2 E2) as (g2 & Hw2 & _).
  assert (K : ∃ r'', res2 = DataFrame r'').
  { destruct (cols (self w1)) as [[|c0 cs0]|] eqn:Hcs.
    - assert (Hd : ∃ d, _dim (self w2) = Some d).
      { unfold transform_frame in Ht2. destruct (_dim (self w2)); [|done].
        by eexists. }
      destruct Hd as [d Hd].
      rewrite (transform_passthrough_run _ _ _ _ Hd H2) in E2
        by (left; by rewrite Hs).
      destruct (decide _); [done|]. injection E2 as <- _. by eexists.
    - pose proof (transform_kind _ _ _ _ _ _ _ H1 Hcs E1) as K1.
      assert (Hcs2 : cols (self w2) = Some (c0 :: cs0)) by (by rewrite Hs).
      pose proof (transform_kind _ _ _ _ _ _ _ H2 Hcs2 E2) as K2.
      rewrite Hs in K2. destruct (return_df (self w1)).
      + destruct K2 as (r'' & -> & _). by eexists.
      + by destruct K1.
    - assert (Hd : ∃ d, _dim (self w2) = Some d).
      { unfold transform_frame in Ht2. destruct (_dim (self w2)); [|done].
        by eexists. }
      destruct Hd as [d Hd].
      rewrite (transform_passthrough_run _ _ _ _ Hd H2) in E2
        by (right; by rewrite Hs).
      destruct (decide _); [done|]. injection E2 as <- _. by eexists. }
  destruct K as [r'' ->]. exists r'', w2', out.
  split; [done|]. split; [by rewrite Hw2|]. done.
Qed.

(** ** Labels of the blocks *)

Lemma blocks_labels_NoDup cs Bs :
  NoDup cs →
  Forall2 (λ c B, ∃ n, columns B = expanded (prefixed c) <$> seq 0 n) cs Bs →
  NoDup (columns (concat Bs))
  ∧ ∀ l, l ∈ columns (concat Bs) →
         ∃ c d, c ∈ cs ∧ l = expanded (prefixed c) d.
Proof.
  intros Hn HF. induction HF as [|c B cs Bs [n HB] HF IH].
  - split; [constructor|]. intros l Hl. by apply elem_of_nil in Hl.
  - apply NoDup_cons in Hn as [Hc Hn]. destruct (IH Hn) as [IH1 IH2].
    cbn [concat]. rewrite columns_app, HB. split.
    + apply NoDup_app. split; [|split; [|exact IH1]].
      * apply NoDup_fmap_2_strong; [|apply NoDup_seq].
        intros d d' _ _ Hd. by apply expanded_inj in Hd as [_ ?].
      * intros l Hl Hl'. apply list_elem_of_fmap in Hl as (d & -> & _).
        destruct (IH2 _ Hl') as (c' & d' & Hc' & Hd').
        apply expanded_inj in Hd' as [Hd' _]. apply prefixed_inj in Hd'.
        by subst c'.
    + intros l Hl. apply elem_of_app in Hl as [Hl|Hl].
      * apply list_elem_of_fmap in Hl as (d & -> & _). exists c, d.
        split; [left|done].
      * destruct (IH2 _ Hl) as (c' & d' & Hc' & ->). exists c', d'.
        split; [by right|done].
Qed.

(** ** The variance of a single cell *)

Lemma var_single_cell c : var [c] = inr None ∨ ∃ e, var [c] = inl e.
Proof. destruct c; [right; by eexists|by left..]. Qed.

(** * The claims *)

(** C1, as the code has it. On a fitted encoder, for a selected column that
    takes exactly its trained values in the transform input (labels
    distinct, none clashing with an expanded label), the row of a category
    with code [r] holds, in the expanded column at position [d] of the [k]
    positions, the value [contrast_value r d]: 1 at position 0, then [-1]
    when [r <= d], [d] when [r = d + 1] and 0 when [r > d + 1], for every
    position that is not pruned. *)
Theorem transform_trained_rows w r X F cs res w' c vs xs d :
  fitted_by F (self w) →
  cols (self w) = Some cs →
  NoDup cs →
  NoDup (columns X) →
  no_clash cs X = true →
  heap w !! r = Some X →
  transform r w = (inr res, w') →
  c ∈ cs →
  getitem F c = inr vs →
  getitem X c = inr xs →
  (∀ v, v ∈ xs ↔ v ∈ vs) →
  d < length (learn vs) →
  expanded (prefixed c) d ∉ pruned (self w) →
  ∃ out col,
    yields w' res out
    ∧ (expanded (prefixed c) d, col) ∈ out
    ∧ ∀ i v, xs !! i = Some v →
        ∃ code, code_of (learn vs) v = Some code
                ∧ (1 ≤ code ≤ Z.of_nat (length (learn vs)))%Z
                ∧ col !! i = Some (Float (contrast_value code d)).
Proof.
  intros Hf Hcols Hcs HX Hclash H E Hc Hvs Hxs Hall Hd Hpr.
  destruct (transform_run _ _ _ _ _ H E) as (g & Hw & out & Hout & Hy & Hr).
  destruct (fitted_cols _ _ _ Hf Hcols) as (ms & Hoe & Hms & _ & Hmap).
  destruct cs as [|c0 cs0]; [by apply elem_of_nil in Hc|].
  destruct (Hmap c Hc) as (vs' & Hvs' & Hm).
  rewrite Hvs in Hvs'. injection Hvs' as <-.
  destruct (transform_cells _ _ _ _ _ _ c (learn vs) xs d
              Hcols Hoe Hms Hcs HX Hclash Hout Hc Hm Hxs)
    as (col & Hin & _ & Hcell); [|done|].
  { rewrite (codes_all_trained _ _ Hall), length_seqZ. lia. }
  exists out, col. split; [done|]. split; [done|].
  intros i v Hi.
  destruct (learn_seen vs v) as (code & Hcode & Hrange).
  { apply Hall. by eapply list_elem_of_lookup_2. }
  exists code. split; [done|]. split; [done|].
  rewrite (Hcell i v Hi). by rewrite (rank_trained _ _ _ _ Hall Hcode Hrange).
Qed.

Lemma transform_trained_rows_witness :
  let X := colours ["blue"; "red"; "green"; "red"] in
  let w := after_fit plain rgb X in
  let w' := after_transform plain rgb X in
  let vs := Str <$> ["red"; "green"; "blue"] in
  let xs := Str <$> ["blue"; "red"; "green"; "red"] in
  fitted_by rgb (self w)
  ∧ cols (self w) = Some ["color"]
  ∧ NoDup (columns X)
  ∧ no_clash ["color"] X = true
  ∧ heap w !! 1 = Some X
  ∧ transform 1 w = (inr (DataFrame 4), w')
  ∧ getitem rgb "color" = inr vs
  ∧ getitem X "color" = inr xs
  ∧ (∀ v, v ∈ xs ↔ v ∈ vs)
  ∧ 2 < length (learn vs)
  ∧ ∃ out col,
      yields w' (DataFrame 4) out
      ∧ (expanded (prefixed "color") 2, col) ∈ out
      ∧ ∀ i v, xs !! i = Some v →
          ∃ code, code_of (learn vs) v = Some code
                  ∧ (1 ≤ code ≤ Z.of_nat (length (learn vs)))%Z
                  ∧ col !! i = Some (Float (contrast_value code 2)).
Proof.
  intros X w w' vs xs.
  assert (Hf : fitted_by rgb (self w)) by (apply after_fit_fitted; computed).
  assert (Hc : cols (self w) = Some ["color"]) by computed.
  assert (Hcs : NoDup ["color"]) by decided.
  assert (HX : NoDup (columns X)) by decided.
  assert (Hcl : no_clash ["color"] X = true) by computed.
  assert (H : heap w !! 1 = Some X) by computed.
  assert (E : transform 1 w = (inr (DataFrame 4), w')) by computed.
  assert (Hin : "color" ∈ ["color"]) by decided.
  assert (Hvs : getitem rgb "color" = inr vs) by computed.
  assert (Hxs : getitem X "color" = inr xs) by computed.
  assert (Hall : ∀ v, v ∈ xs ↔ v ∈ vs) by (apply same_elements; decided).
  assert (Hd : 2 < length (learn vs)) by (vm_compute; lia).
  assert (Hpr : expanded (prefixed "color") 2 ∉ pruned (self w)) by decided.
  split; [exact Hf|]. split; [exact Hc|]. split; [exact HX|].
  split; [exact Hcl|]. split; [exact H|]. split; [exact E|].
  split; [exact Hvs|]. split; [exact Hxs|]. split; [exact Hall|].
  split; [exact Hd|].
  exact (transform_trained_rows w 1 X rgb ["color"] _ w' "color" vs xs 2
           Hf Hc Hcs HX Hcl H E Hin Hvs Hxs Hall Hd Hpr).
Defined.

(** The claim as stated fails twice. Fitted on three categories and given
    the same three, the encoder emits the rows [1,-1,-1], [1,1,-1] and
    [1,0,2], not the rows [1,-1/2,-1/3], [1,1/2,-1/3] and [1,0,2/3] of the
    specification; given the third category alone, it emits the single
    value 1, not a row of three values; given the first category next to
    an unseen one, it emits [1, 1] for the first category. *)
Lemma transform_trained_rows_counterexample :
  (∃ r1 r2 r3,
     fit_transform plain rgb rgb
     = inr (Some ["col_color_0"; "col_color_1"; "col_color_2"], [r1; r2; r3])
     ∧ row_is r1 [1; -1; -1]%Q = true
     ∧ row_is r2 [1; 1; -1]%Q = true
     ∧ row_is r3 [1; 0; 2]%Q = true
     ∧ row_is r1 (spec_contrast 1 <$> [0; 1; 2]) = false
     ∧ row_is r2 (spec_contrast 2 <$> [0; 1; 2]) = false
     ∧ row_is r3 (spec_contrast 3 <$> [0; 1; 2]) = false)
  ∧ spec_contrast 3 <$> [0; 1; 2] = [1; 0; 2 # 3]%Q
  ∧ fit_transform plain rgb (colours ["blue"])
    = inr (Some ["col_color_0"], [[Float 1]])
  ∧ fit_transform plain rgb (colours ["red"; "pink"])
    = inr (Some ["col_color_0"; "col_color_1"],
           [[Float 1; Float 1]; [Float 1; Float (-1)]]).
Proof.
  split; [|repeat split; computed].
  eexists _, _, _. split; [computed|]. repeat split; computed.
Qed.

(** C2, as the code has it. With pruning disabled, a fitted encoder and an
    input whose labels are distinct and clash with no expanded label, each
    selected column expands to as many columns as its codes take distinct
    values in the transform input; that number is the number of distinct
    training categories when the input column takes exactly the trained
    values. *)
Theorem transform_block_widths w r X F cs res w' :
  fitted_by F (self w) →
  cols (self w) = Some cs →
  cs ≠ [] →
  drop_invariant (self w) = false →
  NoDup cs →
  NoDup (columns X) →
  no_clash cs X = true →
  heap w !! r = Some X →
  transform r w = (inr res, w') →
  ∃ out Bs,
    yields w' res out
    ∧ out = concat Bs ++ passthrough cs X
    ∧ Forall2 (λ c B, ∃ vs xs,
          getitem F c = inr vs
          ∧ getitem X c = inr xs
          ∧ columns B
            = expanded (prefixed c)
                <$> seq 0 (length (remove_dups (codes_of (learn vs) xs)))
          ∧ ((∀ v, v ∈ xs ↔ v ∈ vs) →
             length (remove_dups (codes_of (learn vs) xs))
             = length (remove_dups vs)))
        cs Bs.
Proof.
  intros Hf Hcols Hne Hdi Hcs HX Hclash H E.
  destruct (transform_run _ _ _ _ _ H E) as (g & Hw & out & Hout & Hy & Hr).
  destruct (fitted_cols _ _ _ Hf Hcols) as (ms & Hoe & Hms & Hd & Hmap).
  destruct cs as [|c0 cs0]; [done|].
  destruct (transform_frame_blocks _ _ _ _ _ _ Hcols Hoe Hms Hcs HX Hclash Hout)
    as (Bs & -> & HBs).
  unfold pruned in *. rewrite Hdi in *.
  rewrite filter_all in Hy by (intros c _; apply not_elem_of_nil).
  eexists. exists Bs. split; [exact Hy|]. split; [done|].
  eapply Forall2_same_length_lookup_2; [by eapply Forall2_length|].
  intros i c B Hc HB.
  destruct (Forall2_lookup_lr _ _ _ _ _ _ HBs Hc HB)
    as (m & xs & Hm & Hxs & _ & ->).
  destruct (Hmap c) as (vs & Hvs & Hm'); [by eapply list_elem_of_lookup_2|].
  cbn [oe_mapping] in Hm. rewrite Hm' in Hm. injection Hm as <-.
  exists vs, xs. split; [done|]. split; [done|]. split.
  - by rewrite columns_block_of, length_levels.
  - intros Hall. rewrite <- length_levels, (codes_all_trained _ _ Hall).
    rewrite length_seqZ, Nat2Z.id. apply length_learn.
Qed.

Lemma transform_block_widths_witness :
  let X := colours ["red"; "blue"] in
  let w := after_fit plain rgrb X in
  let w' := after_transform plain rgrb X in
  fitted_by rgrb (self w)
  ∧ cols (self w) = Some ["color"]
  ∧ drop_invariant (self w) = false
  ∧ NoDup (columns X)
  ∧ no_clash ["color"] X = true
  ∧ heap w !! 1 = Some X
  ∧ transform 1 w = (inr (DataFrame 4), w')
  ∧ ∃ out Bs,
      yields w' (DataFrame 4) out
      ∧ out = concat Bs ++ passthrough ["color"] X
      ∧ Forall2 (λ c B, ∃ vs xs,
            getitem rgrb c = inr vs
            ∧ getitem X c = inr xs
            ∧ columns B
              = expanded (prefixed c)
                  <$> seq 0 (length (remove_dups (codes_of (learn vs) xs)))
            ∧ ((∀ v, v ∈ xs ↔ v ∈ vs) →
               length (remove_dups (codes_of (learn vs) xs))
               = length (remove_dups vs)))
          ["color"] Bs.
Proof.
  intros X w w'.
  assert (Hf : fitted_by rgrb (self w)) by (apply after_fit_fitted; computed).
  assert (Hc : cols (self w) = Some ["color"]) by computed.
  assert (Hne : ["color"] ≠ []) by discriminate.
  assert (Hdi : drop_invariant (self w) = false) by computed.
  assert (Hcs : NoDup ["color"]) by decided.
  assert (HX : NoDup (columns X)) by decided.
  assert (Hcl : no_clash ["color"] X = true) by computed.
  assert (H : heap w !! 1 = Some X) by computed.
  assert (E : transform 1 w = (inr (DataFrame 4), w')) by computed.
  split; [exact Hf|]. split; [exact Hc|]. split; [exact Hdi|].
  split; [exact HX|]. split; [exact Hcl|]. split; [exact H|].
  split; [exact E|].
  exact (transform_block_widths w 1 X rgrb ["color"] _ w'
           Hf Hc Hne Hdi Hcs HX Hcl H E).
Defined.

(** The claim as stated fails on the example of the specification: fitted
    on red, green, red, blue (three categories), the encoder expands the
    input red, blue to two columns, with rows [1, -1] and [1, 1]. *)
Lemma transform_block_widths_counterexample :
  length (remove_dups (Str <$> ["red"; "green"; "red"; "blue"])) = 3
  ∧ fit_transform plain rgrb (colours ["red"; "blue"])
    = inr (Some ["col_color_0"; "col_color_1"],
           [[Float 1; Float (-1)]; [Float 1; Float 1]]).
Proof. split; computed. Qed.

(** C3, as the code has it (the ordinal encoder as the spec describes it).
    With pruning disabled, on a table that has the selected columns, their
    labels made of letters, digits and underscores (the label is pasted
    into the text of a formula and has to read as one name), the fit-time
    column count, at least one row and distinct labels that clash with no
    expanded label, [transform] returns whether or not a category is
    unseen. An unseen value is coded 0, and 0 counts as one more level,
    the lowest: every cell of the expanded columns holds the value
    [contrast_value] gives for the rank of the row's code among the codes
    present in the input, and the row of an unseen value holds 1 at
    position 0 and [-1] at every other position. No cell is missing. *)
Theorem transform_unseen_rows w r X F cs n :
  fitted_by F (self w) →
  cols (self w) = Some cs →
  drop_invariant (self w) = false →
  NoDup cs →
  (∀ c, c ∈ cs → name_chars c = true) →
  NoDup (columns X) →
  no_clash cs X = true →
  (∀ c, c ∈ cs → c ∈ columns X) →
  ncols X = ncols F →
  aligned n X →
  0 < n →
  heap w !! r = Some X →
  ∃ res w' out,
    transform r w = (inr res, w')
    ∧ yields w' res out
    ∧ ∀ c vs xs d,
        c ∈ cs →
        getitem F c = inr vs →
        getitem X c = inr xs →
        d < length (remove_dups (codes_of (learn vs) xs)) →
        ∃ col,
          (expanded (prefixed c) d, col) ∈ out
          ∧ length col = n
          ∧ ∀ i v, xs !! i = Some v →
              col !! i
              = Some (Float (contrast_value
                  (rank_in (codes_of (learn vs) xs)
                     (default unseen_code (code_of (learn vs) v))) d))
              ∧ (v ∉ vs →
                 col !! i
                 = Some (Float (inject_Z (if decide (d = 0) then 1 else -1)))).
Proof.
  intros Hf Hcols Hdi Hcs Hnames HX Hclash Hsub Hdim Ha Hn H.
  assert (Hpr : pruned (self w) = []) by (unfold pruned; by rewrite Hdi).
  destruct (transform_frame_ok _ _ _ _ _ Hf Hcols Hpr Hcs Hnames HX Hclash Hsub
              Hdim Ha Hn)
    as (out & Hout).
  destruct (transform_complete _ _ _ _ H Hout) as (res & w' & E & Hy).
  exists res, w', out. split; [done|]. split; [done|].
  intros c vs xs d Hc Hvs Hxs Hd.
  destruct (fitted_cols _ _ _ Hf Hcols) as (ms & Hoe & Hms & _ & Hmap).
  destruct cs as [|c0 cs0]; [by apply elem_of_nil in Hc|].
  destruct (Hmap c Hc) as (vs' & Hvs' & Hm).
  rewrite Hvs in Hvs'. injection Hvs' as <-.
  destruct (transform_cells _ _ _ _ _ _ c (learn vs) xs d
              Hcols Hoe Hms Hcs HX Hclash Hout Hc Hm Hxs)
    as (col & Hin & Hlen & Hcell).
  { by rewrite length_levels. }
  { rewrite Hpr. apply not_elem_of_nil. }
  exists col. split; [done|]. split.
  { rewrite Hlen. by eapply aligned_getitem. }
  intros i v Hi. split; [by apply Hcell|].
  intros Hv. rewrite (Hcell i v Hi), (rank_unseen _ _ _ _ Hi Hv).
  by rewrite contrast_value_first.
Qed.

Lemma transform_unseen_rows_witness :
  let X := colours ["a"; "d"] in
  let w := after_fit plain abc X in
  fitted_by abc (self w)
  ∧ cols (self w) = Some ["color"]
  ∧ drop_invariant (self w) = false
  ∧ (∀ c, c ∈ ["color"] → name_chars c = true)
  ∧ NoDup (columns X)
  ∧ no_clash ["color"] X = true
  ∧ (∀ c, c ∈ ["color"] → c ∈ columns X)
  ∧ ncols X = ncols abc
  ∧ aligned 2 X
  ∧ heap w !! 1 = Some X
  ∧ ∃ res w' out,
      transform 1 w = (inr res, w')
      ∧ yields w' res out
      ∧ ∀ c vs xs d,
          c ∈ ["color"] →
          getitem abc c = inr vs →
          getitem X c = inr xs →
          d < length (remove_dups (codes_of (learn vs) xs)) →
          ∃ col,
            (expanded (prefixed c) d, col) ∈ out
            ∧ length col = 2
            ∧ ∀ i v, xs !! i = Some v →
                col !! i
                = Some (Float (contrast_value
                    (rank_in (codes_of (learn vs) xs)
                       (default unseen_code (code_of (learn vs) v))) d))
                ∧ (v ∉ vs →
                   col !! i
                   = Some (Float (inject_Z (if decide (d = 0) then 1 else -1)))).
Proof.
  intros X w.
  assert (Hf : fitted_by abc (self w)) by (apply after_fit_fitted; computed).
  assert (Hc : cols (self w) = Some ["color"]) by computed.
  assert (Hdi : drop_invariant (self w) = false) by computed.
  assert (Hcs : NoDup ["color"]) by decided.
  assert (Hnames : ∀ c, c ∈ ["color"] → name_chars c = true).
  { intros c ->%list_elem_of_singleton. computed. }
  assert (HX : NoDup (columns X)) by decided.
  assert (Hcl : no_clash ["color"] X = true) by computed.
  assert (Hsub : ∀ c, c ∈ ["color"] → c ∈ columns X).
  { intros c ->%list_elem_of_singleton. decided. }
  assert (Hdim : ncols X = ncols abc) by computed.
  assert (Ha : aligned 2 X) by (unfold aligned; decided).
  assert (Hn : 0 < 2) by lia.
  assert (H : heap w !! 1 = Some X) by computed.
  split; [exact Hf|]. split; [exact Hc|]. split; [exact Hdi|].
  split; [exact Hnames|].
  split; [exact HX|]. split; [exact Hcl|]. split; [exact Hsub|].
  split; [exact Hdim|]. split; [exact Ha|]. split; [exact H|].
  exact (transform_unseen_rows w 1 X abc ["color"] 2
           Hf Hc Hdi Hcs Hnames HX Hcl Hsub Hdim Ha Hn H).
Defined.

(** The claim as stated fails: fitted on a, b, c and given a, b, c, d, the
    encoder expands to four columns; the row of the unseen d is
    [1,-1,-1,-1], with no missing value, and the rows of a, b and c are
    the rows of ranks 2, 3 and 4 of the four-level design, not the rows of
    the three trained categories. *)
Lemma transform_unseen_rows_counterexample :
  fit_transform plain abc (colours ["a"; "b"; "c"; "d"])
  = inr (Some ["col_color_0"; "col_color_1"; "col_color_2"; "col_color_3"],
         [[Float 1; Float 1; Float (-1); Float (-1)];
          [Float 1; Float 0; Float 2; Float (-1)];
          [Float 1; Float 0; Float 0; Float 3];
          [Float 1; Float (-1); Float (-1); Float (-1)]])
  ∧ fit_transform plain abc abc
    = inr (Some ["col_color_0"; "col_color_1"; "col_color_2"],
           [[Float 1; Float (-1); Float (-1)];
            [Float 1; Float 1; Float (-1)];
            [Float 1; Float 0; Float 2]]).
Proof. split; computed. Qed.

(** C4, as the code has it. When [drop_invariant] is set and [fit]
    returns, every label it stores in [drop_cols] is a label of the
    unpruned fit-time transform, and the test is against [10e-5], that is
    1/10000 and not 1/100000: a column without a variance (fewer than two
    values) is not marked; a column of at most 1000 numbers of magnitude
    at most 100 is marked when its sample variance is at most 0.000099,
    and when it is marked its sample variance is at most 0.000101. The
    margin of one hundredth around 1/10000 is far wider than the rounding
    of the [float64] computation on such a column. *)
Theorem fit_marks_low_variance w0 r0 F w1 :
  heap w0 !! r0 = Some F →
  drop_invariant (self w0) = true →
  fit r0 w0 = (inr (), w1) →
  ∃ res wt X_temp,
    transform r0 {| self := set_drop_cols [] (self w1); heap := heap w0 |}
    = (inr res, wt)
    ∧ yields wt res X_temp
    ∧ (∀ l, l ∈ drop_cols (self w1) → l ∈ columns X_temp)
    ∧ ∀ l v,
        getitem X_temp l = inr v →
        (var v = inr None → l ∉ drop_cols (self w1))
        ∧ ∀ q,
            var v = inr (Some q) →
            small_column v = true →
            ((q <= 99 # 1000000)%Q → l ∈ drop_cols (self w1))
            ∧ (l ∈ drop_cols (self w1) → (q <= 101 # 1000000)%Q).
Proof.
  intros H Hdi E.
  destruct (fit_run _ _ _ _ _ H E) as (g & _ & ms & _ & Hs).
  rewrite Hdi in Hs. destruct Hs as (X_temp & HX & dc & Hdc & Hs).
  rewrite Hs. cbn [drop_cols set_drop_cols].
  destruct (transform_complete r0
              {| self := set_drop_cols [] (self w1); heap := heap w0 |} F X_temp)
    as (res & wt & Et & Hy); [done|by rewrite Hs|].
  rewrite Hs in Et. exists res, wt, X_temp. split; [exact Et|]. split; [done|].
  destruct (invariant_labels_spec _ _ _ Hdc) as [_ Hspec].
  split.
  { intros l Hl. by apply Hspec in Hl as [Hl _]. }
  intros l v Hv. split.
  { intros Hnone Hl. apply Hspec in Hl as (_ & v' & q & Hv' & Hq & _).
    rewrite Hv in Hv'. injection Hv' as <-. by rewrite Hnone in Hq. }
  intros q Hq _. split.
  - intros Hle. apply Hspec. split.
    { apply elem_columns. exists v. by apply getitem_elem. }
    exists v, q. split; [done|]. split; [done|].
    eapply Qle_trans; [exact Hle|]. by vm_compute.
  - intros Hl. apply Hspec in Hl as (_ & v' & q' & Hv' & Hq' & Hle).
    rewrite Hv in Hv'. injection Hv' as <-.
    rewrite Hq in Hq'. injection Hq' as <-.
    eapply Qle_trans; [exact Hle|]. by vm_compute.
Qed.

Lemma fit_marks_low_variance_witness :
  let F := [("color", [Str "a"; Str "b"]); ("x", [Float 0; Float (1 # 100)])] in
  let w0 := before_fit pruning F F in
  let w1 := after_fit pruning F F in
  heap w0 !! 0 = Some F
  ∧ drop_invariant (self w0) = true
  ∧ fit 0 w0 = (inr (), w1)
  ∧ drop_cols (self w1) = ["col_color_0"; "col_x"]
  ∧ small_column [Float 0; Float (1 # 100)] = true
  ∧ ∃ res wt X_temp,
      transform 0 {| self := set_drop_cols [] (self w1); heap := heap w0 |}
      = (inr res, wt)
      ∧ yields wt res X_temp
      ∧ (∀ l, l ∈ drop_cols (self w1) → l ∈ columns X_temp)
      ∧ ∀ l v,
          getitem X_temp l = inr v →
          (var v = inr None → l ∉ drop_cols (self w1))
          ∧ ∀ q,
              var v = inr (Some q) →
              small_column v = true →
              ((q <= 99 # 1000000)%Q → l ∈ drop_cols (self w1))
              ∧ (l ∈ drop_cols (self w1) → (q <= 101 # 1000000)%Q).
Proof.
  intros F w0 w1.
  assert (H : heap w0 !! 0 = Some F) by computed.
  assert (Hdi : drop_invariant (self w0) = true) by computed.
  assert (E : fit 0 w0 = (inr (), w1)) by computed.
  split; [exact H|]. split; [exact Hdi|]. split; [exact E|].
  split; [computed|]. split; [computed|].
  exact (fit_marks_low_variance w0 0 F w1 H Hdi E).
Defined.

(** The claim as stated fails: the column [x] with the values 0 and 0.01
    has the sample variance 1/20000, above 1/100000, and [fit] marks it. *)
Lemma fit_marks_low_variance_counterexample :
  let F := [("color", [Str "a"; Str "b"]); ("x", [Float 0; Float (1 # 100)])] in
  let w1 := after_fit pruning F F in
  (fit 0 (before_fit pruning F F)).1 = inr ()
  ∧ fit_transform (init 0 (Some ["color"]) false true) F F
    = inr (Some ["col_color_0"; "col_color_1"; "col_x"],
           [[Float 1; Float (-1); Float 0];
            [Float 1; Float 1; Float (1 # 100)]])
  ∧ "col_x" ∈ drop_cols (self w1)
  ∧ ∃ q, var [Float 0; Float (1 # 100)] = inr (Some q)
         ∧ (q == 1 # 20000)%Q
         ∧ ¬ (q <= 1 # 100000)%Q.
Proof.
  intros F w1. split; [computed|]. split; [computed|]. split; [decided|].
  eexists. split; [computed|]. split; [computed|].
  intros Hle. apply Qle_bool_iff in Hle. vm_compute in Hle. discriminate.
Qed.

(** C5, as the code has it. When [drop_invariant] is set and [fit] returns
    on a table with at least two rows, the intercept label of every
    selected column is stored in [drop_cols], and no table returned by a
    later [transform] of the instance has a column under that label. *)
Theorem fit_prunes_intercept w0 r0 F w1 n c :
  heap w0 !! r0 = Some F →
  drop_invariant (self w0) = true →
  aligned n F →
  2 ≤ n →
  fit r0 w0 = (inr (), w1) →
  c ∈ default [] (cols (self w1)) →
  expanded (prefixed c) 0 ∈ drop_cols (self w1)
  ∧ ∀ w r X r' w' out,
      self w = self w1 →
      heap w !! r = Some X →
      transform r w = (inr (DataFrame r'), w') →
      heap w' !! r' = Some out →
      expanded (prefixed c) 0 ∉ columns out.
Proof.
  intros H Hdi Ha Hn E Hc.
  destruct (fit_run _ _ _ _ _ H E) as (g & _ & ms & _ & Hs).
  rewrite Hdi in Hs. destruct Hs as (X_temp & HX & dc & Hdc & Hs).
  rewrite Hs in Hc |- *. cbn [cols drop_cols set_drop_cols set_ordinal_encoder
                               resolved set_cols default from_option id] in Hc |- *.
  destruct (resolved_cols (self w0) F) as [|c0 cs0] eqn:Ecs;
    [by apply elem_of_nil in Hc|].
  assert (Hin : expanded (prefixed c) 0 ∈ dc).
  { set (s := set_drop_cols [] _) in HX.
    assert (Hcols : cols s = Some (c0 :: cs0)) by (cbn; by rewrite Ecs).
    assert (Hpr : pruned s = []) by (unfold pruned; cbn; by rewrite Hdi).
    destruct (transform_frame_intercept _ _ _ n c c0 cs0 Hcols Hpr Ha HX Hc)
      as [Hl Hones].
    destruct (invariant_labels_spec _ _ _ Hdc) as [Hall Hiff].
    apply Hiff. split; [done|].
    destruct (Hall _ Hl) as (v & s2 & Hv & _).
    rewrite (Hones v (getitem_elem _ _ _ Hv)) in Hv.
    destruct (var_ones n Hn) as (q & Hq & Hle).
    by exists (replicate n (Float 1)), q. }
  split; [done|].
  intros w r X r' w' out Hself HwX Et Hout.
  destruct (transform_run _ _ _ _ _ HwX Et) as (g' & _ & out' & Ho & Hy & _).
  cbn [yields] in Hy. rewrite Hout in Hy. injection Hy as <-.
  rewrite Hself in Ho.
  eapply (transform_frame_pruned _ _ _ c0 cs0); [|exact Ho|].
  - cbn. by rewrite Ecs.
  - unfold pruned. cbn. by rewrite Hdi.
Qed.

Lemma fit_prunes_intercept_witness :
  let F := colours ["a"; "b"] in
  let w0 := before_fit pruning F F in
  let w1 := after_fit pruning F F in
  heap w0 !! 0 = Some F
  ∧ drop_invariant (self w0) = true
  ∧ aligned 2 F
  ∧ fit 0 w0 = (inr (), w1)
  ∧ "color" ∈ default [] (cols (self w1))
  ∧ expanded (prefixed "color") 0 ∈ drop_cols (self w1)
  ∧ ∀ w r X r' w' out,
      self w = self w1 →
      heap w !! r = Some X →
      transform r w = (inr (DataFrame r'), w') →
      heap w' !! r' = Some out →
      expanded (prefixed "color") 0 ∉ columns out.
Proof.
  intros F w0 w1.
  assert (H : heap w0 !! 0 = Some F) by computed.
  assert (Hdi : drop_invariant (self w0) = true) by computed.
  assert (Ha : aligned 2 F) by (unfold aligned; decided).
  assert (Hn : 2 ≤ 2) by lia.
  assert (E : fit 0 w0 = (inr (), w1)) by computed.
  assert (Hc : "color" ∈ default [] (cols (self w1))) by decided.
  split; [exact H|]. split; [exact Hdi|]. split; [exact Ha|].
  split; [exact E|]. split; [exact Hc|].
  exact (fit_prunes_intercept w0 0 F w1 2 "color" H Hdi Ha Hn E Hc).
Defined.

(** The claim as stated fails on a fit table with one row: the variance of
    the intercept column is undefined there, [fit] marks nothing, and the
    intercept column stays in the output of [transform]. *)
Lemma fit_prunes_intercept_counterexample :
  let F := colours ["a"] in
  drop_invariant pruning = true
  ∧ (fit 0 (before_fit pruning F F)).1 = inr ()
  ∧ drop_cols (self (after_fit pruning F F)) = []
  ∧ fit_transform pruning F F = inr (Some ["col_color_0"], [[Float 1]]).
Proof. intros F. repeat split; computed. Qed.

(** C6, as the code has it. The two validation errors of [transform] are
    raised exactly on their conditions: the not-fitted error if and only if
    no dimension is recorded, the dimension error if and only if one is
    recorded and the input's column count differs from it; in both cases
    the store and the instance are left as they were. Errors of the later
    steps are different errors. *)
Theorem transform_validation_errors w r X res w' :
  heap w !! r = Some X →
  transform r w = (res, w') →
  (res = inl not_fitted ↔ _dim (self w) = None)
  ∧ ((∃ n d, res = inl (bad_dimension n d))
     ↔ ∃ d, _dim (self w) = Some d ∧ ncols X ≠ d)
  ∧ (_dim (self w) = None ∨ (∃ d, _dim (self w) = Some d ∧ ncols X ≠ d) →
     w' = w ∧ ∃ e, res = inl e).
Proof.
  intros H E.
  assert (Hnone : _dim (self w) = None → res = inl not_fitted ∧ w' = w).
  { intros Hd. rewrite (transform_unfitted_run _ _ Hd) in E.
    by injection E as <- <-. }
  assert (Hbad : ∀ d, _dim (self w) = Some d → ncols X ≠ d →
                      res = inl (bad_dimension (ncols X) d) ∧ w' = w).
  { intros d Hd Hn. rewrite (transform_guard_run _ _ _ _ Hd H Hn) in E.
    by injection E as <- <-. }
  assert (Hcases : ∀ e, res = inl e →
            (e = not_fitted ∧ _dim (self w) = None)
            ∨ (∃ d, e = bad_dimension (ncols X) d ∧ _dim (self w) = Some d
                    ∧ ncols X ≠ d)
            ∨ (late_error e ∧ _dim (self w) = Some (ncols X))).
  { intros e ->. destruct (transform_run _ _ _ _ _ H E) as (g & _ & He).
    by apply transform_frame_error. }
  split; [|split].
  - split; [|by intros Hd; apply Hnone].
    intros Hr. destruct (Hcases _ Hr) as [[_ ?]|[(d & He & _)|[[Hl _] _]]];
      [done|discriminate He|by destruct Hl].
  - split.
    + intros (n & d & Hr).
      destruct (Hcases _ Hr) as [[He _]|[(d' & _ & ? & ?)|[[_ Hl] _]]];
        [discriminate He|by exists d'|by destruct Hl].
    + intros (d & Hd & Hn). exists (ncols X), d. by apply Hbad.
  - intros [Hd|(d & Hd & Hn)].
    + destruct (Hnone Hd) as [-> ->]. eauto.
    + destruct (Hbad d Hd Hn) as [-> ->]. eauto.
Qed.

Lemma transform_validation_errors_witness :
  (let X := [("color", [Str "red"]); ("size", [Int 1])] in
   let w := after_fit plain rgb X in
   let res := inl (ValueError "Unexpected input dimension 2, expected 1") in
   heap w !! 1 = Some X
   ∧ transform 1 w = (res, w)
   ∧ (res = inl not_fitted ↔ _dim (self w) = None)
   ∧ ((∃ n d, res = inl (bad_dimension n d))
      ↔ ∃ d, _dim (self w) = Some d ∧ ncols X ≠ d)
   ∧ (_dim (self w) = None ∨ (∃ d, _dim (self w) = Some d ∧ ncols X ≠ d) →
      w = w ∧ ∃ e, res = inl e))
  ∧ (let w := before_fit plain rgb rgb in
     let res := inl (ValueError
       "Must train encoder before it can be used to transform data.") in
     heap w !! 1 = Some rgb
     ∧ transform 1 w = (res, w)
     ∧ (res = inl not_fitted ↔ _dim (self w) = None)
     ∧ ((∃ n d, res = inl (bad_dimension n d))
        ↔ ∃ d, _dim (self w) = Some d ∧ ncols rgb ≠ d)
     ∧ (_dim (self w) = None ∨ (∃ d, _dim (self w) = Some d ∧ ncols rgb ≠ d) →
        w = w ∧ ∃ e, res = inl e)).
Proof.
  split.
  - intros X w res.
    assert (H : heap w !! 1 = Some X) by computed.
    assert (E : transform 1 w = (res, w)) by computed.
    split; [exact H|]. split; [exact E|].
    exact (transform_validation_errors w 1 X res w H E).
  - intros w res.
    assert (H : heap w !! 1 = Some rgb) by computed.
    assert (E : transform 1 w = (res, w)) by computed.
    split; [exact H|]. split; [exact E|].
    exact (transform_validation_errors w 1 rgb res w H E).
Defined.

(** The claim as stated fails: with a dimension recorded and the column
    counts equal, a fitted encoder still raises on a table without rows
    (from inside [dmatrix]) and on a table whose selected label does not
    read as a name in the formula; neither error is one of the two
    validation errors. *)
Lemma transform_validation_errors_counterexample :
  (let X := colours [] in
   let w := after_fit plain rgb X in
   (fit 0 (before_fit plain rgb X)).1 = inr ()
   ∧ _dim (self w) = Some (ncols X)
   ∧ ∃ msg, (transform 1 w).1 = inl (ValueError msg)
            ∧ ValueError msg ≠ not_fitted
            ∧ ∀ n d, ValueError msg ≠ bad_dimension n d)
  ∧ (let F := [("a-b", [Str "x"; Str "y"])] in
     let w := after_fit plain F F in
     (fit 0 (before_fit plain F F)).1 = inr ()
     ∧ cols (self w) = Some ["a-b"]
     ∧ _dim (self w) = Some (ncols F)
     ∧ ∃ msg, (transform 1 w).1 = inl (PatsyError msg)).
Proof.
  split.
  - intros X w. split; [computed|]. split; [computed|].
    eexists. split; [computed|]. split; [done|]. by intros n d.
  - intros F w. split; [computed|]. split; [computed|]. split; [computed|].
    eexists. computed.
Qed.

(** C7. On a fitted encoder (a dimension is recorded), an input whose
    column count differs from the recorded one makes [transform] raise the
    dimension error at once: nothing is allocated in the store, no output
    is produced, and the instance is left as it was. *)
Theorem transform_dimension_mismatch w r X d :
  _dim (self w) = Some d →
  heap w !! r = Some X →
  ncols X ≠ d →
  transform r w = (inl (bad_dimension (ncols X) d), w).
Proof. apply transform_guard_run. Qed.

(** C8, as the code has it. On a fitted encoder with selected columns and
    an input whose labels are distinct and clash with no expanded label,
    the output of [transform] is: the expanded blocks in the order of
    [cols], then the columns that are not selected, in their input order
    and with their input values, under their prefixed labels; from this
    sequence the pruned labels are removed. No table of the store is
    modified, the input included, and the instance is unchanged. With no
    selected column the input table itself is returned. *)
Theorem transform_output_layout w r X F cs res w' :
  fitted_by F (self w) →
  cols (self w) = Some cs →
  NoDup cs →
  NoDup (columns X) →
  no_clash cs X = true →
  heap w !! r = Some X →
  transform r w = (inr res, w') →
  self w' = self w
  ∧ (∀ r0 Y, heap w !! r0 = Some Y → heap w' !! r0 = Some Y)
  ∧ match cs with
    | [] => res = DataFrame r
    | _ =>
        ∃ out Bs,
          yields w' res out
          ∧ out = filter (λ c, c.1 ∉ pruned (self w))
                    (concat Bs ++ passthrough cs X)
          ∧ Forall2 (λ c B, ∃ n, columns B = expanded (prefixed c) <$> seq 0 n)
              cs Bs
    end.
Proof.
  intros Hf Hcols Hcs HX Hclash H E.
  destruct (transform_run _ _ _ _ _ H E) as (g & Hw & out & Hout & Hy & Hr).
  split; [by rewrite Hw|]. split.
  { intros r0 Y Hr0. rewrite Hw. cbn [heap]. by apply lookup_app_l_Some. }
  destruct (fitted_cols _ _ _ Hf Hcols) as (ms & Hoe & Hms & Hd & _).
  destruct cs as [|c0 cs0].
  - rewrite (transform_passthrough_run _ _ _ _ Hd H) in E by (by left).
    destruct (decide (ncols X ≠ ncols F)); [done|]. by injection E as <- _.
  - destruct (transform_frame_blocks _ _ _ _ _ _ Hcols Hoe Hms Hcs HX Hclash Hout)
      as (Bs & -> & HBs).
    eexists. exists Bs. split; [done|]. split; [done|].
    eapply Forall2_impl; [exact HBs|].
    intros c B (m & xs & _ & _ & _ & ->). eexists. apply columns_block_of.
Qed.

Lemma transform_output_layout_witness :
  let F := [("color", [Str "a"; Str "b"]); ("size", [Int 5; Int 6])] in
  let w := after_fit pruning F F in
  let w' := after_transform pruning F F in
  fitted_by F (self w)
  ∧ cols (self w) = Some ["color"]
  ∧ NoDup (columns F)
  ∧ no_clash ["color"] F = true
  ∧ heap w !! 1 = Some F
  ∧ transform 1 w = (inr (DataFrame 7), w')
  ∧ self w' = self w
  ∧ (∀ r0 Y, heap w !! r0 = Some Y → heap w' !! r0 = Some Y)
  ∧ ∃ out Bs,
      yields w' (DataFrame 7) out
      ∧ out = filter (λ c, c.1 ∉ pruned (self w))
                (concat Bs ++ passthrough ["color"] F)
      ∧ Forall2 (λ c B, ∃ n, columns B = expanded (prefixed c) <$> seq 0 n)
          ["color"] Bs.
Proof.
  intros F w w'.
  assert (Hf : fitted_by F (self w)) by (apply after_fit_fitted; computed).
  assert (Hc : cols (self w) = Some ["color"]) by computed.
  assert (Hcs : NoDup ["color"]) by decided.
  assert (HX : NoDup (columns F)) by decided.
  assert (Hcl : no_clash ["color"] F = true) by computed.
  assert (H : heap w !! 1 = Some F) by computed.
  assert (E : transform 1 w = (inr (DataFrame 7), w')) by computed.
  split; [exact Hf|]. split; [exact Hc|]. split; [exact HX|].
  split; [exact Hcl|]. split; [exact H|]. split; [exact E|].
  exact (transform_output_layout w 1 F F ["color"] _ w' Hf Hc Hcs HX Hcl H E).
Defined.

(** The claim as stated fails twice. With pruning, the output lacks the
    intercept column and the passthrough column that is constant on the
    fit table; without pruning, a passthrough column labelled like an
    expanded column is overwritten by the intercept values. *)
Lemma transform_output_layout_counterexample :
  (let F := [("color", [Str "a"; Str "b"]); ("size", [Int 5; Int 5])] in
   fit_transform pruning F F
   = inr (Some ["col_color_1"], [[Float (-1)]; [Float 1]]))
  ∧ (let F := [("color", [Str "a"; Str "b"]); ("color_0", [Int 7; Int 8])] in
     fit_transform (init 0 (Some ["color"]) false true) F F
     = inr (Some ["col_color_0"; "col_color_1"; "col_color_0"],
            [[Float 1; Float (-1); Float 1]; [Float 1; Float 1; Float 1]])).
Proof. split; computed. Qed.

(** C9. When the encoder has selected columns and [transform] returns a
    table, every label of that table is an input label with ["col_"] in
    front: a passthrough column [x] appears as ["col_" + x], which is never
    [x] itself, and an expanded column of the selected column [c] as
    ["col_" + c + "_" + position]. *)
Theorem transform_output_labels w r X c0 cs0 r' w' out l :
  cols (self w) = Some (c0 :: cs0) →
  heap w !! r = Some X →
  transform r w = (inr (DataFrame r'), w') →
  heap w' !! r' = Some out →
  l ∈ columns out →
  (∃ x, x ∈ columns X ∧ (x ∉ c0 :: cs0) ∧ l = "col_" +:+ x ∧ l ≠ x)
  ∨ (∃ c (d : nat), c ∈ c0 :: cs0 ∧ l = "col_" +:+ c +:+ "_" +:+ pretty d).
Proof.
  intros Hcols H E Hout Hl.
  destruct (transform_run _ _ _ _ _ H E) as (g & _ & out' & Ho & Hy & _).
  cbn [yields] in Hy. rewrite Hout in Hy. injection Hy as <-.
  destruct (transform_frame_labels _ _ _ _ _ _ Hcols Ho Hl)
    as [(x & Hx & Hn & ->)|(c & d & Hc & ->)].
  - left. exists x. repeat split; try done. apply prefixed_neq.
  - right. exists c, d. split; [done|]. unfold expanded, prefixed.
    by rewrite string_app_assoc.
Qed.

Lemma transform_output_labels_witness :
  let F := [("color", [Str "a"; Str "b"]); ("size", [Int 5; Int 6])] in
  let w := after_fit plain F F in
  let w' := after_transform plain F F in
  let out := [("col_color_0", [Float 1; Float 1]);
              ("col_color_1", [Float (-1); Float 1]);
              ("col_size", [Int 5; Int 6])] in
  cols (self w) = Some ["color"]
  ∧ heap w !! 1 = Some F
  ∧ transform 1 w = (inr (DataFrame 4), w')
  ∧ heap w' !! 4 = Some out
  ∧ "col_size" ∈ columns out
  ∧ ((∃ x, x ∈ columns F ∧ (x ∉ ["color"]) ∧ "col_size" = "col_" +:+ x
           ∧ "col_size" ≠ x)
     ∨ (∃ c (d : nat), c ∈ ["color"]
           ∧ "col_size" = "col_" +:+ c +:+ "_" +:+ pretty d)).
Proof.
  intros F w w' out.
  assert (Hc : cols (self w) = Some ["color"]) by computed.
  assert (H : heap w !! 1 = Some F) by computed.
  assert (E : transform 1 w = (inr (DataFrame 4), w')) by computed.
  assert (Ho : heap w' !! 4 = Some out) by computed.
  assert (Hl : "col_size" ∈ columns out) by decided.
  split; [exact Hc|]. split; [exact H|]. split; [exact E|].
  split; [exact Ho|]. split; [exact Hl|].
  exact (transform_output_labels w 1 F "color" [] 4 w' out "col_size"
           Hc H E Ho Hl).
Defined.

(** C10. An encoder built with [cols=None] stores the detected columns in
    [cols] at its first [fit]. Every later [fit] on the instance, the
    second as well as any after it and whatever else the instance has
    learned or forgotten in between, finds [cols] set and keeps that list,
    whatever table it is given. *)
Theorem fit_detects_cols_once w r F res w1 :
  cols (self w) = None →
  heap w !! r = Some F →
  fit r w = (res, w1) →
  cols (self w1) = Some (get_obj_cols F)
  ∧ ∀ w2 r2 F2 res2 w3,
      cols (self w2) = cols (self w1) →
      heap w2 !! r2 = Some F2 →
      fit r2 w2 = (res2, w3) →
      cols (self w3) = Some (get_obj_cols F)
      ∧ cols (self w3) = cols (self w1).
Proof.
  intros Hc H E. destruct (fit_cols _ _ _ _ _ H E) as [Hc1 _].
  unfold resolved_cols in Hc1. rewrite Hc in Hc1. split; [done|].
  intros w2 r2 F2 res2 w3 Hs H2 E2.
  destruct (fit_cols _ _ _ _ _ H2 E2) as [Hc3 _].
  unfold resolved_cols in Hc3. rewrite Hs, Hc1 in Hc3. by rewrite Hc1.
Qed.

Lemma fit_detects_cols_once_witness :
  let F2 := [("shape", [Str "round"]); ("n", [Int 1])] in
  let F3 := [("n", [Int 1; Int 2; Int 3])] in
  let w := {| self := plain; heap := [rgb; F2; F3] |} in
  let w1 := (fit 0 w).2 in
  let w2 := (fit 1 w1).2 in
  let w3 := (fit 2 w2).2 in
  cols (self w) = None
  ∧ heap w !! 0 = Some rgb
  ∧ fit 0 w = (inr (), w1)
  ∧ cols (self w1) = Some (get_obj_cols rgb)
  ∧ get_obj_cols F2 ≠ get_obj_cols rgb
  ∧ get_obj_cols F3 ≠ get_obj_cols rgb
  ∧ self w2 ≠ self w1
  ∧ cols (self w2) = Some (get_obj_cols rgb)
  ∧ cols (self w3) = Some (get_obj_cols rgb).
Proof.
  intros F2 F3 w w1 w2 w3.
  assert (Hc : cols (self w) = None) by computed.
  assert (H : heap w !! 0 = Some rgb) by computed.
  assert (E : fit 0 w = (inr (), w1)) by computed.
  destruct (fit_detects_cols_once w 0 rgb _ w1 Hc H E) as [H1 H2].
  assert (E2 : fit 1 w1 = ((fit 1 w1).1, w2)) by computed.
  assert (E3 : fit 2 w2 = ((fit 2 w2).1, w3)) by computed.
  assert (HF2 : heap w1 !! 1 = Some F2) by computed.
  assert (HF3 : heap w2 !! 2 = Some F3) by computed.
  destruct (H2 w1 1 F2 _ w2 eq_refl HF2 E2) as [H3 H3'].
  destruct (H2 w2 2 F3 _ w3 H3' HF3 E3) as [H4 _].
  split; [exact Hc|]. split; [exact H|]. split; [exact E|].
  split; [exact H1|]. split; [vm_compute; discriminate|].
  split; [vm_compute; discriminate|]. split; [vm_compute; discriminate|].
  split; [exact H3|exact H4].
Defined.

Lemma transform_dimension_mismatch_witness :
  let X := [("color", [Str "red"]); ("n", [Int 1])] in
  let w := after_fit plain rgb X in
  _dim (self w) = Some 1
  ∧ heap w !! 1 = Some X
  ∧ ncols X ≠ 1
  ∧ transform 1 w = (inl (bad_dimension (ncols X) 1), w).
Proof.
  intros X w.
  assert (Hd : _dim (self w) = Some 1) by computed.
  assert (H : heap w !! 1 = Some X) by computed.
  assert (Hn : ncols X ≠ 1) by (vm_compute; lia).
  split; [exact Hd|]. split; [exact H|]. split; [exact Hn|].
  exact (transform_dimension_mismatch w 1 X 1 Hd H Hn).
Defined.

(** * Further properties of the methods *)

(** ** [__init__] *)

(** X1. A newly constructed encoder is unfitted whatever its arguments:
    [transform] raises the must-train [ValueError] and leaves the instance
    and the store as they were. *)
Theorem new_encoder_is_unfitted v cs di rdf h r :
  transform r {| self := init v cs di rdf; heap := h |}
  = (inl not_fitted, {| self := init v cs di rdf; heap := h |}).
Proof. by apply transform_unfitted_run. Qed.

(** ** [transform] *)

(** X2. Whatever its outcome, an error included, [transform] assigns no
    attribute of the instance and leaves every table of the store, its
    input among them, as it was. *)
Theorem transform_keeps_instance_and_tables w r X res w' :
  heap w !! r = Some X →
  transform r w = (res, w') →
  self w' = self w
  ∧ ∀ r0 Y, heap w !! r0 = Some Y → heap w' !! r0 = Some Y.
Proof.
  intros H E. destruct (transform_run _ _ _ _ _ H E) as (g & -> & _).
  split; [done|]. intros r0 Y HY. cbn [heap]. by apply lookup_app_l_Some.
Qed.

Lemma transform_keeps_instance_and_tables_witness :
  let w := after_fit (init 0 (Some ["color"]) false true) rgb (colours []) in
  let res := inl (ValueError "negative dimensions are not allowed") in
  let w' := after_transform (init 0 (Some ["color"]) false true) rgb
              (colours []) in
  heap w !! 1 = Some (colours [])
  ∧ transform 1 w = (res, w')
  ∧ self w' = self w
  ∧ ∀ r0 Y, heap w !! r0 = Some Y → heap w' !! r0 = Some Y.
Proof.
  intros w res w'.
  assert (H : heap w !! 1 = Some (colours [])) by computed.
  assert (E : transform 1 w = (res, w')) by computed.
  split; [exact H|]. split; [exact E|].
  exact (transform_keeps_instance_and_tables w 1 (colours []) res w' H E).
Defined.

(** X3. With no selected column ([cols] empty, or never resolved),
    [transform] hands back the very table it was given and allocates
    nothing: [return_df] is not consulted and no label of [drop_cols] is
    removed. *)
Theorem transform_without_columns_is_identity w r X :
  _dim (self w) = Some (ncols X) →
  heap w !! r = Some X →
  cols (self w) = Some [] ∨ cols (self w) = None →
  transform r w = (inr (DataFrame r), w).
Proof.
  intros Hd H Hc. rewrite (transform_passthrough_run _ _ _ _ Hd H Hc).
  by rewrite decide_False by (intros Hn; by apply Hn).
Qed.

Lemma transform_without_columns_is_identity_witness :
  let F := [("size", [Int 5; Int 5])] in
  let w := after_fit (init 0 (Some []) true false) F F in
  _dim (self w) = Some (ncols F)
  ∧ heap w !! 1 = Some F
  ∧ (cols (self w) = Some [] ∨ cols (self w) = None)
  ∧ return_df (self w) = false
  ∧ drop_cols (self w) = ["size"]
  ∧ transform 1 w = (inr (DataFrame 1), w).
Proof.
  intros F w.
  assert (Hd : _dim (self w) = Some (ncols F)) by computed.
  assert (H : heap w !! 1 = Some F) by computed.
  assert (Hc : cols (self w) = Some [] ∨ cols (self w) = None)
    by (left; computed).
  split; [exact Hd|]. split; [exact H|]. split; [exact Hc|].
  split; [computed|]. split; [computed|].
  exact (transform_without_columns_is_identity w 1 F Hd H Hc).
Defined.

(** X4. [return_df] changes the representation of the result and nothing
    else: with a selected column, the array returned when it is off is
    [.values] of the table returned when it is on (the rows of that table
    in one common [dtype], so the integers of a passthrough column come
    back as floats next to the expanded columns), provided that table has
    a column left; and both runs raise the same error when one does. *)
Theorem return_df_only_changes_representation
    w1 w2 r1 r2 X c0 cs0 res1 res2 w1' w2' :
  heap w1 !! r1 = Some X →
  heap w2 !! r2 = Some X →
  cols (self w1) = Some (c0 :: cs0) →
  return_df (self w1) = true →
  self w2 = {| return_df := false;
               drop_invariant := drop_invariant (self w1);
               drop_cols := drop_cols (self w1);
               verbose := verbose (self w1);
               cols := cols (self w1);
               ordinal_encoder := ordinal_encoder (self w1);
               _dim := _dim (self w1) |} →
  transform r1 w1 = (res1, w1') →
  transform r2 w2 = (res2, w2') →
  match res1, res2 with
  | inl e1, inl e2 => e1 = e2
  | inr (DataFrame r'), inr (NDArray rows) =>
      ∃ out, heap w1' !! r' = Some out ∧ (out ≠ [] → rows = values out)
  | _, _ => False
  end.
Proof.
  intros H1 H2 Hcs Hdf Hs E1 E2.
  assert (Hcs2 : cols (self w2) = Some (c0 :: cs0)) by (by rewrite Hs).
  assert (Hdf2 : return_df (self w2) = false) by (by rewrite Hs).
  assert (Ht : transform_frame (self w2) X = transform_frame (self w1) X).
  { apply transform_frame_return_df; by rewrite Hs. }
  destruct (transform_run _ _ _ _ _ H1 E1) as (g1 & _ & Hr1).
  destruct (transform_run _ _ _ _ _ H2 E2) as (g2 & _ & Hr2).
  destruct res1 as [e1|res1], res2 as [e2|res2].
  - rewrite Ht, Hr1 in Hr2. by injection Hr2.
  - destruct Hr2 as (out & Hout & _). by rewrite Ht, Hr1 in Hout.
  - destruct Hr1 as (out & Hout & _). by rewrite <- Ht, Hr2 in Hout.
  - pose proof (transform_kind _ _ _ _ _ _ _ H1 Hcs E1) as K1.
    pose proof (transform_kind _ _ _ _ _ _ _ H2 Hcs2 E2) as K2.
    rewrite Hdf in K1. rewrite Hdf2 in K2.
    destruct K1 as (r' & -> & _). destruct K2 as (rows & ->).
    destruct Hr1 as (out1 & Ho1 & Hy1 & _). destruct Hr2 as (out2 & Ho2 & Hy2 & _).
    rewrite Ht, Ho1 in Ho2. injection Ho2 as <-.
    exists out1. split; [exact Hy1|]. intros _. exact Hy2.
Qed.

Lemma return_df_only_changes_representation_witness :
  let F := [("color", [Str "a"; Str "b"]); ("size", [Int 5; Int 6])] in
  let w1 := after_fit (init 0 (Some ["color"]) false true) F F in
  let w2 := after_fit (init 0 (Some ["color"]) false false) F F in
  let w1' := after_transform (init 0 (Some ["color"]) false true) F F in
  let w2' := after_transform (init 0 (Some ["color"]) false false) F F in
  let out := [("col_color_0", [Float 1; Float 1]);
              ("col_color_1", [Float (-1); Float 1]);
              ("col_size", [Int 5; Int 6])] in
  let rows := [[Float 1; Float (-1); Float 5];
               [Float 1; Float 1; Float 6]] in
  heap w1 !! 1 = Some F
  ∧ heap w2 !! 1 = Some F
  ∧ cols (self w1) = Some ["color"]
  ∧ return_df (self w1) = true
  ∧ transform 1 w1 = (inr (DataFrame 4), w1')
  ∧ transform 1 w2 = (inr (NDArray rows), w2')
  ∧ heap w1' !! 4 = Some out
  ∧ ∃ out, heap w1' !! 4 = Some out ∧ (out ≠ [] → rows = values out).
Proof.
  intros F w1 w2 w1' w2' out rows.
  assert (H1 : heap w1 !! 1 = Some F) by computed.
  assert (H2 : heap w2 !! 1 = Some F) by computed.
  assert (Hcs : cols (self w1) = Some ["color"]) by computed.
  assert (Hdf : return_df (self w1) = true) by computed.
  assert (Hs : self w2 = {| return_df := false;
               drop_invariant := drop_invariant (self w1);
               drop_cols := drop_cols (self w1);
               verbose := verbose (self w1);
               cols := cols (self w1);
               ordinal_encoder := ordinal_encoder (self w1);
               _dim := _dim (self w1) |}) by computed.
  assert (E1 : transform 1 w1 = (inr (DataFrame 4), w1')) by computed.
  assert (E2 : transform 1 w2 = (inr (NDArray rows), w2')) by computed.
  split; [exact H1|]. split; [exact H2|]. split; [exact Hcs|].
  split; [exact Hdf|]. split; [exact E1|]. split; [exact E2|].
  split; [computed|].
  exact (return_df_only_changes_representation w1 w2 1 1 F "color" []
           _ _ w1' w2' H1 H2 Hcs Hdf Hs E1 E2).
Defined.

(** X5. Without pruning, the table [transform] returns holds, for every
    selected column, the intercept column [col_<c>_0], and that column is
    1 in every row, whatever the values and the other labels of the
    input. *)
Theorem transform_intercept_is_ones w r X n c0 cs0 c res w' :
  cols (self w) = Some (c0 :: cs0) →
  pruned (self w) = [] →
  aligned n X →
  heap w !! r = Some X →
  transform r w = (inr res, w') →
  c ∈ c0 :: cs0 →
  ∃ out,
    yields w' res out
    ∧ expanded (prefixed c) 0 ∈ columns out
    ∧ ∀ v, (expanded (prefixed c) 0, v) ∈ out → v = replicate n (Float 1).
Proof.
  intros Hcs Hp Ha H E Hc.
  destruct (transform_run _ _ _ _ _ H E) as (g & _ & out & Hout & Hy & _).
  exists out. split; [exact Hy|].
  exact (transform_frame_intercept _ _ _ _ _ _ _ Hcs Hp Ha Hout Hc).
Qed.

Lemma transform_intercept_is_ones_witness :
  let enc := init 0 (Some ["color"]) false true in
  let X := [("color", [Str "red"; Str "pink"]); ("col_color_0", [Int 7; Int 8])] in
  let w := after_fit enc (rgb ++ [("n", [Int 1; Int 2; Int 3])]) X in
  let w' := after_transform enc (rgb ++ [("n", [Int 1; Int 2; Int 3])]) X in
  cols (self w) = Some ["color"]
  ∧ pruned (self w) = []
  ∧ aligned 2 X
  ∧ heap w !! 1 = Some X
  ∧ transform 1 w = (inr (DataFrame 4), w')
  ∧ ∃ out,
      yields w' (DataFrame 4) out
      ∧ expanded (prefixed "color") 0 ∈ columns out
      ∧ ∀ v, (expanded (prefixed "color") 0, v) ∈ out
             → v = replicate 2 (Float 1).
Proof.
  intros enc X w w'.
  assert (Hcs : cols (self w) = Some ["color"]) by computed.
  assert (Hp : pruned (self w) = []) by computed.
  assert (Ha : aligned 2 X) by decided.
  assert (H : heap w !! 1 = Some X) by computed.
  assert (E : transform 1 w = (inr (DataFrame 4), w')) by computed.
  assert (Hc : "color" ∈ ["color"]) by decided.
  split; [exact Hcs|]. split; [exact Hp|]. split; [exact Ha|].
  split; [exact H|]. split; [exact E|].
  exact (transform_intercept_is_ones w 1 X 2 "color" [] "color" _ w'
           Hcs Hp Ha H E Hc).
Defined.

(** X6. With pruning and a selected column, no label held in [drop_cols]
    is a label of the table [transform] returns. *)
Theorem transform_removes_drop_cols w r X c0 cs0 r' w' out l :
  cols (self w) = Some (c0 :: cs0) →
  drop_invariant (self w) = true →
  heap w !! r = Some X →
  transform r w = (inr (DataFrame r'), w') →
  heap w' !! r' = Some out →
  l ∈ drop_cols (self w) →
  l ∉ columns out.
Proof.
  intros Hcs Hdi H E Hout Hl.
  destruct (transform_run _ _ _ _ _ H E) as (g & _ & out' & Ht & Hy & _).
  cbn [yields] in Hy. rewrite Hout in Hy. injection Hy as <-.
  eapply transform_frame_pruned; [exact Hcs|exact Ht|].
  unfold pruned. by rewrite Hdi.
Qed.

Lemma transform_removes_drop_cols_witness :
  let F := [("color", [Str "a"; Str "b"]); ("size", [Int 5; Int 5])] in
  let X := [("color", [Str "b"; Str "a"]); ("size", [Int 1; Int 9])] in
  let w := after_fit pruning F X in
  let w' := after_transform pruning F X in
  let out := [("col_color_1", [Float 1; Float (-1)])] in
  cols (self w) = Some ["color"]
  ∧ drop_invariant (self w) = true
  ∧ heap w !! 1 = Some X
  ∧ transform 1 w = (inr (DataFrame 7), w')
  ∧ heap w' !! 7 = Some out
  ∧ "col_size" ∈ drop_cols (self w)
  ∧ "col_size" ∉ columns out.
Proof.
  intros F X w w' out.
  assert (Hcs : cols (self w) = Some ["color"]) by computed.
  assert (Hdi : drop_invariant (self w) = true) by computed.
  assert (H : heap w !! 1 = Some X) by computed.
  assert (E : transform 1 w = (inr (DataFrame 7), w')) by computed.
  assert (Hout : heap w' !! 7 = Some out) by computed.
  assert (Hl : "col_size" ∈ drop_cols (self w)) by decided.
  split; [exact Hcs|]. split; [exact Hdi|]. split; [exact H|].
  split; [exact E|]. split; [exact Hout|]. split; [exact Hl|].
  exact (transform_removes_drop_cols w 1 X "color" [] 7 w' out "col_size"
           Hcs Hdi H E Hout Hl).
Defined.

(** X7. Every label in [drop_cols] has to be a label of the expanded
    table: with pruning and a selected column, a label in [drop_cols] that
    does not start with [col_] (an original column label, say) makes
    [transform] raise instead of being skipped. *)
Theorem transform_foreign_drop_label_raises w r X c0 cs0 l res w' :
  cols (self w) = Some (c0 :: cs0) →
  drop_invariant (self w) = true →
  l ∈ drop_cols (self w) →
  (∀ x, l ≠ "col_" +:+ x) →
  heap w !! r = Some X →
  transform r w = (res, w') →
  ∃ e, res = inl e.
Proof.
  intros Hcs Hdi Hl Hx H E. destruct res as [e|res]; [by exists e|exfalso].
  destruct (transform_run _ _ _ _ _ H E) as (g & _ & out & Ht & _).
  destruct (transform_frame_unpruned _ _ _ _ _ Hcs Ht) as (X2 & Hu & Hd).
  assert (Hin : l ∈ columns X2).
  { eapply drop_all_elem; [exact Hd|]. unfold pruned. by rewrite Hdi. }
  destruct (transform_frame_labels (set_drop_cols [] (self w)) X X2 c0 cs0 l)
    as [(x & _ & _ & ->)|(c & d & _ & ->)]; [done|exact Hu|exact Hin| |].
  - by apply (Hx x).
  - rewrite <- prefixed_expanded in Hx. by apply (Hx (expanded c d)).
Qed.

Lemma transform_foreign_drop_label_raises_witness :
  let s := set_drop_cols ["color"]
             (self (after_fit pruning rgb rgb)) in
  let w := {| self := s; heap := [rgb] |} in
  let e := ValueError "labels ['color'] not contained in axis" in
  cols (self w) = Some ["color"]
  ∧ drop_invariant (self w) = true
  ∧ "color" ∈ drop_cols (self w)
  ∧ (∀ x, "color" ≠ "col_" +:+ x)
  ∧ heap w !! 0 = Some rgb
  ∧ (transform 0 w).1 = inl e
  ∧ ∃ e', inl e = inl e' :> error + result.
Proof.
  intros s w e.
  assert (Hcs : cols (self w) = Some ["color"]) by computed.
  assert (Hdi : drop_invariant (self w) = true) by computed.
  assert (Hl : "color" ∈ drop_cols (self w)) by decided.
  assert (Hx : ∀ x, "color" ≠ "col_" +:+ x) by (intros x; discriminate).
  assert (H : heap w !! 0 = Some rgb) by computed.
  assert (E : transform 0 w = (inl e, (transform 0 w).2)) by computed.
  split; [exact Hcs|]. split; [exact Hdi|]. split; [exact Hl|].
  split; [exact Hx|]. split; [exact H|]. split; [computed|].
  exact (transform_foreign_drop_label_raises w 0 rgb "color" [] "color"
           (inl e) _ Hcs Hdi Hl Hx H E).
Defined.

(** X8. [transform] keeps the row count: every column of the table it
    returns has as many cells as the columns of its input. *)
Theorem transform_keeps_row_count w r X n r' w' out :
  aligned n X →
  heap w !! r = Some X →
  transform r w = (inr (DataFrame r'), w') →
  heap w' !! r' = Some out →
  aligned n out.
Proof.
  intros Ha H E Hout.
  destruct (transform_run _ _ _ _ _ H E) as (g & _ & out' & Ht & Hy & _).
  cbn [yields] in Hy. rewrite Hout in Hy. injection Hy as <-.
  by eapply transform_frame_aligned.
Qed.

Lemma transform_keeps_row_count_witness :
  let F := [("color", [Str "a"; Str "b"]); ("size", [Int 5; Int 5])] in
  let X := [("color", [Str "b"; Str "c"; Str "a"]); ("size", [Int 1; Int 9; Int 4])] in
  let w := after_fit pruning F X in
  let w' := after_transform pruning F X in
  let out := [("col_color_1", [Float 0; Float (-1); Float 1]);
              ("col_color_2", [Float 2; Float (-1); Float (-1)])] in
  aligned 3 X
  ∧ heap w !! 1 = Some X
  ∧ transform 1 w = (inr (DataFrame 7), w')
  ∧ heap w' !! 7 = Some out
  ∧ aligned 3 out.
Proof.
  intros F X w w' out.
  assert (Ha : aligned 3 X) by decided.
  assert (H : heap w !! 1 = Some X) by computed.
  assert (E : transform 1 w = (inr (DataFrame 7), w')) by computed.
  assert (Hout : heap w' !! 7 = Some out) by computed.
  split; [exact Ha|]. split; [exact H|]. split; [exact E|].
  split; [exact Hout|].
  exact (transform_keeps_row_count w 1 X 3 7 w' out Ha H E Hout).
Defined.

(** X9. On a table without rows, [transform] with a selected column never
    returns: whatever the instance, an error is raised, at the latest
    inside [dmatrix], which finds no level to code. *)
Theorem transform_no_rows_raises w r X c0 cs0 res w' :
  cols (self w) = Some (c0 :: cs0) →
  aligned 0 X →
  heap w !! r = Some X →
  transform r w = (res, w') →
  ∃ e, res = inl e.
Proof.
  intros Hcs Ha H E. destruct res as [e|res]; [by exists e|exfalso].
  destruct (transform_run _ _ _ _ _ H E) as (g & _ & out & Ht & _).
  destruct (transform_frame_no_rows _ _ _ _ Hcs Ha) as [e He].
  by rewrite He in Ht.
Qed.

Lemma transform_no_rows_raises_witness :
  let enc := init 0 (Some ["color"]) false true in
  let X := [("color", []); ("size", [])] in
  let F := [("color", [Str "a"; Str "b"]); ("size", [Int 5; Int 6])] in
  let w := after_fit enc F X in
  let e := ValueError "negative dimensions are not allowed" in
  cols (self w) = Some ["color"]
  ∧ aligned 0 X
  ∧ heap w !! 1 = Some X
  ∧ (transform 1 w).1 = inl e
  ∧ ∃ e', inl e = inl e' :> error + result.
Proof.
  intros enc X F w e.
  assert (Hcs : cols (self w) = Some ["color"]) by computed.
  assert (Ha : aligned 0 X) by decided.
  assert (H : heap w !! 1 = Some X) by computed.
  assert (E : transform 1 w = (inl e, (transform 1 w).2)) by computed.
  split; [exact Hcs|]. split; [exact Ha|]. split; [exact H|].
  split; [computed|].
  exact (transform_no_rows_raises w 1 X "color" [] (inl e) _ Hcs Ha H E).
Defined.

(** ** [helmert_coding] *)

(** X10. Called without [cols] (its default, [None]), [helmert_coding]
    always raises [TypeError]: the labels of [cols] are prefixed before
    the test [cols is None], so the branch for [None] is never reached.
    Only the relabelled copy has been allocated by then. *)
Theorem helmert_coding_default_cols_raises w r X :
  heap w !! r = Some X →
  helmert_coding r None w
  = (inl (TypeError "'NoneType' object is not iterable"),
     {| self := self w; heap := heap w ++ [relabel X] |}).
Proof. apply helmert_coding_none_run. Qed.

Lemma helmert_coding_default_cols_raises_witness :
  let w := {| self := plain; heap := [rgb] |} in
  heap w !! 0 = Some rgb
  ∧ helmert_coding 0 None w
    = (inl (TypeError "'NoneType' object is not iterable"),
       {| self := plain;
          heap := [rgb; [("col_color", Str <$> ["red"; "green"; "blue"])]] |}).
Proof.
  intros w.
  assert (H : heap w !! 0 = Some rgb) by computed.
  split; [exact H|].
  exact (helmert_coding_default_cols_raises w 0 rgb H).
Defined.

(** X11. With an empty list of columns, [helmert_coding] on a table with
    distinct labels returns a new table that is the input with every
    label prefixed by [col_], the cells and the column order unchanged;
    the input stays as it was. *)
Theorem helmert_coding_empty_cols w r X :
  heap w !! r = Some X →
  NoDup (columns X) →
  ∃ r' w',
    helmert_coding r (Some []) w = (inr r', w')
    ∧ r' ≠ r
    ∧ heap w' !! r = Some X
    ∧ heap w' !! r' = Some ((λ c, ("col_" +:+ c.1, c.2)) <$> X).
Proof.
  intros H Hn. rewrite (helmert_coding_run _ _ _ _ H).
  cbn [fmap list_fmap expand_loop app].
  rewrite filter_all by (intros x _; apply not_elem_of_nil).
  rewrite reindex_NoDup, reindex_id by (by apply relabel_NoDup).
  pose proof (lookup_lt_Some _ _ _ H) as Hlt.
  eexists _, _. split; [done|]. split; [lia|]. cbn [heap]. split.
  - by apply lookup_app_l_Some.
  - rewrite lookup_app_r by lia.
    replace (S (length (heap w)) - length (heap w)) with 1 by lia.
    cbn. by rewrite relabel_fmap.
Qed.

Lemma helmert_coding_empty_cols_witness :
  let X := [("color", [Str "a"; Str "b"]); ("size", [Int 5; Int 6])] in
  let w := {| self := plain; heap := [X] |} in
  heap w !! 0 = Some X
  ∧ NoDup (columns X)
  ∧ ∃ r' w',
      helmert_coding 0 (Some []) w = (inr r', w')
      ∧ r' ≠ 0
      ∧ heap w' !! 0 = Some X
      ∧ heap w' !! r' = Some ((λ c, ("col_" +:+ c.1, c.2)) <$> X).
Proof.
  intros X w.
  assert (H : heap w !! 0 = Some X) by computed.
  assert (Hn : NoDup (columns X)) by decided.
  split; [exact H|]. split; [exact Hn|].
  exact (helmert_coding_empty_cols w 0 X H Hn).
Defined.

(** X12. [helmert_coding] works on a deep copy: whatever [cols] is and
    whether it returns or raises, it assigns no attribute of the instance
    and leaves every table of the store, its input among them, as it was;
    the reference it returns is none of them. *)
Theorem helmert_coding_works_on_a_copy w r X cs res w' :
  heap w !! r = Some X →
  helmert_coding r cs w = (res, w') →
  self w' = self w
  ∧ ∀ r0 Y, heap w !! r0 = Some Y →
      heap w' !! r0 = Some Y ∧ res ≠ inr r0.
Proof.
  intros H E.
  destruct (helmert_coding_store _ _ _ _ _ _ H E) as (Hs & g & -> & Hr).
  split; [exact Hs|]. intros r0 Y HY. split.
  - by apply lookup_app_l_Some.
  - intros ->. specialize (Hr r0 eq_refl).
    apply lookup_lt_Some in HY. lia.
Qed.

Lemma helmert_coding_works_on_a_copy_witness :
  let X := [("a", [Int 2; Int 1; Int 2]); ("b", [Int 5; Int 6; Int 7])] in
  let w := {| self := plain; heap := [X] |} in
  let w' := (helmert_coding 0 (Some ["a"]) w).2 in
  heap w !! 0 = Some X
  ∧ helmert_coding 0 (Some ["a"]) w = (inr 2, w')
  ∧ heap w' !! 2
    = Some [("col_a_0", [Float 1; Float 1; Float 1]);
            ("col_a_1", [Float 1; Float (-1); Float 1]);
            ("col_b", [Int 5; Int 6; Int 7])]
  ∧ self w' = self w
  ∧ ∀ r0 Y, heap w !! r0 = Some Y →
      heap w' !! r0 = Some Y ∧ (inr 2 : error + nat) ≠ inr r0.
Proof.
  intros X w w'.
  assert (H : heap w !! 0 = Some X) by computed.
  assert (E : helmert_coding 0 (Some ["a"]) w = (inr 2, w')) by computed.
  split; [exact H|]. split; [exact E|]. split; [computed|].
  exact (helmert_coding_works_on_a_copy w 0 X (Some ["a"]) (inr 2) w' H E).
Defined.

(** ** [fit] *)

(** X13. Whatever its outcome, an error included, [fit] leaves every table
    of the store, the training table among them, as it was, and it keeps
    the settings [return_df], [drop_invariant] and [verbose]. *)
Theorem fit_keeps_tables_and_settings w r F res w' :
  heap w !! r = Some F →
  fit r w = (res, w') →
  (∀ r0 Y, heap w !! r0 = Some Y → heap w' !! r0 = Some Y)
  ∧ return_df (self w') = return_df (self w)
  ∧ drop_invariant (self w') = drop_invariant (self w)
  ∧ verbose (self w') = verbose (self w).
Proof.
  intros H E. rewrite (fit_unfold _ _ _ H) in E.
  destruct (ordinal_learn _ F) as [e|ms]; [by injection E as <- <-|].
  cbv zeta in E. destruct (drop_invariant (self w)) eqn:Hdi.
  2:{ injection E as <- <-. by rewrite <- Hdi. }
  destruct (transform r _) as [rt wt] eqn:Et.
  destruct (transform_run r {| self := _; heap := heap w |} _ _ _ H Et)
    as (g & -> & _).
  cbn [self heap] in E.
  assert (Hh : ∀ r0 Y, heap w !! r0 = Some Y → (heap w ++ g) !! r0 = Some Y).
  { intros r0 Y HY. by apply lookup_app_l_Some. }
  destruct rt as [e|[r'|rows]].
  - injection E as <- <-. by rewrite <- Hdi.
  - destruct (_ !! r') as [X_temp|].
    + destruct (invariant_labels _ _); injection E as <- <-;
        by rewrite <- Hdi.
    + injection E as <- <-. by rewrite <- Hdi.
  - injection E as <- <-. by rewrite <- Hdi.
Qed.

Lemma fit_keeps_tables_and_settings_witness :
  let F := [("color", [Str "a"; Str "b"]); ("size", [Int 5; Int 5])] in
  let w := before_fit pruning F F in
  let w' := after_fit pruning F F in
  heap w !! 0 = Some F
  ∧ fit 0 w = (inr (), w')
  ∧ length (heap w') = 5
  ∧ (∀ r0 Y, heap w !! r0 = Some Y → heap w' !! r0 = Some Y)
  ∧ return_df (self w') = return_df (self w)
  ∧ drop_invariant (self w') = drop_invariant (self w)
  ∧ verbose (self w') = verbose (self w).
Proof.
  intros F w w'.
  assert (H : heap w !! 0 = Some F) by computed.
  assert (E : fit 0 w = (inr (), w')) by computed.
  split; [exact H|]. split; [exact E|]. split; [computed|].
  exact (fit_keeps_tables_and_settings w 0 F (inr ()) w' H E).
Defined.

(** X14. Without [drop_invariant], [fit] does not run [transform]: it
    allocates no table, and it leaves [drop_cols] as it finds it, so the
    labels an earlier fit stored there stay. *)
Theorem fit_without_pruning_keeps_drop_cols w r F res w' :
  heap w !! r = Some F →
  drop_invariant (self w) = false →
  fit r w = (res, w') →
  heap w' = heap w ∧ drop_cols (self w') = drop_cols (self w).
Proof.
  intros H Hdi E. rewrite (fit_unfold _ _ _ H), Hdi in E.
  destruct (ordinal_learn _ F) as [e|ms]; by injection E as <- <-.
Qed.

Lemma fit_without_pruning_keeps_drop_cols_witness :
  let F := [("color", [Str "a"; Str "b"]); ("size", [Int 5; Int 5])] in
  let G := [("color", [Str "a"; Str "b"]); ("size", [Int 5; Int 6])] in
  let s := {| return_df := true; drop_invariant := false;
              drop_cols := drop_cols (self (after_fit pruning F F));
              verbose := 0; cols := Some ["color"];
              ordinal_encoder := None; _dim := None |} in
  let w := {| self := s; heap := [G] |} in
  let w' := (fit 0 w).2 in
  heap w !! 0 = Some G
  ∧ drop_invariant (self w) = false
  ∧ fit 0 w = (inr (), w')
  ∧ drop_cols (self w) = ["col_color_0"; "col_size"]
  ∧ heap w' = heap w
  ∧ drop_cols (self w') = drop_cols (self w).
Proof.
  intros F G s w w'.
  assert (H : heap w !! 0 = Some G) by computed.
  assert (Hdi : drop_invariant (self w) = false) by computed.
  assert (E : fit 0 w = (inr (), w')) by computed.
  split; [exact H|]. split; [exact Hdi|]. split; [exact E|].
  split; [computed|].
  exact (fit_without_pruning_keeps_drop_cols w 0 G (inr ()) w' H Hdi E).
Defined.

(** X15. [drop_invariant] needs [return_df]: with pruning on, [return_df]
    off and at least one selected column, [fit] never returns. When its
    own steps and the [transform] it runs go through, the error is the
    [AttributeError] of reading [.columns] off the array [transform]
    returned. *)
Theorem fit_pruning_with_arrays_raises w r F c0 cs0 res w' :
  heap w !! r = Some F →
  drop_invariant (self w) = true →
  return_df (self w) = false →
  resolved_cols (self w) F = c0 :: cs0 →
  fit r w = (res, w') →
  ∃ e, res = inl e
    ∧ ∀ ms out,
        ordinal_learn (c0 :: cs0) F = inr ms →
        transform_frame
          (set_drop_cols []
             (set_ordinal_encoder
                (Some {| oe_cols := c0 :: cs0; oe_mapping := ms |})
                (resolved (self w) F))) F = inr out →
        e = AttributeError "'numpy.ndarray' object has no attribute 'columns'".
Proof.
  intros H Hdi Hdf Hcs E. rewrite (fit_unfold _ _ _ H), Hcs, Hdi in E.
  destruct (ordinal_learn _ F) as [e|ms].
  { injection E as <- <-. exists e. split; [done|]. by intros ms out. }
  cbv zeta in E.
  destruct (transform r _) as [rt wt] eqn:Et.
  pose proof (transform_run r {| self := _; heap := heap w |} _ _ _ H Et)
    as (g & _ & Hrt).
  destruct rt as [e|res0].
  { injection E as <- <-. exists e. split; [done|].
    intros ms' out [= <-] Hout. cbn [self] in Hrt. by rewrite Hrt in Hout. }
  match type of Et with
  | transform _ ?w0 = _ => pose proof (transform_kind r w0 F c0 cs0 res0 wt H) as K
  end. cbn [self] in K.
  specialize (K ltac:(cbn; by rewrite Hcs) Et).
  change (return_df _) with (return_df (self w)) in K. rewrite Hdf in K.
  destruct K as [rows ->]. injection E as <- <-.
  eexists. split; [done|]. done.
Qed.

Lemma fit_pruning_with_arrays_raises_witness :
  let F := [("color", [Str "a"; Str "b"]); ("size", [Int 5; Int 5])] in
  let w := before_fit (init 0 None true false) F F in
  let e := AttributeError "'numpy.ndarray' object has no attribute 'columns'" in
  heap w !! 0 = Some F
  ∧ drop_invariant (self w) = true
  ∧ return_df (self w) = false
  ∧ resolved_cols (self w) F = ["color"]
  ∧ (fit 0 w).1 = inl e
  ∧ ∃ e', (inl e : error + ()) = inl e'
      ∧ ∀ ms out,
          ordinal_learn ["color"] F = inr ms →
          transform_frame
            (set_drop_cols []
               (set_ordinal_encoder
                  (Some {| oe_cols := ["color"]; oe_mapping := ms |})
                  (resolved (self w) F))) F = inr out →
          e' = AttributeError
                 "'numpy.ndarray' object has no attribute 'columns'".
Proof.
  intros F w e.
  assert (H : heap w !! 0 = Some F) by computed.
  assert (Hdi : drop_invariant (self w) = true) by computed.
  assert (Hdf : return_df (self w) = false) by computed.
  assert (Hcs : resolved_cols (self w) F = ["color"]) by computed.
  assert (E : fit 0 w = (inl e, (fit 0 w).2)) by computed.
  split; [exact H|]. split; [exact Hdi|]. split; [exact Hdf|].
  split; [exact Hcs|]. split; [computed|].
  exact (fit_pruning_with_arrays_raises w 0 F "color" [] (inl e) _
           H Hdi Hdf Hcs E).
Defined.

(** X16. The table a pruning [fit] was run on can always be transformed
    afterwards: the labels [fit] stored in [drop_cols] are distinct labels
    of the expanded table, so the pruning loop of [transform] finds every
    one of them and [transform] returns. *)
Theorem transform_after_pruning_fit_returns w0 r0 F w1 w r :
  heap w0 !! r0 = Some F →
  drop_invariant (self w0) = true →
  fit r0 w0 = (inr (), w1) →
  self w = self w1 →
  heap w !! r = Some F →
  ∃ res w' out, transform r w = (inr res, w') ∧ yields w' res out.
Proof.
  intros H Hdi E Hs Hw.
  rewrite (fit_unfold _ _ _ H), Hdi in E.
  destruct (ordinal_learn _ F) as [e|ms]; [done|]. cbv zeta in E.
  destruct (transform r0 _) as [rt wt] eqn:Et.
  pose proof (transform_run r0 {| self := _; heap := heap w0 |} _ _ _ H Et)
    as (g & Hwt & Hrt).
  destruct rt as [e|[r'|rows]]; [done| |done].
  destruct (heap wt !! r') as [X_temp|] eqn:Hr'; [|done].
  destruct (invariant_labels X_temp (columns X_temp)) as [e|dc] eqn:Edc;
    [done|].
  injection E as <-. destruct Hrt as (out & Ht & Hy & _).
  cbn [yields] in Hy. rewrite Hr' in Hy. injection Hy as <-.
  rewrite Hwt in Hs. cbn [self] in Hs, Ht.
  cut (∃ out, transform_frame (self w) F = inr out).
  { intros [out Hout].
    destruct (transform_complete _ _ _ _ Hw Hout) as (res & w' & E & Hy).
    by exists res, w', out. }
  rewrite Hs.
  destruct (resolved_cols (self w0) F) as [|c0 cs0] eqn:Hcs.
  - exists F. unfold transform_frame in *.
    cbn [_dim cols set_drop_cols set_ordinal_encoder resolved set_cols set_dim]
      in *.
    rewrite Hcs in *. by destruct (decide _).
  - rewrite (transform_frame_prune _ _ X_temp c0 cs0);
      [|cbn; by rewrite Hcs|exact Ht].
    unfold pruned.
    cbn [drop_invariant drop_cols set_drop_cols set_ordinal_encoder resolved
         set_cols set_dim].
    rewrite Hdi.
    destruct (invariant_labels_spec _ _ _ Edc) as [Hg Hdc].
    apply drop_all_ok.
    + assert (Hn : NoDup (columns X_temp)).
      { apply NoDup_columns_getitem. intros l Hl.
        destruct (Hg l Hl) as (v & _ & Hv & _). by exists v. }
      eapply sublist_NoDup; [exact Hn|]. by eapply invariant_labels_sublist.
    + intros l Hl. by apply Hdc in Hl as [Hl _].
Qed.

Lemma transform_after_pruning_fit_returns_witness :
  let F := [("color", [Str "a"; Str "b"]); ("size", [Int 5; Int 5])] in
  let w0 := before_fit pruning F F in
  let w1 := after_fit pruning F F in
  heap w0 !! 0 = Some F
  ∧ drop_invariant (self w0) = true
  ∧ fit 0 w0 = (inr (), w1)
  ∧ drop_cols (self w1) = ["col_color_0"; "col_size"]
  ∧ heap w1 !! 0 = Some F
  ∧ ∃ res w' out, transform 0 w1 = (inr res, w') ∧ yields w' res out.
Proof.
  intros F w0 w1.
  assert (H : heap w0 !! 0 = Some F) by computed.
  assert (Hdi : drop_invariant (self w0) = true) by computed.
  assert (E : fit 0 w0 = (inr (), w1)) by computed.
  assert (Hw : heap w1 !! 0 = Some F) by computed.
  split; [exact H|]. split; [exact Hdi|]. split; [exact E|].
  split; [computed|]. split; [exact Hw|].
  exact (transform_after_pruning_fit_returns w0 0 F w1 w1 0
           H Hdi E eq_refl Hw).
Defined.

(** X17. [fit] is idempotent: after a [fit] that returned, a second [fit]
    on an equal table returns as well and leaves the instance exactly as
    the first left it. *)
Theorem fit_twice_same_instance w0 r0 F w1 w r :
  heap w0 !! r0 = Some F →
  fit r0 w0 = (inr (), w1) →
  self w = self w1 →
  heap w !! r = Some F →
  ∃ w2, fit r w = (inr (), w2) ∧ self w2 = self w1.
Proof.
  intros H E Hs Hw.
  rewrite (fit_unfold _ _ _ H) in E. rewrite (fit_unfold _ _ _ Hw), Hs.
  destruct (ordinal_learn _ F) as [e|ms] eqn:Ems; [done|]. cbv zeta in E.
  destruct (drop_invariant (self w0)) eqn:Hdi.
  2:{ injection E as <-. cbn [self].
      set (s2 := set_ordinal_encoder _ (resolved (self w0) F)).
      change (resolved_cols s2 F) with (resolved_cols (self w0) F).
      rewrite Ems. cbv zeta.
      change (drop_invariant s2) with (drop_invariant (self w0)).
      rewrite Hdi. by eexists. }
  destruct (transform r0 _) as [rt wt] eqn:Et.
  destruct rt as [e|[r'|rows]]; [done| |done].
  destruct (heap wt !! r') as [X_temp|] eqn:Hr'; [|done].
  destruct (invariant_labels X_temp (columns X_temp)) as [e|dc] eqn:Edc;
    [done|].
  injection E as <-.
  set (s2 := set_ordinal_encoder _ (resolved (self w0) F)) in *.
  destruct (transform_again r0 {| self := set_drop_cols [] s2; heap := heap w0 |}
              r {| self := set_drop_cols [] s2; heap := heap w |} F r' wt
              H Hw eq_refl Et)
    as (r'' & w2' & out & E2 & Hs2 & _ & Ho1 & Ho2).
  rewrite Hr' in Ho1. injection Ho1 as <-.
  destruct (transform_run r0 {| self := _; heap := heap w0 |} _ _ _ H Et)
    as (g & -> & _).
  cbn [self] in *.
  change (resolved_cols (set_drop_cols dc (set_drop_cols [] s2)) F)
    with (resolved_cols (self w0) F).
  rewrite Ems. cbv zeta.
  change (drop_invariant (set_drop_cols dc (set_drop_cols [] s2)))
    with (drop_invariant (self w0)).
  rewrite Hdi.
  match goal with
  | |- context [transform r {| self := ?s; heap := heap w |}] =>
      change s with (set_drop_cols [] s2)
  end.
  rewrite E2, Ho2, Edc. eexists. split; [done|]. cbn [self].
  by rewrite Hs2.
Qed.

Lemma fit_twice_same_instance_witness :
  let F := [("color", [Str "a"; Str "b"]); ("size", [Int 5; Int 5])] in
  let w0 := before_fit pruning F F in
  let w1 := after_fit pruning F F in
  heap w0 !! 0 = Some F
  ∧ fit 0 w0 = (inr (), w1)
  ∧ heap w1 !! 1 = Some F
  ∧ ∃ w2, fit 1 w1 = (inr (), w2) ∧ self w2 = self w1.
Proof.
  intros F w0 w1.
  assert (H : heap w0 !! 0 = Some F) by computed.
  assert (E : fit 0 w0 = (inr (), w1)) by computed.
  assert (Hw : heap w1 !! 1 = Some F) by computed.
  split; [exact H|]. split; [exact E|]. split; [exact Hw|].
  exact (fit_twice_same_instance w0 0 F w1 w1 1 H E eq_refl Hw).
Defined.

(** X18. [fit] records the width of its table before any other step, so
    after a call of [fit] on a table with [p] columns, even one that went
    on to raise, [transform] rejects every table whose column count is not
    [p] with the unexpected-dimension [ValueError], touching nothing. *)
Theorem fit_fixes_the_expected_width w0 r0 F res0 w1 w r X :
  heap w0 !! r0 = Some F →
  fit r0 w0 = (res0, w1) →
  self w = self w1 →
  heap w !! r = Some X →
  ncols X ≠ ncols F →
  transform r w = (inl (bad_dimension (ncols X) (ncols F)), w).
Proof.
  intros H E Hs Hw Hn.
  destruct (fit_cols _ _ _ _ _ H E) as [_ Hd].
  apply transform_guard_run; [by rewrite Hs|done|done].
Qed.

Lemma fit_fixes_the_expected_width_witness :
  let F := [("color", [Str "a"; Str "b"]); ("size", [Int 5; Int 5])] in
  let X := [("color", [Str "a"; Str "b"])] in
  let w0 := before_fit plain F X in
  let w1 := after_fit plain F X in
  heap w0 !! 0 = Some F
  ∧ fit 0 w0 = (inr (), w1)
  ∧ heap w1 !! 1 = Some X
  ∧ ncols X ≠ ncols F
  ∧ transform 1 w1
    = (inl (ValueError "Unexpected input dimension 1, expected 2"), w1).
Proof.
  intros F X w0 w1.
  assert (H : heap w0 !! 0 = Some F) by computed.
  assert (E : fit 0 w0 = (inr (), w1)) by computed.
  assert (Hw : heap w1 !! 1 = Some X) by computed.
  assert (Hn : ncols X ≠ ncols F) by decided.
  split; [exact H|]. split; [exact E|]. split; [exact Hw|].
  split; [exact Hn|].
  exact (fit_fixes_the_expected_width w0 0 F (inr ()) w1 w1 1 X
           H E eq_refl Hw Hn).
Defined.

(** X19. When [cols] is given, [fit] never replaces it: whatever the
    table and the outcome, the instance keeps the list it was constructed
    with, even when the list names a column the table lacks. *)
Theorem fit_keeps_explicit_cols w r F cs res w' :
  cols (self w) = Some cs →
  heap w !! r = Some F →
  fit r w = (res, w') →
  cols (self w') = Some cs.
Proof.
  intros Hcs H E. destruct (fit_cols _ _ _ _ _ H E) as [Hc _].
  unfold resolved_cols in Hc. by rewrite Hcs in Hc.
Qed.

Lemma fit_keeps_explicit_cols_witness :
  let F := [("color", [Str "a"; Str "b"]); ("size", [Int 5; Int 6])] in
  let w := before_fit (init 0 (Some ["size"]) false true) F F in
  let w' := after_fit (init 0 (Some ["size"]) false true) F F in
  cols (self w) = Some ["size"]
  ∧ heap w !! 0 = Some F
  ∧ fit 0 w = (inr (), w')
  ∧ cols (self w') = Some ["size"].
Proof.
  intros F w w'.
  assert (Hcs : cols (self w) = Some ["size"]) by computed.
  assert (H : heap w !! 0 = Some F) by computed.
  assert (E : fit 0 w = (inr (), w')) by computed.
  split; [exact Hcs|]. split; [exact H|]. split; [exact E|].
  exact (fit_keeps_explicit_cols w 0 F ["size"] (inr ()) w' Hcs H E).
Defined.

(** X20. With pruning, a [fit] that returns overwrites everything learned
    before: the instance it leaves depends only on the settings, on [cols]
    and on the table, not on the [drop_cols], the ordinal encoder or the
    width an earlier [fit] had stored. *)
Theorem fit_forgets_earlier_state w1 r1 w2 r2 F w1' :
  heap w1 !! r1 = Some F →
  heap w2 !! r2 = Some F →
  drop_invariant (self w1) = true →
  drop_invariant (self w2) = true →
  return_df (self w2) = return_df (self w1) →
  verbose (self w2) = verbose (self w1) →
  cols (self w2) = cols (self w1) →
  fit r1 w1 = (inr (), w1') →
  ∃ w2', fit r2 w2 = (inr (), w2') ∧ self w2' = self w1'.
Proof.
  intros H1 H2 Hdi1 Hdi2 Hrd Hv Hc E1.
  assert (Hr : resolved_cols (self w2) F = resolved_cols (self w1) F).
  { unfold resolved_cols. by rewrite Hc. }
  rewrite (fit_unfold _ _ _ H1), Hdi1 in E1.
  rewrite (fit_unfold _ _ _ H2), Hdi2, Hr.
  destruct (ordinal_learn _ F) as [e|ms]; [done|]. cbv zeta in *.
  match goal with
  | |- context [transform r2 {| self := ?s; heap := heap w2 |}] =>
      match type of E1 with
      | context [transform r1 {| self := ?s1; heap := heap w1 |}] =>
          assert (Hs : s = s1);
          [ unfold set_drop_cols, set_ordinal_encoder, resolved, set_cols,
              set_dim; cbn; by rewrite Hdi1, Hdi2, Hrd, Hv, Hr
          | rewrite Hs; clear Hs; set (s0 := s1) in * ]
      end
  end.
  destruct (transform r1 _) as [rt wt] eqn:Et.
  destruct rt as [e|[r'|rows]]; [done| |done].
  destruct (heap wt !! r') as [X_temp|] eqn:Hr'; [|done].
  destruct (invariant_labels X_temp (columns X_temp)) as [e|dc] eqn:Edc;
    [done|].
  injection E1 as <-.
  destruct (transform_again r1 {| self := s0; heap := heap w1 |}
              r2 {| self := s0; heap := heap w2 |} F r' wt
              H1 H2 eq_refl Et)
    as (r'' & w2' & out & E2 & Hs2 & _ & Ho1 & Ho2).
  rewrite Hr' in Ho1. injection Ho1 as <-.
  destruct (transform_run r1 {| self := s0; heap := heap w1 |} _ _ _ H1 Et)
    as (g & -> & _).
  rewrite E2, Ho2, Edc. eexists. split; [done|]. cbn [self] in *.
  by rewrite Hs2.
Qed.

Lemma fit_forgets_earlier_state_witness :
  let F := [("color", [Str "a"; Str "b"]); ("size", [Int 5; Int 5])] in
  let G := [("color", [Str "x"; Str "y"; Str "x"])] in
  let w1 := before_fit pruning F F in
  let w2 := {| self := set_cols (Some ["color"])
                         (self (after_fit (init 0 None true true) G G));
               heap := [G; F] |} in
  let w1' := after_fit pruning F F in
  heap w1 !! 0 = Some F
  ∧ heap w2 !! 1 = Some F
  ∧ drop_invariant (self w1) = true
  ∧ drop_invariant (self w2) = true
  ∧ return_df (self w2) = return_df (self w1)
  ∧ verbose (self w2) = verbose (self w1)
  ∧ cols (self w2) = cols (self w1)
  ∧ _dim (self w2) = Some 1
  ∧ drop_cols (self w2) = ["col_color_0"]
  ∧ fit 0 w1 = (inr (), w1')
  ∧ ∃ w2', fit 1 w2 = (inr (), w2') ∧ self w2' = self w1'.
Proof.
  intros F G w1 w2 w1'.
  assert (H1 : heap w1 !! 0 = Some F) by computed.
  assert (H2 : heap w2 !! 1 = Some F) by computed.
  assert (Hdi1 : drop_invariant (self w1) = true) by computed.
  assert (Hdi2 : drop_invariant (self w2) = true) by computed.
  assert (Hrd : return_df (self w2) = return_df (self w1)) by computed.
  assert (Hv : verbose (self w2) = verbose (self w1)) by computed.
  assert (Hc : cols (self w2) = cols (self w1)) by computed.
  assert (E1 : fit 0 w1 = (inr (), w1')) by computed.
  split; [exact H1|]. split; [exact H2|]. split; [exact Hdi1|].
  split; [exact Hdi2|]. split; [exact Hrd|]. split; [exact Hv|].
  split; [exact Hc|]. split; [computed|]. split; [computed|].
  split; [exact E1|].
  exact (fit_forgets_earlier_state w1 0 w2 1 F w1'
           H1 H2 Hdi1 Hdi2 Hrd Hv Hc E1).
Defined.

(** X21. When the selected columns are distinct, the labels of the input
    are distinct and none of them reads like an expansion of a selected
    column, the labels of the table a fitted encoder returns are pairwise
    distinct. *)
Theorem transform_labels_pairwise_distinct w r X F cs r' w' out :
  fitted_by F (self w) →
  cols (self w) = Some cs →
  NoDup cs →
  NoDup (columns X) →
  no_clash cs X = true →
  heap w !! r = Some X →
  transform r w = (inr (DataFrame r'), w') →
  heap w' !! r' = Some out →
  NoDup (columns out).
Proof.
  intros Hf Hcs Hn HX Hcl H E Hout.
  destruct (transform_run _ _ _ _ _ H E) as (g & _ & out' & Ht & Hy & _).
  cbn [yields] in Hy. rewrite Hout in Hy. injection Hy as <-.
  destruct cs as [|c0 cs0].
  { unfold transform_frame in Ht. rewrite Hcs in Ht.
    destruct (_dim (self w)); [|done]. destruct (decide _); [done|].
    by injection Ht as <-. }
  destruct (fitted_cols _ _ _ Hf Hcs) as (ms & Hoe & Hms & _).
  destruct (transform_frame_blocks _ _ _ _ _ _ Hcs Hoe Hms Hn HX Hcl Ht)
    as (Bs & -> & HBs).
  assert (HBs' : Forall2
            (λ c B, ∃ n, columns B = expanded (prefixed c) <$> seq 0 n)
            (c0 :: cs0) Bs).
  { eapply Forall2_impl; [exact HBs|].
    intros c B (m & xs & _ & _ & _ & ->). eexists. apply columns_block_of. }
  destruct (blocks_labels_NoDup _ _ Hn HBs') as [HB1 HB2].
  eapply sublist_NoDup; [|apply fmap_sublist, sublist_filter].
  fold (columns (concat Bs ++ passthrough (c0 :: cs0) X)).
  rewrite columns_app. apply NoDup_app. split; [exact HB1|]. split.
  - intros l Hl Hl'. destruct (HB2 _ Hl) as (c & d & Hc & ->).
    unfold passthrough, columns in Hl'. rewrite <- list_fmap_compose in Hl'.
    apply list_elem_of_fmap in Hl' as ([x v] & Hx & Hxv). cbn in Hx.
    apply list_elem_of_filter in Hxv as [_ Hxv].
    rewrite <- prefixed_expanded in Hx. apply prefixed_inj in Hx.
    eapply (no_clash_spec _ _ c x d Hcl Hc); [|by symmetry].
    apply elem_columns. by exists v.
  - unfold passthrough, columns. rewrite <- list_fmap_compose.
    change ((fst ∘ (λ c : string * series, (prefixed c.1, c.2))))
      with (prefixed ∘ (fst : string * series → string)).
    rewrite list_fmap_compose. apply (NoDup_fmap_2 _).
    eapply sublist_NoDup; [exact HX|]. apply fmap_sublist, sublist_filter.
Qed.

Lemma transform_labels_pairwise_distinct_witness :
  let F := [("color", [Str "a"; Str "b"]); ("size", [Int 5; Int 6])] in
  let enc := init 0 (Some ["color"]) false true in
  let w := after_fit enc F F in
  let w' := after_transform enc F F in
  let out := [("col_color_0", [Float 1; Float 1]);
              ("col_color_1", [Float (-1); Float 1]);
              ("col_size", [Int 5; Int 6])] in
  fitted_by F (self w)
  ∧ cols (self w) = Some ["color"]
  ∧ NoDup ["color"]
  ∧ NoDup (columns F)
  ∧ no_clash ["color"] F = true
  ∧ heap w !! 1 = Some F
  ∧ transform 1 w = (inr (DataFrame 4), w')
  ∧ heap w' !! 4 = Some out
  ∧ NoDup (columns out).
Proof.
  intros F enc w w' out.
  assert (Hf : fitted_by F (self w)) by (apply after_fit_fitted; computed).
  assert (Hc : cols (self w) = Some ["color"]) by computed.
  assert (Hcs : NoDup ["color"]) by decided.
  assert (HX : NoDup (columns F)) by decided.
  assert (Hcl : no_clash ["color"] F = true) by computed.
  assert (H : heap w !! 1 = Some F) by computed.
  assert (E : transform 1 w = (inr (DataFrame 4), w')) by computed.
  assert (Hout : heap w' !! 4 = Some out) by computed.
  split; [exact Hf|]. split; [exact Hc|]. split; [exact Hcs|].
  split; [exact HX|]. split; [exact Hcl|]. split; [exact H|].
  split; [exact E|]. split; [exact Hout|].
  exact (transform_labels_pairwise_distinct w 1 F F ["color"] 4 w' out
           Hf Hc Hcs HX Hcl H E Hout).
Defined.

(** X22. On a table with a single row, a pruning [fit] that returns marks
    no column at all: the sample variance of one value is undefined, and
    an undefined variance does not pass the test against the threshold.
    [drop_cols] is left empty, the intercept columns included. *)
Theorem fit_single_row_marks_nothing w r F w1 :
  heap w !! r = Some F →
  drop_invariant (self w) = true →
  aligned 1 F →
  fit r w = (inr (), w1) →
  drop_cols (self w1) = [].
Proof.
  intros H Hdi Ha E.
  destruct (fit_run _ _ _ _ _ H E) as (g & _ & ms & _ & Hs).
  rewrite Hdi in Hs. destruct Hs as (X_temp & Ht & dc & Hdc & ->).
  cbn [drop_cols set_drop_cols].
  destruct dc as [|l dc]; [done|exfalso].
  apply invariant_labels_spec in Hdc as [_ Hdc].
  assert (Hin : l ∈ l :: dc) by left.
  apply Hdc in Hin as (_ & v & q & Hv & Hq & _).
  pose proof (transform_frame_aligned _ _ _ _ Ha Ht) as Ha'.
  pose proof (aligned_getitem _ _ _ _ Ha' Hv) as Hl.
  destruct v as [|c [|]]; [done| |done].
  destruct (var_single_cell c) as [Hc|[e Hc]]; by rewrite Hc in Hq.
Qed.

Lemma fit_single_row_marks_nothing_witness :
  let F := [("color", [Str "a"]); ("size", [Int 5])] in
  let w := before_fit pruning F F in
  let w1 := after_fit pruning F F in
  heap w !! 0 = Some F
  ∧ drop_invariant (self w) = true
  ∧ aligned 1 F
  ∧ fit 0 w = (inr (), w1)
  ∧ drop_cols (self w1) = [].
Proof.
  intros F w w1.
  assert (H : heap w !! 0 = Some F) by computed.
  assert (Hdi : drop_invariant (self w) = true) by computed.
  assert (Ha : aligned 1 F) by decided.
  assert (E : fit 0 w = (inr (), w1)) by computed.
  split; [exact H|]. split; [exact Hdi|]. split; [exact Ha|].
  split; [exact E|].
  exact (fit_single_row_marks_nothing w 0 F w1 H Hdi Ha E).
Defined.

(** X23. On a table without rows, a pruning [fit] with at least one
    selected column never returns: the [transform] it runs raises. The
    width and [cols] are recorded all the same. *)
Theorem fit_pruning_no_rows_raises w r F c0 cs0 res w' :
  heap w !! r = Some F →
  drop_invariant (self w) = true →
  resolved_cols (self w) F = c0 :: cs0 →
  aligned 0 F →
  fit r w = (res, w') →
  (∃ e, res = inl e)
  ∧ _dim (self w') = Some (ncols F)
  ∧ cols (self w') = Some (c0 :: cs0).
Proof.
  intros H Hdi Hcs Ha E.
  destruct (fit_cols _ _ _ _ _ H E) as [Hc Hd]. rewrite Hcs in Hc.
  split; [|done].
  destruct res as [e|[]]; [by exists e|exfalso].
  destruct (fit_run _ _ _ _ _ H E) as (g & _ & ms & _ & Hs).
  rewrite Hdi in Hs. destruct Hs as (X_temp & Ht & _).
  match type of Ht with
  | transform_frame ?s _ = _ =>
      destruct (transform_frame_no_rows s F c0 cs0) as [e He];
        [cbn; by rewrite Hcs|exact Ha|]
  end.
  by rewrite He in Ht.
Qed.

Lemma fit_pruning_no_rows_raises_witness :
  let F := [("color", []); ("size", [])] in
  let w := before_fit pruning F F in
  let w' := after_fit pruning F F in
  let e := ValueError "negative dimensions are not allowed" in
  heap w !! 0 = Some F
  ∧ drop_invariant (self w) = true
  ∧ resolved_cols (self w) F = ["color"]
  ∧ aligned 0 F
  ∧ fit 0 w = (inl e, w')
  ∧ (∃ e', (inl e : error + ()) = inl e')
  ∧ _dim (self w') = Some (ncols F)
  ∧ cols (self w') = Some ["color"].
Proof.
  intros F w w' e.
  assert (H : heap w !! 0 = Some F) by computed.
  assert (Hdi : drop_invariant (self w) = true) by computed.
  assert (Hcs : resolved_cols (self w) F = ["color"]) by computed.
  assert (Ha : aligned 0 F) by decided.
  assert (E : fit 0 w = (inl e, w')) by computed.
  split; [exact H|]. split; [exact Hdi|]. split; [exact Hcs|].
  split; [exact Ha|]. split; [exact E|].
  exact (fit_pruning_no_rows_raises w 0 F "color" [] (inl e) w'
           H Hdi Hcs Ha E).
Defined.
